(** * Generalized ufuncs on top of [vmap]: the notebook [notebooks/gufuncs.ipynb]

    A shallow embedding of the code cells of the notebook: the signature
    parser copied from [numpy.lib.function_base], the resolution of core
    dimension sizes and of the broadcast shape, the handling of the [axis]
    argument, and the [vectorize] decorator itself.

    Python values are embedded as follows.
    - A [str] is a sequence of Unicode code points: [list N].
    - A shape is a tuple of non-negative integers: [list nat]; an axis
      number is a Python integer: [Z].
    - A [dict] from names to sizes is a [gmap (list N) nat]; a [set] of
      names is a [gset (list N)].
    - An exception is a value of type [error]; a computation that may
      raise returns a [result]. *)

From Stdlib Require Import ZArith NArith QArith List String Ascii Lia Bool.
From stdpp Require Import base option list gmap.

Set Default Proof Using "Type".
Local Open Scope nat_scope.

(** ** Strings *)

Abbreviation str := (list N).

(** A string literal of the source, as its sequence of code points. *)
Definition py (s : string) : str := map N_of_ascii (list_ascii_of_string s).

(** The code point of an ASCII character. *)
Definition chr (a : ascii) : N := N_of_ascii a.
Arguments chr : simpl never.

(** ** Exceptions *)

Inductive error : Type :=
| InvalidSignature (signature : str)
    (* ValueError: not a valid gufunc signature *)
| UnpackError (got : nat)
    (* ValueError: tuple unpacking of the parsed signature *)
| ArityMismatch (expected got : nat)
    (* TypeError: wrong number of positional arguments *)
| InsufficientRank (ndim : nat) (core_dims : list str)
    (* ValueError: not enough dimensions for all core dimensions *)
| InconsistentDimension (dim : str) (size old : nat)
    (* ValueError: inconsistent size for core dimension *)
| BroadcastError (shapes : list (list nat))
    (* ValueError: shape mismatch, objects cannot be broadcast *)
| AxisNotSupported
    (* ValueError: only one gufuncs with one core dim support axis *)
| AxisError (axis : Z) (ndim : nat)
    (* moveaxis: axis out of bounds *)
| KeyError (dim : str)
| UnboundLocalError
| IndexError
| BatchAxisError
    (* vmap: an argument without the axis to map over, or sizes that differ *)
| StackError.
    (* vmap: outputs of different forms or shapes *)

Inductive result (A : Type) : Type :=
| OK (a : A)
| Raise (e : error).
Arguments OK {A} a.
Arguments Raise {A} e.

(** Sequencing: an exception of the first computation propagates. *)
Definition bind {A B} (m : result A) (f : A -> result B) : result B :=
  match m with
  | OK a => f a
  | Raise e => Raise e
  end.

Notation "x <- m ;; k" := (bind m (fun x => k))
  (at level 100, m at next level, right associativity).

(** Whether a computation returns. *)
Definition is_ok {A} (m : result A) : bool :=
  match m with OK _ => true | Raise _ => false end.

(** [mapM f l]: a list comprehension whose body may raise; the first
    exception, in list order, is the one that propagates. *)
Fixpoint mapM {A B} (f : A -> result B) (l : list A) : result (list B) :=
  match l with
  | [] => OK []
  | a :: l' => b <- f a ;; bs <- mapM f l' ;; OK (b :: bs)
  end.

(** ** The regular expressions of module [re] used by the parser *)

Module Re.

(** The constructs that occur in the patterns of the notebook. Groups are
    all non-capturing; [?], [*] and [+] are the greedy quantifiers. *)
Inductive regex : Type :=
| Lit (c : N)            (* a literal character, escaped or not *)
| Word                   (* \w *)
| Cat (r1 r2 : regex)
| Opt (r : regex)        (* (?:r)? *)
| Star (r : regex)       (* (?:r)* *)
| Bol                    (* ^ *)
| Eol.                   (* $ *)

(** [r+] *)
Definition Plus (r : regex) : regex := Cat r (Star r).

Section Matcher.

(** Membership of the class [\w] for a code point outside ASCII is decided
    by the interpreter's Unicode tables (alphanumeric code points); they
    stay a parameter. On ASCII, [\w] is [[a-zA-Z0-9_]]. *)
Variable unicode_alnum : N -> bool.

(** The class [[a-zA-Z0-9_]]. *)
Definition ascii_word (c : N) : bool :=
  ((48 <=? c) && (c <=? 57) || (65 <=? c) && (c <=? 90)
   || (97 <=? c) && (c <=? 122) || (c =? 95))%N.

(** The class [\w] of a pattern that is a [str]. *)
Definition is_word (c : N) : bool :=
  if (c <? 128)%N then ascii_word c else unicode_alnum c.

Section Run.

Variable A : Type.

(** The greedy loop of [Star]: one more iteration of the body is tried
    first, and only if everything after it fails is the loop left. An
    iteration that consumes nothing ends the loop. *)
Fixpoint star_loop
    (body : nat -> str -> (nat -> str -> option A) -> option A)
    (k : nat -> str -> option A) (fuel : nat) (i : nat) (s : str)
    : option A :=
  match fuel with
  | 0 => k i s
  | S fuel' =>
      match body i s (fun j t => if i <? j then star_loop body k fuel' j t
                                 else None) with
      | Some x => Some x
      | None => k i s
      end
  end.

(** The backtracking matcher: [run r i s k] matches [r] at position [i],
    where [s] is the rest of the subject from [i] on, and hands the
    position and rest after the match to the continuation [k]; when [k]
    fails the next alternative of [r] is tried, in priority order. *)
Fixpoint run (r : regex) (i : nat) (s : str)
    (k : nat -> str -> option A) : option A :=
  match r with
  | Lit c =>
      match s with
      | c' :: s' => if (c =? c')%N then k (S i) s' else None
      | [] => None
      end
  | Word =>
      match s with
      | c' :: s' => if is_word c' then k (S i) s' else None
      | [] => None
      end
  | Cat r1 r2 => run r1 i s (fun j t => run r2 j t k)
  | Opt r' =>
      match run r' i s k with
      | Some x => Some x
      | None => k i s
      end
  | Star r' => star_loop (run r') k (length s) i s
  | Bol => if i =? 0 then k i s else None
  | Eol =>
      (* end of the subject, or just before a newline that ends it *)
      match s with
      | [] => k i s
      | [c] => if (c =? 10)%N then k i s else None
      | _ => None
      end
  end.

End Run.

(** [re.match(r, s)]: the end of the match that starts at position 0. *)
Definition re_match (r : regex) (s : str) : option nat :=
  run nat r 0 s (fun j _ => Some j).

(** [re.findall(r, s)] for a pattern without capturing groups: the
    matched substrings, scanning from left to right, each search resuming
    where the previous match ended. The patterns of the notebook match
    no empty string; an empty match is recorded and the scan moves on by
    one character. *)
Fixpoint findall_from (fuel : nat) (r : regex) (i : nat) (s : str)
    : list str :=
  match fuel with
  | 0 => []
  | S fuel' =>
      match run nat r i s (fun j _ => Some j) with
      | Some j =>
          if i <? j
          then firstn (j - i) s :: findall_from fuel' r j (skipn (j - i) s)
          else [] :: match s with
                     | [] => []
                     | _ :: s' => findall_from fuel' r (S i) s'
                     end
      | None =>
          match s with
          | [] => []
          | _ :: s' => findall_from fuel' r (S i) s'
          end
      end
  end.

(** The scan visits each position at most once: the length of the
    subject, plus one, is fuel enough. *)
Definition findall (r : regex) (s : str) : list str :=
  findall_from (S (length s)) r 0 s.

End Matcher.

End Re.

(** [s.startswith(p)] *)
Fixpoint startswith (p s : str) : bool :=
  match p, s with
  | [], _ => true
  | a :: p', b :: s' => (a =? b)%N && startswith p' s'
  | _ :: _, [] => false
  end.

(** [s.split(sep)] for a non-empty separator: [skip] counts the characters
    of a separator just found that are still to be dropped, [acc] is the
    current piece, reversed. *)
Fixpoint split_go (sep : str) (skip : nat) (acc : str) (s : str)
    : list str :=
  match s with
  | [] => [rev acc]
  | c :: s' =>
      match skip with
      | S n => split_go sep n acc s'
      | 0 =>
          if startswith sep s
          then rev acc :: split_go sep (length sep - 1) [] s'
          else split_go sep 0 (c :: acc) s'
      end
  end.

(** [s.split(sep)] *)
Definition split (sep s : str) : list str := split_go sep 0 [] s.

(** ** Copied from [numpy.lib.function_base]: the signature parser *)

Section Parser.

Variable unicode_alnum : N -> bool.

Import Re.

(** One or more characters of [\w]. *)
Definition _DIMENSION_NAME : regex := Plus Word.

(** Optionally: a name, then any number of times a comma and a name. *)
Definition _CORE_DIMENSION_LIST : regex :=
  Opt (Cat _DIMENSION_NAME (Star (Cat (Lit (chr ",")) _DIMENSION_NAME))).

(** A core dimension list between parentheses. *)
Definition _ARGUMENT : regex :=
  Cat (Lit (chr "(")) (Cat _CORE_DIMENSION_LIST (Lit (chr ")"))).

(** An argument, then any number of times a comma and an argument. *)
Definition _ARGUMENT_LIST : regex :=
  Cat _ARGUMENT (Star (Cat (Lit (chr ",")) _ARGUMENT)).

(** Between [^] and [$]: an argument list, the arrow, an argument
    list. *)
Definition _SIGNATURE : regex :=
  Cat Bol
    (Cat _ARGUMENT_LIST
       (Cat (Lit (chr "-")) (Cat (Lit (chr ">")) (Cat _ARGUMENT_LIST Eol)))).

(** The value returned is a tuple with one list per piece of
    [signature.split('->')]; each list holds one tuple of names per
    argument. *)
Definition _parse_gufunc_signature (signature : str)
    : result (list (list (list str))) :=
  match re_match unicode_alnum _SIGNATURE signature with
  | None => Raise (InvalidSignature signature)
  | Some _ =>
      OK (map (fun arg_list =>
                 map (fun arg => findall unicode_alnum _DIMENSION_NAME arg)
                     (findall unicode_alnum _ARGUMENT arg_list))
              (split (py "->") signature))
  end.

End Parser.

(** ** Arrays *)

(** An array is its shape and its items, read by index tuple. The items
    of interest are those whose index is within the shape. *)
Record ndarray (V : Type) : Type := mk_ndarray {
  shape : list nat;
  item : list nat -> V
}.
Arguments mk_ndarray {V} shape item.
Arguments shape {V} _.
Arguments item {V} _ _.

(** [a.ndim] *)
Definition ndim {V} (a : ndarray V) : nat := length (shape a).

(** What a core function returns: one array, or a tuple of arrays. *)
Inductive pyval (V : Type) : Type :=
| Arr (a : ndarray V)
| Tup (l : list (ndarray V)).
Arguments Arr {V} a.
Arguments Tup {V} l.

(** [l[n:]] and [l[:n]] for a Python integer [n]: a negative bound counts
    from the end, and bounds are clipped to the sequence. *)
Definition slice_from {A} (n : Z) (l : list A) : list A :=
  if (n <? 0)%Z then skipn (Z.to_nat (Z.of_nat (length l) + n)) l
  else skipn (Z.to_nat n) l.

Definition slice_to {A} (n : Z) (l : list A) : list A :=
  if (n <? 0)%Z then firstn (Z.to_nat (Z.of_nat (length l) + n)) l
  else firstn (Z.to_nat n) l.

(** ** Collaborators that are not part of the notebook *)

(** Modelled from the spec: [np.lib.stride_tricks._broadcast_shape], the
    broadcast of two shapes (section 3): align the shapes on the right; a
    pair of entries must be equal, or one of them is 1 or absent; the
    result takes the entry that is not 1. Here on reversed shapes. *)
Fixpoint broadcast_rev (a b : list nat) : option (list nat) :=
  match a, b with
  | [], _ => Some b
  | _, [] => Some a
  | x :: a', y :: b' =>
      match broadcast_rev a' b' with
      | Some r =>
          if x =? y then Some (x :: r)
          else if x =? 1 then Some (y :: r)
          else if y =? 1 then Some (x :: r)
          else None
      | None => None
      end
  end.

(** The broadcast of two shapes. *)
Definition broadcast_pair (a b : list nat) : option (list nat) :=
  match broadcast_rev (rev a) (rev b) with
  | Some r => Some (rev r)
  | None => None
  end.

(** Modelled from the spec: [np.lib.stride_tricks._broadcast_shape] on any
    number of shapes (section 4.2): the broadcast of all of them, and a
    [BroadcastError] naming the shapes when there is none. The dummy
    arrays made by [as_strided(0, shape)] only carry their shape. *)
Definition _broadcast_shape (shapes : list (list nat)) : result (list nat) :=
  match foldl (fun acc s => match acc with
                            | Some r => broadcast_pair r s
                            | None => None
                            end) (Some []) shapes with
  | Some r => OK r
  | None => Raise (BroadcastError shapes)
  end.

(** Whether an array of shape [src] (reversed) can be viewed with shape
    [target] (reversed): rank is extended on the left and entries equal
    to 1 are tiled. *)
Fixpoint broadcastable_rev (src target : list nat) : bool :=
  match src, target with
  | [], _ => true
  | _ :: _, [] => false
  | x :: src', y :: target' =>
      ((x =? y) || (x =? 1)) && broadcastable_rev src' target'
  end.

(** The index in the source array that a view of it reads at [idx]. *)
Definition source_index (src : list nat) (idx : list nat) : list nat :=
  zip_with (fun d i => if d =? 1 then 0 else i) src
           (skipn (length idx - length src) idx).

(** Modelled from the spec: [jnp.broadcast_to] (section 4.3), a view of
    the argument with the target shape, and a [BroadcastError] when the
    argument's shape is not broadcast-compatible with the target. *)
Definition broadcast_to {V} (arg : ndarray V) (target : list nat)
    : result (ndarray V) :=
  if broadcastable_rev (rev (shape arg)) (rev target)
  then OK (mk_ndarray target
             (fun idx => item arg (source_index (shape arg) idx)))
  else Raise (BroadcastError [shape arg; target]).

(** A Python axis number for an array of [n] dimensions. *)
Definition normalize_axis (axis : Z) (n : nat) : result nat :=
  if ((- Z.of_nat n <=? axis) && (axis <? Z.of_nat n))%Z
  then OK (Z.to_nat (axis mod Z.of_nat n))
  else Raise (AxisError axis n).

(** A sequence without its entry at position [i], and with a new entry
    put at position [i]. *)
Definition remove_at {A} (i : nat) (l : list A) : list A :=
  firstn i l ++ skipn (S i) l.

Definition insert_at {A} (i : nat) (x : A) (l : list A) : list A :=
  firstn i l ++ x :: skipn i l.

(** Modelled from the spec: [jnp.moveaxis] (sections 4.4 and 6): the
    dimension at position [source] moves to position [destination], the
    others keep their order; no item changes. *)
Definition moveaxis {V} (a : ndarray V) (source destination : Z)
    : result (ndarray V) :=
  s <- normalize_axis source (ndim a) ;;
  d <- normalize_axis destination (ndim a) ;;
  OK (mk_ndarray
        (insert_at d (nth s (shape a) 0) (remove_at s (shape a)))
        (fun idx => item a (insert_at s (nth d idx 0) (remove_at d idx)))).

(** The slice of an array at index [i] of its leading axis. *)
Definition unstack {V} (i : nat) (a : ndarray V) : ndarray V :=
  mk_ndarray (tail (shape a)) (fun idx => item a (i :: idx)).

(** Whether the leading axis of an array exists and has size [n]. *)
Definition has_leading {V} (n : nat) (a : ndarray V) : bool :=
  match shape a with
  | m :: _ => m =? n
  | [] => false
  end.

(** The arrays of a returned value, and whether it is a tuple. *)
Definition outs {V} (v : pyval V) : list (ndarray V) :=
  match v with
  | Arr a => [a]
  | Tup l => l
  end.

Definition is_tup {V} (v : pyval V) : bool :=
  match v with
  | Arr _ => false
  | Tup _ => true
  end.

(** Two returned values that can be stacked: the same form, and arrays
    of the same shapes. *)
Definition same_form {V} (r0 r : pyval V) : bool :=
  eqb (is_tup r0) (is_tup r)
  && bool_decide (map shape (outs r0) = map shape (outs r)).

(** The array at position [j] of what a call returned. *)
Definition out_nth {V} (j : nat) (dflt : ndarray V) (r : result (pyval V))
    : ndarray V :=
  match r with
  | OK v => nth j (outs v) dflt
  | Raise _ => dflt
  end.

(** The outputs at the indices of the leading axis, stacked along a new
    leading axis of size [n]; [r0] gives the form and the shapes. *)
Definition restack {V} (n : nat) (r0 : pyval V)
    (at_index : nat -> result (pyval V)) : pyval V :=
  let stacked j a0 :=
    mk_ndarray (n :: shape a0)
      (fun idx => item (out_nth j a0 (at_index (hd 0 idx))) (tl idx)) in
  match r0 with
  | Arr a0 => Arr (stacked 0 a0)
  | Tup l0 => Tup (imap stacked l0)
  end.

(** [f] applied at each of the given indices of the leading axis: every
    application has to return, and to return what can be stacked. *)
Fixpoint check_slices {V} (f : list (ndarray V) -> result (pyval V))
    (r0 : pyval V) (args : list (ndarray V)) (indices : list nat)
    : result unit :=
  match indices with
  | [] => OK tt
  | i :: rest =>
      r <- f (map (unstack i) args) ;;
      if same_form r0 r then check_slices f r0 args rest
      else Raise StackError
  end.

(** Modelled from the spec: [jax.vmap] with its default axes (sections
    4.5 and 6): [vmap f] takes arguments with one more leading axis than
    [f], of one common size, applies [f] independently at each index of
    that axis to all arguments at once, and puts the axis back in front
    of every output. The form of the outputs (one array or a tuple, and
    their shapes) is the one [f] gives on slices of the arguments. *)
Definition vmap {V} (f : list (ndarray V) -> result (pyval V))
    (args : list (ndarray V)) : result (pyval V) :=
  match args with
  | [] => Raise BatchAxisError
  | a :: _ =>
      match shape a with
      | [] => Raise BatchAxisError
      | n :: _ =>
          if forallb (has_leading n) args
          then
            let at_index i := f (map (unstack i) args) in
            r0 <- at_index 0 ;;
            _ <- check_slices f r0 args (seq 0 n) ;;
            OK (restack n r0 at_index)
          else Raise BatchAxisError
      end
  end.

(** ** The core function of the example [center] *)

Section Center.

Context {V : Type}.

(** The arithmetic on items, [jnp.mean] of a sequence of items and the
    difference of two items, is not interpreted. *)
Variable mean : list V -> V.
Variable sub : V -> V -> V.

(** All index tuples of a shape, in row-major order. *)
Fixpoint indices (s : list nat) : list (list nat) :=
  match s with
  | [] => [[]]
  | n :: s' => flat_map (fun i => map (cons i) (indices s')) (seq 0 n)
  end.

(** The items of an array, in row-major order. *)
Definition elements (a : ndarray V) : list V :=
  map (item a) (indices (shape a)).

(** Modelled from the spec: [jnp.mean(array)], the mean of all items, an
    array of rank 0 (section 8, "bias = mean of the input"). *)
Definition jnp_mean (a : ndarray V) : ndarray V :=
  mk_ndarray [] (fun _ => mean (elements a)).

(** Modelled from the spec: [a - b] on arrays, item by item after
    broadcasting both to their common shape (sections 3 and 8). *)
Definition jnp_subtract (a b : ndarray V) : result (ndarray V) :=
  match broadcast_pair (shape a) (shape b) with
  | Some r =>
      OK (mk_ndarray r
            (fun idx => sub (item a (source_index (shape a) idx))
                            (item b (source_index (shape b) idx))))
  | None => Raise (BroadcastError [shape a; shape b])
  end.

(** [center], the function under the decorator. *)
Definition center (args : list (ndarray V)) : result (pyval V) :=
  match args with
  | [array] =>
      let bias := jnp_mean array in
      debiased <- jnp_subtract array bias ;;
      OK (Tup [bias; debiased])
  | _ => Raise (ArityMismatch 1 (length args))
  end.

End Center.

(** ** Copied from [numpy.lib.function_base]: dimension sizes *)

Section Resolver.

Context {V : Type}.

(** The loop of [_update_dim_sizes] over [zip(core_dims, core_shape)];
    the dictionary updated in place is threaded through. *)
Fixpoint update_loop (dim_sizes : gmap (list N) nat)
    (pairs : list (list N * nat)) : result (gmap (list N) nat) :=
  match pairs with
  | [] => OK dim_sizes
  | (dim, size) :: rest =>
      match dim_sizes !! dim with
      | Some old =>
          if size =? old then update_loop dim_sizes rest
          else Raise (InconsistentDimension dim size old)
      | None => update_loop (<[dim := size]> dim_sizes) rest
      end
  end.

Definition _update_dim_sizes (dim_sizes : gmap (list N) nat)
    (arg : ndarray V) (core_dims : list str)
    : result (gmap (list N) nat) :=
  match core_dims with
  | [] => OK dim_sizes
  | _ :: _ =>
      let num_core_dims := length core_dims in
      if ndim arg <? num_core_dims
      then Raise (InsufficientRank (ndim arg) core_dims)
      else
        let core_shape :=
          slice_from (- Z.of_nat num_core_dims) (shape arg) in
        update_loop dim_sizes (zip core_dims core_shape)
  end.

(** The loop of [_parse_input_dimensions] over [zip(args,
    input_core_dims)]; [broadcast_args] collects the shapes of the dummy
    arrays. *)
Fixpoint parse_loop (broadcast_args : list (list nat))
    (dim_sizes : gmap (list N) nat)
    (l : list (ndarray V * list str))
    : result (list (list nat) * gmap (list N) nat) :=
  match l with
  | [] => OK (broadcast_args, dim_sizes)
  | (arg, core_dims) :: rest =>
      dim_sizes' <- _update_dim_sizes dim_sizes arg core_dims ;;
      let ndim := (Z.of_nat (ndim arg) - Z.of_nat (length core_dims))%Z in
      let dummy_array := slice_to ndim (shape arg) in
      parse_loop (broadcast_args ++ [dummy_array]) dim_sizes' rest
  end.

Definition _parse_input_dimensions (args : list (ndarray V))
    (input_core_dims : list (list str))
    : result (list nat * gmap (list N) nat) :=
  r <- parse_loop [] ∅ (zip args input_core_dims) ;;
  broadcast_shape <- _broadcast_shape (fst r) ;;
  OK (broadcast_shape, snd r).

Definition _calculate_shapes (broadcast_shape : list nat)
    (dim_sizes : gmap (list N) nat) (list_of_core_dims : list (list str))
    : result (list (list nat)) :=
  mapM (fun core_dims =>
          sizes <- mapM (fun dim => match dim_sizes !! dim with
                                    | Some n => OK n
                                    | None => Raise (KeyError dim)
                                    end) core_dims ;;
          OK (broadcast_shape ++ sizes))
       list_of_core_dims.

Definition broadcast_with_core_dims (args : list (ndarray V))
    (input_core_dims output_core_dims : list (list str))
    : result (list (ndarray V)) :=
  if negb (length args =? length input_core_dims)
  then Raise (ArityMismatch (length input_core_dims) (length args))
  else
    r <- _parse_input_dimensions args input_core_dims ;;
    input_shapes <- _calculate_shapes (fst r) (snd r) input_core_dims ;;
    mapM (fun p => broadcast_to (fst p) (snd p)) (zip args input_shapes).

(** ** Handle the [axis] argument *)

(** The two nested loops leave the set of all names in [all_core_dims]
    and, in [core_dims], the last group visited, if any. *)
Definition collect_core_dims (input_core_dims output_core_dims : list (list str))
    : gset (list N) * option (list str) :=
  foldl (fun st input_or_output_core_dims =>
           foldl (fun st' core_dims =>
                    (fst st' ∪ list_to_set core_dims, Some core_dims))
                 st input_or_output_core_dims)
        (∅, None) [input_core_dims; output_core_dims].

Definition verify_axis_is_supported
    (input_core_dims output_core_dims : list (list str)) : result unit :=
  let st := collect_core_dims input_core_dims output_core_dims in
  match snd st with
  | None => Raise UnboundLocalError
  | Some core_dims =>
      if 1 <? length core_dims then Raise AxisNotSupported else OK tt
  end.

Definition reorder_inputs (args : list (ndarray V)) (axis : Z)
    (input_core_dims : list (list str)) : result (list (ndarray V)) :=
  mapM (fun p => match snd p with
                 | _ :: _ => moveaxis (fst p) axis (-1)
                 | [] => OK (fst p)
                 end)
       (zip args input_core_dims).

Definition reorder_outputs (res : pyval V) (axis : Z)
    (output_core_dims : list (list str)) : result (pyval V) :=
  let result := match res with
                | Tup l => l
                | Arr a => [a]
                end in
  result <- mapM (fun p => match snd p with
                           | _ :: _ => moveaxis (fst p) (-1) axis
                           | [] => OK (fst p)
                           end)
                 (zip result output_core_dims) ;;
  OK match result with
     | [res] => Arr res
     | _ => Tup result
     end.

(** ** Core implementation *)

(** The function returned by [vectorize(signature)(func)], for the core
    dimensions parsed from the signature. *)
Definition wrapper (input_core_dims output_core_dims : list (list str))
    (func : list (ndarray V) -> result (pyval V))
    (args : list (ndarray V)) (axis : option Z) : result (pyval V) :=
  args <- match axis with
          | Some ax =>
              _ <- verify_axis_is_supported input_core_dims
                     output_core_dims ;;
              reorder_inputs args ax input_core_dims
          | None => OK args
          end ;;
  broadcast_args <- broadcast_with_core_dims args input_core_dims
                      output_core_dims ;;
  num_batch_dims <- match broadcast_args, input_core_dims with
                    | a :: _, c :: _ =>
                        OK (Z.of_nat (length (shape a))
                            - Z.of_nat (length c))%Z
                    | _, _ => Raise IndexError
                    end ;;
  let vectorized_func := Nat.iter (Z.to_nat num_batch_dims) vmap func in
  result <- vectorized_func broadcast_args ;;
  match axis with
  | Some ax => reorder_outputs result ax output_core_dims
  | None => OK result
  end.

End Resolver.

Section Vectorize.

Context {V : Type}.
Variable unicode_alnum : N -> bool.

(** [vectorize(signature)]: the signature is parsed here, before the
    decorator exists; the decorator and the wrapper it returns are the
    partial applications of the function obtained. *)
Definition vectorize (signature : str)
    : result ((list (ndarray V) -> result (pyval V)) ->
              list (ndarray V) -> option Z -> result (pyval V)) :=
  parsed <- _parse_gufunc_signature unicode_alnum signature ;;
  match parsed with
  | [input_core_dims; output_core_dims] =>
      OK (fun func args axis =>
            wrapper input_core_dims output_core_dims func args axis)
  | _ => Raise (UnpackError (length parsed))
  end.

(** A call of [vectorize(signature)(func)] on [args] with [axis]. *)
Definition vectorize_call (signature : str)
    (func : list (ndarray V) -> result (pyval V))
    (args : list (ndarray V)) (axis : option Z) : result (pyval V) :=
  wrapped <- vectorize signature ;;
  wrapped func args axis.

End Vectorize.

(** ** What a regular expression denotes *)

Module ReSem.
Import Re.

Section Den.

Variable unicode_alnum : N -> bool.

(** [Den r i p t]: at position [i] of a subject that continues with
    [p ++ t], the expression [r] can match exactly [p]. *)
Inductive Den : regex -> nat -> str -> str -> Prop :=
| DLit c i t : Den (Lit c) i [c] t
| DWord c i t : is_word unicode_alnum c = true -> Den Word i [c] t
| DCat r1 r2 i p1 p2 t :
    Den r1 i p1 (p2 ++ t) -> Den r2 (i + length p1) p2 t ->
    Den (Cat r1 r2) i (p1 ++ p2) t
| DOptNone r i t : Den (Opt r) i [] t
| DOptSome r i p t : Den r i p t -> Den (Opt r) i p t
| DStarNil r i t : Den (Star r) i [] t
| DStarCons r i p1 p2 t :
    Den r i p1 (p2 ++ t) -> p1 <> [] ->
    Den (Star r) (i + length p1) p2 t ->
    Den (Star r) i (p1 ++ p2) t
| DBol t : Den Bol 0 [] t
| DEolEnd i : Den Eol i [] []
| DEolNewline i : Den Eol i [] [10%N].

(** Expressions without [^] and [$] match the same strings everywhere. *)
Fixpoint anchor_free (r : regex) : bool :=
  match r with
  | Lit _ | Word => true
  | Cat r1 r2 => anchor_free r1 && anchor_free r2
  | Opt r' | Star r' => anchor_free r'
  | Bol | Eol => false
  end.

(** [Lang r Q]: wherever it is tried, [r] matches exactly the strings
    that satisfy [Q]. *)
Definition Lang (r : regex) (Q : str -> Prop) : Prop :=
  forall i p t, Den r i p t <-> Q p.

End Den.

End ReSem.

(** ** The grammar of signatures, as section 6 of the specification writes it *)

Section Grammar.

(** [join sep pieces] is [sep.join(pieces)] for a one-character [sep]. *)
Fixpoint join (sep : N) (pieces : list str) : str :=
  match pieces with
  | [] => []
  | [p] => p
  | p :: rest => p ++ sep :: join sep rest
  end.

(** [group := "(" [name ("," name)*] ")"] *)
Definition render_group (g : list str) : str :=
  chr "(" :: join (chr ",") g ++ [chr ")"].

(** [groups := group ("," group)*] *)
Definition render_groups (gs : list (list str)) : str :=
  join (chr ",") (map render_group gs).

(** [signature := groups "->" groups] *)
Definition render_signature (ins outs : list (list str)) : str :=
  render_groups ins ++ py "->" ++ render_groups outs.

(** A name is one or more characters of the class [wordc]. *)
Definition is_name (wordc : N -> bool) (w : str) : Prop :=
  w <> [] /\ Forall (fun c => wordc c = true) w.

(** The groups of one side: at least one group, each a list of names. *)
Definition is_groups (wordc : N -> bool) (gs : list (list str)) : Prop :=
  gs <> [] /\ Forall (Forall (is_name wordc)) gs.

(** [name := [A-Za-z0-9_]+]: the strings of the grammar of section 6. *)
Definition SpecGrammar (s : str) : Prop :=
  exists ins outs,
    is_groups Re.ascii_word ins /\ is_groups Re.ascii_word outs /\
    s = render_signature ins outs.

(** The strings the pattern [_SIGNATURE] accepts: names are made of the
    characters of [\w], and one newline may follow the signature. *)
Definition Accepted (unicode_alnum : N -> bool) (s : str)
    (ins outs : list (list str)) : Prop :=
  is_groups (Re.is_word unicode_alnum) ins /\
  is_groups (Re.is_word unicode_alnum) outs /\
  (s = render_signature ins outs \/
   s = render_signature ins outs ++ [10%N]).

(** The number of positions of [s] at which [sep] occurs. *)
Fixpoint occurrences (sep s : str) : nat :=
  match s with
  | [] => 0
  | _ :: s' => (if startswith sep s then 1 else 0) + occurrences sep s'
  end.

End Grammar.

(** ** Notions about the parser *)

Section ParserNotions.

Variable unicode_alnum : N -> bool.

(** The scan of [findall] from position [i], where [s] is the rest of
    the subject. *)
Definition findall_at (r : Re.regex) (i : nat) (s : str) : list str :=
  Re.findall_from unicode_alnum (S (length s)) r i s.

(** A string that does not start with a character of [\w]. *)
Definition no_word_start (t : str) : Prop :=
  match t with
  | [] => True
  | c :: _ => Re.is_word unicode_alnum c = false
  end.

(** The characters of a rendered list of groups. *)
Definition group_char (c : N) : Prop :=
  Re.is_word unicode_alnum c = true \/
  c = chr "," \/ c = chr "(" \/ c = chr ")".

End ParserNotions.

(** ** Notions about the resolver *)

Section ResolverNotions.

Context {V : Type}.

(** The core shape of an argument: its trailing [k] entries, for [k]
    declared names. *)
Definition core_shape_of (arg : ndarray V) (core_dims : list str)
    : list nat :=
  skipn (ndim arg - length core_dims) (shape arg).

(** The prefix shape: the entries before the core shape. *)
Definition prefix_shape_of (arg : ndarray V) (core_dims : list str)
    : list nat :=
  firstn (ndim arg - length core_dims) (shape arg).

(** The names of all arguments with the sizes they are paired with, in
    the order of the walk. *)
Definition core_pairs (l : list (ndarray V * list str))
    : list (list N * nat) :=
  concat (map (fun p => zip (snd p) (core_shape_of (fst p) (snd p))) l).

(** Every argument has at least as many dimensions as declared names. *)
Definition ranks_ok (l : list (ndarray V * list str)) : Prop :=
  Forall (fun p => length (snd p) <= ndim (fst p)) l.

(** No name is paired with two sizes. *)
Definition consistent (pairs : list (list N * nat)) : Prop :=
  forall d s1 s2, In (d, s1) pairs -> In (d, s2) pairs -> s1 = s2.

(** The prefix shapes of all arguments. *)
Definition prefixes (l : list (ndarray V * list str)) : list (list nat) :=
  map (fun p => prefix_shape_of (fst p) (snd p)) l.

(** The shape an argument is broadcast to. *)
Definition target_shape (P : list nat) (p : ndarray V * list str)
    : list nat :=
  P ++ core_shape_of (fst p) (snd p).

End ResolverNotions.

(** ** Notions about broadcasting *)

(** The entry of a shape at position [i] counted from the right, where an
    absent entry counts as 1. *)
Definition rdim (s : list nat) (i : nat) : nat := nth i (rev s) 1.

(** The standard broadcast of any number of shapes, aligned on the right:
    the result is as long as the longest shape; at each position every
    shape has the entry of the result or 1 (or none); and the result has
    1 there unless some shape has another entry. *)
Definition Broadcasts (shapes : list (list nat)) (R : list nat) : Prop :=
  length R = list_max (map length shapes) /\
  forall i,
    (forall s, In s shapes -> rdim s i = rdim R i \/ rdim s i = 1) /\
    (rdim R i = 1 \/ exists s, In s shapes /\ rdim s i = rdim R i).

(** Shapes that are compatible pair by pair: aligned on the right, the
    two entries at a position are equal, or one of them is 1 or absent. *)
Definition Compatible (shapes : list (list nat)) : Prop :=
  forall s1 s2, In s1 shapes -> In s2 shapes ->
    forall i, rdim s1 i = rdim s2 i \/ rdim s1 i = 1 \/ rdim s2 i = 1.

(** The same on reversed shapes. *)
Definition BroadcastsRev (L : list (list nat)) (r : list nat) : Prop :=
  length r = list_max (map length L) /\
  forall i,
    (forall s, In s L -> nth i s 1 = nth i r 1 \/ nth i s 1 = 1) /\
    (nth i r 1 = 1 \/ exists s, In s L /\ nth i s 1 = nth i r 1).

(** One step of the fold of the pairwise rule, on reversed shapes and
    on shapes. *)
Definition step_rev (acc : option (list nat)) (s : list nat)
    : option (list nat) :=
  match acc with
  | Some r => broadcast_rev r s
  | None => None
  end.

Definition step_pair (acc : option (list nat)) (s : list nat)
    : option (list nat) :=
  match acc with
  | Some r => broadcast_pair r s
  | None => None
  end.

(** ** Notions about batching *)

Section BatchNotions.

Context {V : Type}.

(** The slice of an array at the index tuple [p] of its leading axes. *)
Definition slice_at (p : list nat) (a : ndarray V) : ndarray V :=
  mk_ndarray (skipn (length p) (shape a)) (fun idx => item a (p ++ idx)).

(** An index tuple within the shape [P]. *)
Definition in_bounds (p P : list nat) : Prop := Forall2 lt p P.

(** [res] holds, at the index [p] of its leading axes [P], the value
    [r]: the same form, and for each output an array of shape [P]
    followed by the shape of the corresponding array of [r], whose items
    under [p] are those of that array. *)
Definition at_index (P p : list nat) (res r : pyval V) : Prop :=
  is_tup res = is_tup r /\
  Forall2 (fun a b => shape a = P ++ shape b /\
                      forall idx, item a (p ++ idx) = item b idx)
          (outs res) (outs r).

End BatchNotions.

(** The convention for the outputs of a function with the declared
    output groups [ocd]: one bare array when exactly one group is
    declared, else a tuple with one array per group; [shapes] are the
    shapes of the arrays, in order. *)
Definition returns_as {V} (ocd : list (list str)) (shapes : list (list nat))
    (v : pyval V) : Prop :=
  is_tup v = negb (length ocd =? 1) /\
  length (outs v) = length ocd /\
  map shape (outs v) = shapes.

(** A table of [\w] in which no code point outside ASCII is a word
    character. *)
Definition no_unicode : N -> bool := fun _ => false.

(** ** Arrays and core functions of the examples *)

(** [arange(6).reshape((2, 3))] *)
Definition arange_2_3 : ndarray Z :=
  mk_ndarray [2; 3]
    (fun idx => match idx with
                | [i; j] => Z.of_nat (3 * i + j)
                | _ => 0%Z
                end).

(** Arrays of ones, of shapes [(1, 3)], [(3,)] and [(4,)], and a
    scalar. *)
Definition ones_1_3 : ndarray Z := mk_ndarray [1; 3] (fun _ => 1%Z).

Definition ones_3 : ndarray Z := mk_ndarray [3] (fun _ => 1%Z).

Definition ones_4 : ndarray Z := mk_ndarray [4] (fun _ => 1%Z).

Definition scalar_0 : ndarray Z := mk_ndarray [] (fun _ => 0%Z).

(** The matrix of the notebook, [arange(12).reshape((3, 4))], with
    rational items, and the arithmetic of rationals. *)
Definition arange_3_4 : ndarray Q :=
  mk_ndarray [3; 4]
    (fun idx => match idx with
                | [i; j] => inject_Z (Z.of_nat (4 * i + j))
                | _ => 0%Q
                end).

Definition Qmean (l : list Q) : Q :=
  Qred (fold_right Qplus 0%Q l / inject_Z (Z.of_nat (length l))).

Definition Qsub (x y : Q) : Q := Qred (x - y).

(** The sum of the items of a vector of three integers. *)
Definition sum3 (args : list (ndarray Z)) : result (pyval Z) :=
  match args with
  | [x] => OK (Arr (mk_ndarray []
                      (fun _ => Z.add (Z.add (item x [0]) (item x [1]))
                                      (item x [2]))))
  | _ => Raise (ArityMismatch 1 (length args))
  end.

(** A core function that returns its first argument. *)
Definition first_arg {V} (args : list (ndarray V)) : result (pyval V) :=
  match args with
  | a :: _ => OK (Arr a)
  | [] => Raise IndexError
  end.

(** A core function that returns a constant scalar. *)
Definition const_scalar (args : list (ndarray Z)) : result (pyval Z) :=
  OK (Arr scalar_0).

(** A core function that returns a constant array of shape [(2, 3)]. *)
Definition const_2_3 (args : list (ndarray Z)) : result (pyval Z) :=
  OK (Arr (mk_ndarray [2; 3] (fun _ => 0%Z))).


(** [jnp.mean] as a core function, for any arithmetic of the items. *)
Definition mean_core {V} (mean : list V -> V) (args : list (ndarray V))
    : result (pyval V) :=
  match args with
  | [a] => OK (Arr (jnp_mean mean a))
  | _ => Raise (ArityMismatch 1 (length args))
  end.

(** [jnp.dot] on arrays of rank 1 or 2 whose items carry no information:
    only the shape of the product is left. *)
Definition dot_shape (args : list (ndarray unit)) : result (pyval unit) :=
  match args with
  | [a; b] =>
      OK (Arr (mk_ndarray (removelast (shape a) ++ tail (shape b))
                          (fun _ => tt)))
  | _ => Raise (ArityMismatch 2 (length args))
  end.

(** [np.zeros(shape)] for such items. *)
Definition zeros (s : list nat) : ndarray unit := mk_ndarray s (fun _ => tt).

(** The shapes of the arrays a call returns. *)
Definition shapes_of {V} (r : result (pyval V)) : result (list (list nat)) :=
  v <- r ;; OK (map shape (outs v)).

(** * Part II: properties *)

(** ** The assertions of the notebook *)

Section Notebook.

Variable unicode_alnum : N -> bool.

Let matmat := vectorize_call unicode_alnum (py "(n,m),(m,k)->(n,k)") dot_shape.
Let matvec := vectorize_call unicode_alnum (py "(n,m),(m)->(n)") dot_shape.
Let vecvec := vectorize_call unicode_alnum (py "(m),(m)->()") dot_shape.

Example matmat_shapes :
  shapes_of (matmat [zeros [2; 3]; zeros [3; 4]] None) = OK [[2; 4]] /\
  shapes_of (matmat [zeros [2; 3]; zeros [1; 3; 4]] None) = OK [[1; 2; 4]] /\
  shapes_of (matmat [zeros [5; 2; 3]; zeros [1; 3; 4]] None)
  = OK [[5; 2; 4]] /\
  shapes_of (matmat [zeros [6; 5; 2; 3]; zeros [3; 4]] None)
  = OK [[6; 5; 2; 4]].
Proof. repeat split; vm_compute; reflexivity. Qed.

Example matvec_shapes :
  shapes_of (matvec [zeros [2; 3]; zeros [3]] None) = OK [[2]] /\
  shapes_of (matvec [zeros [2; 3]; zeros [1; 3]] None) = OK [[1; 2]] /\
  shapes_of (matvec [zeros [4; 2; 3]; zeros [1; 3]] None) = OK [[4; 2]] /\
  shapes_of (matvec [zeros [5; 4; 2; 3]; zeros [1; 3]] None)
  = OK [[5; 4; 2]].
Proof. repeat split; vm_compute; reflexivity. Qed.

Example vecvec_shapes :
  shapes_of (vecvec [zeros [3]; zeros [3]] None) = OK [[]] /\
  shapes_of (vecvec [zeros [2; 3]; zeros [3]] None) = OK [[2]] /\
  shapes_of (vecvec [zeros [4; 2; 3]; zeros [3]] None) = OK [[4; 2]].
Proof. repeat split; vm_compute; reflexivity. Qed.

Example mean_shapes (V : Type) (mean : list V -> V) (g : list nat -> V) :
  let mean_ := vectorize_call unicode_alnum (py "(n)->()") (mean_core mean) in
  shapes_of (mean_ [mk_ndarray [3] g] None) = OK [[]] /\
  shapes_of (mean_ [mk_ndarray [2; 3] g] None) = OK [[2]] /\
  shapes_of (mean_ [mk_ndarray [2; 3] g] (Some 0%Z)) = OK [[3]] /\
  shapes_of (mean_ [mk_ndarray [1; 2; 3; 4] g] None) = OK [[1; 2; 3]].
Proof. repeat split; vm_compute; reflexivity. Qed.

End Notebook.

(** ** The matcher and the denotation agree *)

Module ReFacts.
Import Re ReSem.

Section Facts.

Variable unicode_alnum : N -> bool.
Local Abbreviation Den := (Den unicode_alnum).
Local Abbreviation run := (run unicode_alnum).
Local Abbreviation is_word := (is_word unicode_alnum).
Local Abbreviation Lang := (ReSem.Lang unicode_alnum).

Lemma star_loop_sound (A : Type) (r : regex)
    (IH : forall i s (k : nat -> str -> option A) x,
        run A r i s k = Some x ->
        exists p t, s = p ++ t /\ Den r i p t /\ k (i + length p) t = Some x)
    (k : nat -> str -> option A) fuel :
  forall i s x,
    star_loop A (run A r) k fuel i s = Some x ->
    exists p t, s = p ++ t /\ Den (Star r) i p t /\
                k (i + length p) t = Some x.
Proof.
  induction fuel as [|fuel IHf]; intros i s x H; simpl in H.
  - exists [], s. rewrite Nat.add_0_r. repeat split; auto. constructor.
  - destruct (run A r i s _) as [y|] eqn:E.
    + inversion H; subst y; clear H.
      apply IH in E. destruct E as (p1 & t1 & -> & HD & Hk).
      destruct (i <? i + length p1) eqn:Elt; [|discriminate].
      apply Nat.ltb_lt in Elt.
      apply IHf in Hk. destruct Hk as (p2 & t & -> & HD2 & Hk).
      exists (p1 ++ p2), t. rewrite <- app_assoc. split; [reflexivity|].
      split.
      * apply DStarCons; auto. destruct p1; simpl in *; [lia|discriminate].
      * rewrite length_app, Nat.add_assoc. exact Hk.
    + exists [], s. rewrite Nat.add_0_r. repeat split; auto. constructor.
Qed.

Lemma run_sound (A : Type) (r : regex) :
  forall i s (k : nat -> str -> option A) x,
    run A r i s k = Some x ->
    exists p t, s = p ++ t /\ Den r i p t /\ k (i + length p) t = Some x.
Proof.
  induction r as [c| |r1 IH1 r2 IH2|r IH|r IH| |]; intros i s k x H;
    simpl in H.
  - destruct s as [|c' s']; [discriminate|].
    destruct (c =? c')%N eqn:E; [|discriminate].
    apply N.eqb_eq in E; subst c'.
    exists [c], s'. simpl. rewrite Nat.add_1_r. repeat split; auto.
    constructor.
  - destruct s as [|c' s']; [discriminate|].
    destruct (is_word c') eqn:E; [|discriminate].
    exists [c'], s'. simpl. rewrite Nat.add_1_r. repeat split; auto.
    constructor; auto.
  - apply IH1 in H. destruct H as (p1 & t1 & -> & HD1 & H).
    apply IH2 in H. destruct H as (p2 & t & -> & HD2 & H).
    exists (p1 ++ p2), t. rewrite <- app_assoc. split; [reflexivity|].
    split; [constructor; auto|].
    rewrite length_app, Nat.add_assoc. exact H.
  - destruct (run A r i s k) as [y|] eqn:E.
    + inversion H; subst y. apply IH in E.
      destruct E as (p & t & -> & HD & Hk).
      exists p, t. repeat split; auto. apply DOptSome; auto.
    + exists [], s. rewrite Nat.add_0_r. repeat split; auto. constructor.
  - eapply star_loop_sound; eauto.
  - destruct (i =? 0) eqn:E; [|discriminate].
    apply Nat.eqb_eq in E; subst i.
    exists [], s. repeat split; auto. constructor.
  - destruct s as [|c [|c2 s2]].
    + exists [], []. rewrite Nat.add_0_r. repeat split; auto. constructor.
    + destruct (c =? 10)%N eqn:E; [|discriminate].
      apply N.eqb_eq in E; subst c.
      exists [], [10%N]. rewrite Nat.add_0_r. repeat split; auto.
      constructor.
    + discriminate.
Qed.

Lemma star_loop_complete (A : Type) (r : regex)
    (IH : forall i p t, Den r i p t ->
        forall (k : nat -> str -> option A) x,
          k (i + length p) t = Some x ->
          exists y, run A r i (p ++ t) k = Some y) :
  forall r0 i p t, Den r0 i p t -> r0 = Star r ->
    forall (k : nat -> str -> option A) x fuel,
      length (p ++ t) <= fuel ->
      k (i + length p) t = Some x ->
      exists y, star_loop A (run A r) k fuel i (p ++ t) = Some y.
Proof.
  induction 1 as [| | | | | r' i t | r' i p1 p2 t HD1 _ Hne HD2 IH2 | | |];
    intros Hr k x fuel Hfuel Hk; try discriminate.
  - inversion Hr; subst r'. simpl in *. rewrite Nat.add_0_r in Hk.
    destruct fuel; simpl.
    + eauto.
    + destruct (run A r i t _); eauto.
  - inversion Hr; subst r'. clear Hr.
    destruct fuel as [|fuel].
    { rewrite !length_app in Hfuel. destruct p1; simpl in *; [congruence|lia]. }
    simpl.
    assert (Hlt : (i <? i + length p1) = true).
    { apply Nat.ltb_lt. destruct p1; simpl; [congruence|lia]. }
    rewrite length_app, Nat.add_assoc in Hk.
    destruct (IH2 eq_refl k x fuel) as [y Hy]; auto.
    { rewrite !length_app in *. destruct p1; simpl in *; [congruence|lia]. }
    rewrite <- app_assoc.
    destruct (IH i p1 (p2 ++ t) HD1
                (fun j t0 => if i <? j then star_loop A (run A r) k fuel j t0
                             else None) y) as [z Hz].
    { rewrite Hlt. exact Hy. }
    rewrite Hz. eauto.
Qed.

Lemma run_complete (A : Type) (r : regex) :
  forall i p t, Den r i p t ->
    forall (k : nat -> str -> option A) x,
      k (i + length p) t = Some x ->
      exists y, run A r i (p ++ t) k = Some y.
Proof.
  induction r as [c| |r1 IH1 r2 IH2|r IH|r IH| |]; intros i p t HD k x Hk.
  - inversion HD; subst. simpl. rewrite N.eqb_refl.
    rewrite Nat.add_1_r in Hk. eauto.
  - inversion HD as [|c' i' t' Hw| | | | | | | |]; subst. simpl. rewrite Hw.
    rewrite Nat.add_1_r in Hk. eauto.
  - inversion HD as [| |r1' r2' i' p1 p2 t' HD1 HD2| | | | | | |]; subst.
    simpl. rewrite length_app, Nat.add_assoc in Hk.
    destruct (IH2 _ _ _ HD2 k x Hk) as [y Hy].
    rewrite <- app_assoc.
    eapply IH1; eauto.
  - inversion HD as [| | | |r' i' p' t' HD'| | | | |]; subst; simpl.
    + rewrite Nat.add_0_r in Hk. destruct (run A r i t k); eauto.
    + destruct (IH _ _ _ HD' k x Hk) as [y Hy]. rewrite Hy. eauto.
  - simpl. eapply star_loop_complete; eauto.
  - inversion HD; subst. simpl. eauto.
  - inversion HD; subst; simpl in *; rewrite Nat.add_0_r in Hk; eauto.
Qed.

(** A match found by the matcher consumes a prefix of the subject. *)
Lemma run_end (r : regex) i s j :
  run nat r i s (fun j _ => Some j) = Some j ->
  exists p t, s = p ++ t /\ j = i + length p /\ Den r i p t.
Proof.
  intros H. apply run_sound in H. destruct H as (p & t & -> & HD & Hk).
  inversion Hk. eauto.
Qed.

Lemma den_anchor_free r i p t :
  Den r i p t -> anchor_free r = true -> forall i' t', Den r i' p t'.
Proof.
  induction 1; simpl; intros Haf i' t'; try discriminate;
    try (apply andb_true_iff in Haf; destruct Haf);
    try (constructor; auto; fail).
Qed.

(** *** Languages of expressions without anchors *)

Lemma lang_ext r (Q Q' : str -> Prop) :
  Lang r Q -> (forall p, Q p <-> Q' p) -> Lang r Q'.
Proof. intros H HQ i p t. rewrite <- HQ. apply H. Qed.

Lemma lang_lit c : Lang (Lit c) (fun p => p = [c]).
Proof.
  intros i p t; split.
  - inversion 1; reflexivity.
  - intros ->. constructor.
Qed.

Lemma lang_word : Lang Word (fun p => exists c, p = [c] /\ is_word c = true).
Proof.
  intros i p t; split.
  - inversion 1; subst; eauto.
  - intros (c & -> & H). constructor; auto.
Qed.

Lemma lang_cat r1 r2 Q1 Q2 :
  Lang r1 Q1 -> Lang r2 Q2 ->
  Lang (Cat r1 r2)
       (fun p => exists p1 p2, p = p1 ++ p2 /\ Q1 p1 /\ Q2 p2).
Proof.
  intros H1 H2 i p t; split.
  - inversion 1 as [| |r1' r2' i' p1 p2 t' HD1 HD2| | | | | | |]; subst.
    exists p1, p2. split; [reflexivity|].
    split; [eapply H1; eauto | eapply H2; eauto].
  - intros (p1 & p2 & -> & HQ1 & HQ2).
    constructor; [apply H1 | apply H2]; auto.
Qed.

Lemma lang_opt r Q : Lang r Q -> Lang (Opt r) (fun p => p = [] \/ Q p).
Proof.
  intros H i p t; split.
  - inversion 1; subst; [left; reflexivity | right; eapply H; eauto].
  - intros [-> | HQ]; [apply DOptNone | apply DOptSome, H; auto].
Qed.

Lemma lang_star r Q :
  Lang r Q ->
  Lang (Star r)
       (fun p => exists pieces,
            Forall (fun q => Q q /\ q <> []) pieces /\ p = concat pieces).
Proof.
  intros H i p t; split.
  - intros HD. remember (Star r) as r0 eqn:Hr0.
    induction HD as [| | | | | r' i t | r' i p1 p2 t HD1 _ Hne HD2 IH2 | | |];
      try discriminate; inversion Hr0; subst r'.
    + exists []. split; [constructor | reflexivity].
    + destruct (IH2 eq_refl) as (pieces & HF & ->).
      exists (p1 :: pieces). split; [|reflexivity].
      constructor; auto. split; auto. eapply H; eauto.
  - intros (pieces & HF & ->). revert i.
    induction HF as [|q pieces [HQ Hne] HF IH]; intros i; simpl.
    + constructor.
    + apply DStarCons; auto. apply H; auto.
Qed.

End Facts.

(** *** Strings joined by a separator *)

Lemma join_cons (c : N) (p : str) (l : list str) :
  l <> [] -> join c (p :: l) = p ++ c :: join c l.
Proof. destruct l; [congruence | reflexivity]. Qed.

Lemma join_seplist (Q : str -> Prop) (c : N) (p : str) :
  (exists p1 p2, p = p1 ++ p2 /\ Q p1 /\
     exists pieces,
       Forall (fun q => (exists a b, q = a ++ b /\ a = [c] /\ Q b)
                        /\ q <> []) pieces /\
       p2 = concat pieces)
  <-> exists l, l <> [] /\ Forall Q l /\ p = join c l.
Proof.
  split.
  - intros (p1 & p2 & -> & HQ1 & pieces & HF & ->).
    revert p1 HQ1. induction HF as [|q pieces [(a & b & -> & -> & HQb) _] HF IH];
      intros p1 HQ1.
    + exists [p1]. simpl. rewrite app_nil_r.
      split; [congruence|]. split; [auto | reflexivity].
    + destruct (IH b HQb) as (l & Hl & HFl & Hjoin).
      exists (p1 :: l). split; [congruence|]. split; [constructor; auto|].
      rewrite join_cons by auto. simpl. rewrite <- Hjoin. reflexivity.
  - intros (l & Hl & HF & ->).
    induction HF as [|p1 l HQ1 HF IH]; [congruence|].
    destruct l as [|p2 l'].
    + exists p1, []. simpl. rewrite app_nil_r.
      split; [reflexivity|]. split; [auto|].
      exists []. split; [constructor | reflexivity].
    + destruct IH as (q1 & q2 & Hq & HQq & pieces & HFp & ->); [congruence|].
      rewrite join_cons by congruence.
      exists p1, (c :: join c (p2 :: l')).
      split; [reflexivity|]. split; [auto|].
      exists ((c :: q1) :: pieces). split.
      * constructor; auto. split; [|congruence].
        exists [c], q1. auto.
      * rewrite Hq. reflexivity.
Qed.

End ReFacts.

(** ** The patterns of the signature parser *)

Section ParserFacts.

Import Re ReSem ReFacts.

Variable unicode_alnum : N -> bool.
Local Abbreviation wordc := (is_word unicode_alnum).
Local Abbreviation name := (is_name (is_word unicode_alnum)).

Lemma concat_singletons (p : str) : concat (map (fun c => [c]) p) = p.
Proof. induction p; simpl; congruence. Qed.

Lemma lang_name : Lang unicode_alnum _DIMENSION_NAME name.
Proof.
  eapply lang_ext;
    [apply (lang_cat _ _ _ _ _ (lang_word _) (lang_star _ _ _ (lang_word _)))|].
  intros p; split.
  - intros (p1 & p2 & -> & (c & -> & Hc) & pieces & HF & ->).
    split; [discriminate|]. constructor; auto.
    induction HF as [|q pieces [(c' & -> & Hc') _] HF IH]; simpl; auto.
  - intros [Hne HF]. destruct p as [|c p]; [congruence|].
    inversion HF; subst.
    exists [c], p. split; [reflexivity|]. split; [eauto|].
    exists (map (fun c => [c]) p). split; [|symmetry; apply concat_singletons].
    apply Forall_map. eapply Forall_impl; [eassumption|].
    intros a Ha. simpl. split; [eauto | discriminate].
Qed.

Lemma lang_core_dimension_list :
  Lang unicode_alnum _CORE_DIMENSION_LIST
       (fun p => exists g, Forall name g /\ p = join (chr ",") g).
Proof.
  eapply lang_ext.
  { apply lang_opt, lang_cat; [apply lang_name|].
    apply lang_star, lang_cat; [apply lang_lit | apply lang_name]. }
  intros p. simpl. rewrite join_seplist. split.
  - intros [-> | (l & _ & HF & ->)]; [exists []; auto | eauto].
  - intros (g & HF & ->). destruct g as [|w g]; [left; reflexivity|].
    right. exists (w :: g). split; [congruence | auto].
Qed.

Lemma lang_argument :
  Lang unicode_alnum _ARGUMENT
       (fun p => exists g, Forall name g /\ p = render_group g).
Proof.
  eapply lang_ext.
  { apply lang_cat; [apply lang_lit|].
    apply lang_cat; [apply lang_core_dimension_list | apply lang_lit]. }
  intros p. simpl. split.
  - intros (p1 & p2 & -> & -> & q1 & q2 & -> & (g & HF & ->) & ->). eauto.
  - intros (g & HF & ->). exists [chr "("], (join (chr ",") g ++ [chr ")"]).
    split; [reflexivity|]. split; [reflexivity|].
    exists (join (chr ",") g), [chr ")"]. eauto.
Qed.

Lemma groups_of_pieces (l : list str) :
  Forall (fun q => exists g, Forall name g /\ q = render_group g) l ->
  exists gs, Forall (Forall name) gs /\ l = map render_group gs.
Proof.
  induction 1 as [|q l (g & HF & ->) _ (gs & HFs & ->)].
  - exists []. split; [constructor | reflexivity].
  - exists (g :: gs). split; [constructor; auto | reflexivity].
Qed.

Lemma lang_argument_list :
  Lang unicode_alnum _ARGUMENT_LIST
       (fun p => exists gs, is_groups wordc gs /\ p = render_groups gs).
Proof.
  eapply lang_ext.
  { apply lang_cat; [apply lang_argument|].
    apply lang_star, lang_cat; [apply lang_lit | apply lang_argument]. }
  intros p. simpl. rewrite join_seplist. split.
  - intros (l & Hl & HF & ->).
    destruct (groups_of_pieces l HF) as (gs & HFs & ->).
    exists gs. split; [|reflexivity]. split; [|assumption].
    destruct gs; [simpl in Hl|]; congruence.
  - intros (gs & [Hne HF] & ->). exists (map render_group gs).
    split; [destruct gs; simpl; congruence|]. split; [|reflexivity].
    apply Forall_map. eapply Forall_impl; [eassumption|]. simpl. eauto.
Qed.

(** The whole pattern: anchored at position 0, and ending at the end of
    the subject or before a newline that ends it. *)
Lemma den_signature i p t :
  Den unicode_alnum _SIGNATURE i p t <->
  i = 0 /\ (t = [] \/ t = [10%N]) /\
  exists ins outs, is_groups wordc ins /\ is_groups wordc outs /\
                   p = render_signature ins outs.
Proof.
  unfold _SIGNATURE. split.
  - intros H.
    inversion H as [| |? ? ? p0 p1 ? H0 H1| | | | | | |]; subst; clear H.
    inversion H0; subst; clear H0. simpl in H1.
    inversion H1 as [| |? ? ? p2 p3 ? H2 H3| | | | | | |]; subst; clear H1.
    inversion H3 as [| |? ? ? p4 p5 ? H4 H5| | | | | | |]; subst; clear H3.
    inversion H4; subst; clear H4.
    inversion H5 as [| |? ? ? p6 p7 ? H6 H7| | | | | | |]; subst; clear H5.
    inversion H6; subst; clear H6.
    inversion H7 as [| |? ? ? p8 p9 ? H8 H9| | | | | | |]; subst; clear H7.
    apply lang_argument_list in H2. destruct H2 as (ins & Hins & ->).
    apply lang_argument_list in H8. destruct H8 as (outs & Houts & ->).
    split; [reflexivity|].
    inversion H9; subst; (split; [auto|]); exists ins, outs;
      (split; [auto|]); (split; [auto|]);
      unfold render_signature; simpl; rewrite app_nil_r; reflexivity.
  - intros (-> & Ht & ins & outs & Hins & Houts & ->).
    unfold render_signature.
    apply (DCat _ Bol _ 0 [] _ t); [constructor|]. simpl.
    constructor; [apply lang_argument_list; eauto|].
    apply (DCat _ (Lit _) _ _ [chr "-"] _ t); [constructor|].
    apply (DCat _ (Lit _) _ _ [chr ">"] _ t); [constructor|].
    rewrite <- (app_nil_r (render_groups outs)).
    constructor; [apply lang_argument_list; eauto|].
    destruct Ht as [-> | ->]; constructor.
Qed.

(** [re.match(_SIGNATURE, s)] finds a match exactly on the accepted
    strings. *)
Lemma re_match_signature (s : str) :
  (exists j, re_match unicode_alnum _SIGNATURE s = Some j) <->
  exists ins outs, Accepted unicode_alnum s ins outs.
Proof.
  unfold re_match, Accepted. split.
  - intros [j H]. apply run_end in H.
    destruct H as (p & t & -> & _ & HD). apply den_signature in HD.
    destruct HD as (_ & Ht & ins & outs & Hins & Houts & ->).
    exists ins, outs. split; [auto|]. split; [auto|].
    destruct Ht as [-> | ->]; [left; apply app_nil_r | right; reflexivity].
  - intros (ins & outs & Hins & Houts & Hs).
    assert (HD : exists t, s = render_signature ins outs ++ t /\
                   Den unicode_alnum _SIGNATURE 0
                       (render_signature ins outs) t).
    { destruct Hs as [-> | ->]; [exists [] | exists [10%N]];
        (split; [rewrite ?app_nil_r; reflexivity|]);
        apply den_signature; repeat split; eauto. }
    destruct HD as (t & -> & HD).
    destruct (run_complete unicode_alnum nat _ _ _ _ HD
                (fun j _ => Some j) _ eq_refl) as [y Hy].
    eauto.
Qed.

(** *** [findall] *)

Local Abbreviation k_end := (fun (j : nat) (_ : str) => Some j).

Lemma findall_from_fuel (r : regex) (n : nat) :
  forall s, length s <= n -> forall f1 f2 i,
    length s < f1 -> length s < f2 ->
    findall_from unicode_alnum f1 r i s = findall_from unicode_alnum f2 r i s.
Proof.
  induction n as [|n IH]; intros s Hn f1 f2 i H1 H2;
    (destruct f1 as [|f1]; [lia|]); (destruct f2 as [|f2]; [lia|]); simpl.
  - destruct s; [|simpl in Hn; lia].
    destruct (run unicode_alnum nat r i [] k_end) as [j|] eqn:E; auto.
    apply run_end in E. destruct E as (p & t & Hs & -> & _).
    symmetry in Hs. apply app_eq_nil in Hs. destruct Hs as [-> ->].
    simpl. rewrite Nat.add_0_r, Nat.ltb_irrefl. reflexivity.
  - destruct (run unicode_alnum nat r i s k_end) as [j|] eqn:E.
    + apply run_end in E. destruct E as (p & t & -> & -> & _).
      destruct p as [|c p].
      * simpl. rewrite Nat.add_0_r, Nat.ltb_irrefl.
        destruct t as [|c t]; auto. f_equal.
        apply IH; simpl in *; lia.
      * assert (Hlt : (i <? i + length (c :: p)) = true)
          by (apply Nat.ltb_lt; simpl; lia).
        rewrite Hlt. f_equal.
        replace (i + length (c :: p) - i) with (length (c :: p)) by lia.
        rewrite skipn_app, skipn_all, Nat.sub_diag, skipn_O. simpl.
        rewrite length_app in *. simpl in *.
        apply IH; lia.
    + destruct s as [|c s]; auto. apply IH; simpl in *; lia.
Qed.

Lemma findall_at_nil r i :
  run unicode_alnum nat r i [] k_end = None -> findall_at unicode_alnum r i [] = [].
Proof. intros H. unfold findall_at. simpl. rewrite H. reflexivity. Qed.

Lemma findall_at_skip r i c s :
  run unicode_alnum nat r i (c :: s) k_end = None ->
  findall_at unicode_alnum r i (c :: s) = findall_at unicode_alnum r (S i) s.
Proof. intros H. unfold findall_at. simpl. rewrite H. reflexivity. Qed.

Lemma findall_at_match r i p t :
  run unicode_alnum nat r i (p ++ t) k_end = Some (i + length p) ->
  p <> [] ->
  findall_at unicode_alnum r i (p ++ t) = p :: findall_at unicode_alnum r (i + length p) t.
Proof.
  intros H Hne. unfold findall_at.
  change (findall_from unicode_alnum (S (length (p ++ t))) r i (p ++ t))
    with (match run unicode_alnum nat r i (p ++ t) k_end with
          | Some j =>
              if i <? j
              then firstn (j - i) (p ++ t)
                   :: findall_from unicode_alnum (length (p ++ t)) r j
                        (skipn (j - i) (p ++ t))
              else [] :: match p ++ t with
                         | [] => []
                         | _ :: s' =>
                             findall_from unicode_alnum (length (p ++ t))
                               r (S i) s'
                         end
          | None =>
              match p ++ t with
              | [] => []
              | _ :: s' =>
                  findall_from unicode_alnum (length (p ++ t)) r (S i) s'
              end
          end).
  rewrite H.
  assert (Hlen : 0 < length p) by (destruct p; simpl; [congruence|lia]).
  assert (Hlt : (i <? i + length p) = true) by (apply Nat.ltb_lt; lia).
  rewrite Hlt. replace (i + length p - i) with (length p) by lia.
  rewrite firstn_app, firstn_all, Nat.sub_diag, skipn_app, skipn_all,
    Nat.sub_diag, firstn_O, skipn_O. cbn [app]. rewrite app_nil_r. f_equal.
  apply (findall_from_fuel r (length t)); rewrite ?length_app; lia.
Qed.

(** *** Names are matched greedily *)

Lemma star_word_greedy (t : str) (Ht : no_word_start unicode_alnum t) :
  forall w, Forall (fun c => wordc c = true) w ->
    forall fuel i, length (w ++ t) <= fuel ->
      star_loop nat (run unicode_alnum nat Word) k_end fuel i (w ++ t)
      = Some (i + length w).
Proof.
  induction 1 as [|c w Hc HF IH]; intros fuel i Hfuel; simpl.
  - rewrite Nat.add_0_r. destruct fuel; simpl; [reflexivity|].
    destruct t as [|c t]; [reflexivity|]. simpl in Ht. rewrite Ht.
    reflexivity.
  - destruct fuel as [|fuel]; [simpl in Hfuel; lia|].
    simpl. rewrite Hc.
    assert (Hlt : (i <? S i) = true) by (apply Nat.ltb_lt; lia).
    rewrite Hlt, IH by (simpl in Hfuel; lia).
    f_equal. lia.
Qed.

Lemma run_name_greedy (w t : str) i :
  name w -> no_word_start unicode_alnum t ->
  run unicode_alnum nat _DIMENSION_NAME i (w ++ t) k_end
  = Some (i + length w).
Proof.
  intros [Hne HF] Ht. destruct w as [|c w]; [congruence|].
  inversion HF; subst. simpl.
  match goal with H : wordc c = true |- _ => rewrite H end.
  rewrite star_word_greedy by auto. f_equal. lia.
Qed.

Lemma run_name_none c s i :
  wordc c = false ->
  run unicode_alnum nat _DIMENSION_NAME i (c :: s) k_end = None.
Proof. intros H. simpl. rewrite H. reflexivity. Qed.

Lemma findall_names_join (g : list str) :
  Forall name g -> forall t i, no_word_start unicode_alnum t ->
    exists i', findall_at unicode_alnum _DIMENSION_NAME i (join (chr ",") g ++ t)
               = g ++ findall_at unicode_alnum _DIMENSION_NAME i' t.
Proof.
  induction 1 as [|w g Hw HF IH]; intros t i Ht.
  - exists i. reflexivity.
  - destruct g as [|w' g'].
    + exists (i + length w). simpl.
      rewrite findall_at_match; [reflexivity| |apply Hw].
      apply run_name_greedy; auto.
    + rewrite join_cons by congruence.
      rewrite <- app_assoc. cbn [app].
      rewrite findall_at_match; [| |apply Hw].
      2:{ apply run_name_greedy; auto. reflexivity. }
      rewrite findall_at_skip by (apply run_name_none; reflexivity).
      destruct (IH t (S (i + length w)) Ht) as [i' Hi'].
      exists i'. rewrite Hi'. reflexivity.
Qed.

Lemma findall_names_group (g : list str) :
  Forall name g -> findall unicode_alnum _DIMENSION_NAME (render_group g) = g.
Proof.
  intros HF. change (findall_at unicode_alnum _DIMENSION_NAME 0 (render_group g) = g).
  unfold render_group.
  rewrite findall_at_skip by (apply run_name_none; reflexivity).
  destruct (findall_names_join g HF [chr ")"] 1) as [i' ->]; [reflexivity|].
  rewrite findall_at_skip by (apply run_name_none; reflexivity).
  rewrite findall_at_nil by reflexivity. apply app_nil_r.
Qed.

(** *** Arguments are matched one group at a time *)

Lemma app_cut (c : N) (p p' t t' : str) :
  p ++ c :: t = p' ++ c :: t' -> ~ In c p -> ~ In c p' -> p = p' /\ t = t'.
Proof.
  revert p'. induction p as [|a p IH]; intros [|a' p'] H Hp Hp'; simpl in *.
  - inversion H; auto.
  - inversion H; subst. exfalso; auto.
  - inversion H; subst. exfalso; auto.
  - inversion H; subst. destruct (IH p') as [-> ->]; auto.
Qed.

Lemma join_names_chars (g : list str) :
  Forall name g ->
  Forall (fun c => wordc c = true \/ c = chr ",") (join (chr ",") g).
Proof.
  induction 1 as [|w g [_ Hw] HF IH]; [constructor|].
  destruct g as [|w' g'].
  - simpl. eapply Forall_impl; [eassumption|]. simpl. auto.
  - rewrite join_cons by congruence. apply Forall_app. split.
    + eapply Forall_impl; [eassumption|]. simpl. auto.
    + constructor; auto.
Qed.

Lemma render_group_prefix (g g' : list str) (t t' : str) :
  Forall name g -> Forall name g' ->
  render_group g ++ t = render_group g' ++ t' ->
  render_group g = render_group g' /\ t = t'.
Proof.
  intros HF HF' H. unfold render_group in *. simpl in H.
  rewrite <- !app_assoc in H. simpl in H. inversion H as [H'].
  assert (Hno : forall g0, Forall name g0 ->
                           ~ In (chr ")") (join (chr ",") g0)).
  { intros g0 H0 Hin. apply join_names_chars in H0.
    rewrite List.Forall_forall in H0. destruct (H0 _ Hin) as [Hc | Hc];
      discriminate. }
  apply app_cut in H'; auto. destruct H' as [-> ->]. auto.
Qed.

Lemma run_argument_group (g : list str) (t : str) i :
  Forall name g ->
  run unicode_alnum nat _ARGUMENT i (render_group g ++ t) k_end
  = Some (i + length (render_group g)).
Proof.
  intros HF.
  assert (HD : Den unicode_alnum _ARGUMENT i (render_group g) t)
    by (apply lang_argument; eauto).
  destruct (run_complete unicode_alnum nat _ _ _ _ HD k_end _ eq_refl)
    as [y Hy].
  rewrite Hy. apply run_end in Hy.
  destruct Hy as (p & t' & Hs & -> & HD').
  apply lang_argument in HD'. destruct HD' as (g' & HF' & ->).
  apply render_group_prefix in Hs; auto. destruct Hs as [-> _]. reflexivity.
Qed.

Lemma run_cat_lit (A : Type) c' r i c s (k : nat -> str -> option A) :
  run unicode_alnum A (Cat (Lit c') r) i (c :: s) k
  = if (c' =? c)%N then run unicode_alnum A r (S i) s k else None.
Proof. reflexivity. Qed.

Lemma run_argument_none c s i :
  c <> chr "(" ->
  run unicode_alnum nat _ARGUMENT i (c :: s) k_end = None.
Proof.
  intros H. unfold _ARGUMENT. rewrite run_cat_lit.
  destruct (chr "(" =? c)%N eqn:E; [|reflexivity].
  apply N.eqb_eq in E. congruence.
Qed.

Lemma findall_arguments (gs : list (list str)) (t : str) :
  is_groups wordc gs -> t = [] \/ t = [10%N] ->
  findall unicode_alnum _ARGUMENT (render_groups gs ++ t)
  = map render_group gs.
Proof.
  intros [Hne HF] Ht.
  change (findall_at unicode_alnum _ARGUMENT 0 (render_groups gs ++ t)
          = map render_group gs).
  generalize 0 as i. clear Hne.
  assert (Htail : forall i, findall_at unicode_alnum _ARGUMENT i t = []).
  { intros i. destruct Ht as [-> | ->].
    - apply findall_at_nil. reflexivity.
    - rewrite findall_at_skip by (apply run_argument_none; discriminate).
      apply findall_at_nil. reflexivity. }
  unfold render_groups.
  induction HF as [|g gs Hg HF IH]; intros i; [apply Htail|].
  destruct gs as [|g' gs'].
  - cbn [map join]. rewrite findall_at_match;
      [|apply run_argument_group; auto|discriminate].
    rewrite Htail. reflexivity.
  - cbn [map]. rewrite join_cons by discriminate.
    rewrite <- app_assoc. cbn [app].
    rewrite findall_at_match;
      [|apply run_argument_group; auto|discriminate].
    rewrite findall_at_skip by (apply run_argument_none; discriminate).
    f_equal. apply IH.
Qed.

(** *** The characters of a rendered signature *)

Lemma render_group_chars (g : list str) :
  Forall name g -> Forall (group_char unicode_alnum) (render_group g).
Proof.
  intros HF. unfold render_group, group_char. constructor; [auto|].
  apply Forall_app. split.
  - eapply Forall_impl; [apply join_names_chars; auto|].
    simpl. intros c [H | H]; auto.
  - constructor; auto.
Qed.

Lemma render_groups_chars (gs : list (list str)) :
  Forall (Forall name) gs -> Forall (group_char unicode_alnum) (render_groups gs).
Proof.
  unfold render_groups.
  induction 1 as [|g gs Hg HF IH]; [constructor|].
  destruct gs as [|g' gs'].
  - cbn [map join]. apply render_group_chars; auto.
  - cbn [map]. rewrite join_cons by discriminate.
    apply Forall_app. split; [apply render_group_chars; auto|].
    constructor; [unfold group_char; auto | apply IH].
Qed.

Lemma group_char_no_dash (p : str) :
  Forall (group_char unicode_alnum) p -> Forall (fun c => c <> chr "-") p.
Proof.
  intros H. eapply Forall_impl; [eassumption|]. simpl.
  intros c [Hc | [Hc | [Hc | Hc]]] ->; discriminate.
Qed.

Lemma render_signature_chars ins outs :
  is_groups wordc ins -> is_groups wordc outs ->
  Forall (fun c => group_char unicode_alnum c \/ c = chr "-" \/ c = chr ">")
         (render_signature ins outs).
Proof.
  intros [_ Hins] [_ Houts]. unfold render_signature.
  apply Forall_app. split.
  - eapply Forall_impl; [apply render_groups_chars; eassumption|].
    simpl; auto.
  - constructor; [auto|]. constructor; [auto|].
    eapply Forall_impl; [apply render_groups_chars; eassumption|].
    simpl; auto.
Qed.

(** *** [split] on the arrow *)

Lemma split_go_cons (sep : str) (acc : str) c (s : str) :
  split_go sep 0 acc (c :: s)
  = if startswith sep (c :: s)
    then rev acc :: split_go sep (length sep - 1) [] s
    else split_go sep 0 (c :: acc) s.
Proof. reflexivity. Qed.

Lemma startswith_arrow_no_dash c (s : str) :
  c <> chr "-" -> startswith (py "->") (c :: s) = false.
Proof.
  intros H. cbn [py startswith map list_ascii_of_string].
  destruct (N_of_ascii "-" =? c)%N eqn:E; [|reflexivity].
  apply N.eqb_eq in E. exfalso. apply H. symmetry. exact E.
Qed.

Lemma split_go_no_dash (p : str) :
  Forall (fun c => c <> chr "-") p ->
  forall acc rest,
    split_go (py "->") 0 acc (p ++ rest)
    = split_go (py "->") 0 (rev p ++ acc) rest.
Proof.
  induction 1 as [|c p Hc HF IH]; intros acc rest; [reflexivity|].
  cbn [app]. rewrite split_go_cons, startswith_arrow_no_dash by auto.
  rewrite IH. cbn [rev]. rewrite <- app_assoc. reflexivity.
Qed.

Lemma split_arrow (a b : str) :
  Forall (fun c => c <> chr "-") a -> Forall (fun c => c <> chr "-") b ->
  split (py "->") (a ++ py "->" ++ b) = [a; b].
Proof.
  intros Ha Hb. unfold split. rewrite split_go_no_dash by auto.
  rewrite app_nil_r.
  change (py "->" ++ b) with (chr "-" :: chr ">" :: b).
  rewrite split_go_cons.
  change (startswith (py "->") (chr "-" :: chr ">" :: b)) with true.
  cbn iota. rewrite rev_involutive. f_equal.
  change (split_go (py "->") 0 [] b = [b]).
  rewrite <- (app_nil_r b) at 1. rewrite split_go_no_dash by auto.
  rewrite app_nil_r. cbn [split_go]. rewrite rev_involutive. reflexivity.
Qed.

Lemma occurrences_no_dash (p : str) :
  Forall (fun c => c <> chr "-") p ->
  forall rest, occurrences (py "->") (p ++ rest)
               = occurrences (py "->") rest.
Proof.
  induction 1 as [|c p Hc HF IH]; intros rest; [reflexivity|].
  cbn [app occurrences]. rewrite startswith_arrow_no_dash by auto.
  apply IH.
Qed.

Lemma occurrences_arrow (a b : str) :
  Forall (fun c => c <> chr "-") a -> Forall (fun c => c <> chr "-") b ->
  occurrences (py "->") (a ++ py "->" ++ b) = 1.
Proof.
  intros Ha Hb. rewrite occurrences_no_dash by auto.
  change (py "->" ++ b) with (chr "-" :: chr ">" :: b).
  cbn [occurrences].
  change (startswith (py "->") (chr "-" :: chr ">" :: b)) with true.
  rewrite startswith_arrow_no_dash by discriminate.
  rewrite <- (app_nil_r b), occurrences_no_dash by auto. reflexivity.
Qed.

(** *** The parser on accepted strings *)

Lemma accepted_sides s ins outs :
  Accepted unicode_alnum s ins outs ->
  exists t, (t = [] \/ t = [10%N]) /\
            s = render_groups ins ++ py "->" ++ (render_groups outs ++ t) /\
            Forall (fun c => c <> chr "-") (render_groups ins) /\
            Forall (fun c => c <> chr "-") (render_groups outs ++ t).
Proof.
  intros ([_ Hins] & [_ Houts] & Hs).
  assert (Hi := group_char_no_dash _ (render_groups_chars _ Hins)).
  assert (Ho := group_char_no_dash _ (render_groups_chars _ Houts)).
  unfold render_signature in Hs.
  destruct Hs as [-> | ->]; [exists [] | exists [10%N]].
  - rewrite app_nil_r. auto.
  - rewrite <- !app_assoc. split; [auto|]. split; [reflexivity|].
    split; [auto|]. apply Forall_app. split; [auto|].
    constructor; [discriminate | constructor].
Qed.

Lemma parse_accepted s ins outs :
  Accepted unicode_alnum s ins outs ->
  _parse_gufunc_signature unicode_alnum s = OK [ins; outs].
Proof.
  intros Hacc. unfold _parse_gufunc_signature.
  destruct (proj2 (re_match_signature s)) as [j ->]; [eauto|].
  destruct (accepted_sides _ _ _ Hacc) as (t & Ht & -> & Hi & Ho).
  destruct Hacc as (Hins & Houts & _).
  rewrite split_arrow by auto. cbn [map].
  rewrite <- (app_nil_r (render_groups ins)) at 1.
  rewrite !findall_arguments by auto.
  rewrite !map_map.
  rewrite (map_ext_Forall _ id), map_id.
  2:{ destruct Hins as [_ H]. eapply Forall_impl; [exact H|].
      intros g Hg. apply findall_names_group; auto. }
  rewrite (map_ext_Forall _ id), map_id.
  2:{ destruct Houts as [_ H]. eapply Forall_impl; [exact H|].
      intros g Hg. apply findall_names_group; auto. }
  reflexivity.
Qed.

Lemma parse_ok_inv s r :
  _parse_gufunc_signature unicode_alnum s = OK r ->
  exists ins outs, r = [ins; outs] /\ Accepted unicode_alnum s ins outs.
Proof.
  intros H.
  assert (Hm : exists j, re_match unicode_alnum _SIGNATURE s = Some j).
  { unfold _parse_gufunc_signature in H.
    destruct (re_match unicode_alnum _SIGNATURE s); [eauto | discriminate]. }
  apply re_match_signature in Hm. destruct Hm as (ins & outs & Hacc).
  exists ins, outs. split; [|assumption].
  rewrite (parse_accepted _ _ _ Hacc) in H. congruence.
Qed.

Lemma parse_raise_inv s e :
  _parse_gufunc_signature unicode_alnum s = Raise e ->
  e = InvalidSignature s /\
  ~ exists ins outs, Accepted unicode_alnum s ins outs.
Proof.
  intros H. unfold _parse_gufunc_signature in H.
  destruct (re_match unicode_alnum _SIGNATURE s) as [j|] eqn:E;
    [discriminate|].
  split; [congruence|]. intros Hacc.
  apply re_match_signature in Hacc. destruct Hacc as [j Hj]. congruence.
Qed.

Lemma accepted_one_arrow s ins outs :
  Accepted unicode_alnum s ins outs -> occurrences (py "->") s = 1.
Proof.
  intros Hacc.
  destruct (accepted_sides _ _ _ Hacc) as (t & _ & -> & Hi & Ho).
  apply occurrences_arrow; auto.
Qed.

Lemma accepted_split s ins outs :
  Accepted unicode_alnum s ins outs ->
  exists t, (t = [] \/ t = [10%N]) /\
    split (py "->") s = [render_groups ins; render_groups outs ++ t].
Proof.
  intros Hacc.
  destruct (accepted_sides _ _ _ Hacc) as (t & Ht & -> & Hi & Ho).
  exists t. split; [assumption|]. apply split_arrow; auto.
Qed.

End ParserFacts.

(** ** The signature grammar *)

Section GrammarFacts.

Import Re.

Lemma ascii_word_lt c : ascii_word c = true -> (c < 128)%N.
Proof.
  unfold ascii_word.
  rewrite !orb_true_iff, !andb_true_iff, !N.leb_le, N.eqb_eq. lia.
Qed.

Lemma ascii_word_is_word (unicode_alnum : N -> bool) c :
  ascii_word c = true -> is_word unicode_alnum c = true.
Proof.
  intros H. unfold is_word.
  apply ascii_word_lt in H as Hlt. apply N.ltb_lt in Hlt.
  rewrite Hlt. exact H.
Qed.

Lemma is_groups_mono (w1 w2 : N -> bool) gs :
  (forall c, w1 c = true -> w2 c = true) ->
  is_groups w1 gs -> is_groups w2 gs.
Proof.
  intros Hw [Hne HF]. split; [assumption|].
  eapply Forall_impl; [eassumption|]. intros g Hg.
  eapply Forall_impl; [eassumption|]. intros w [Hw1 Hw2].
  split; [assumption|].
  eapply Forall_impl; [eassumption|]. auto.
Qed.

(** Every string of the grammar of section 6 is accepted, with the
    groups it was written from. *)
Lemma spec_grammar_accepted (unicode_alnum : N -> bool) s :
  SpecGrammar s -> exists ins outs, Accepted unicode_alnum s ins outs.
Proof.
  intros (ins & outs & Hins & Houts & ->). exists ins, outs.
  split; [|split; [|left; reflexivity]].
  - eapply is_groups_mono; [|exact Hins]. apply ascii_word_is_word.
  - eapply is_groups_mono; [|exact Houts]. apply ascii_word_is_word.
Qed.

(** No string of the grammar holds a newline. *)
Lemma spec_grammar_no_newline s : SpecGrammar s -> ~ In 10%N s.
Proof.
  intros (ins & outs & Hins & Houts & ->) Hin.
  assert (H := render_signature_chars no_unicode ins outs
                 (is_groups_mono _ _ _ (ascii_word_is_word no_unicode) Hins)
                 (is_groups_mono _ _ _ (ascii_word_is_word no_unicode) Houts)).
  rewrite List.Forall_forall in H. specialize (H _ Hin).
  destruct H as [[H | [H | [H | H]]] | [H | H]]; discriminate.
Qed.

(** Every character of a string of the grammar is in ASCII. *)
Lemma spec_grammar_ascii s c : SpecGrammar s -> In c s -> (c < 128)%N.
Proof.
  intros (ins & outs & Hins & Houts & ->) Hin.
  assert (H := render_signature_chars no_unicode ins outs
                 (is_groups_mono _ _ _ (ascii_word_is_word no_unicode) Hins)
                 (is_groups_mono _ _ _ (ascii_word_is_word no_unicode) Houts)).
  rewrite List.Forall_forall in H. specialize (H _ Hin).
  destruct H as [[H | [H | [H | H]]] | [H | H]];
    try (subst c; reflexivity).
  unfold is_word, no_unicode in H.
  destruct (c <? 128)%N eqn:E; [apply N.ltb_lt; exact E | discriminate].
Qed.

Lemma vectorize_parse (V : Type) (unicode_alnum : N -> bool) s :
  match _parse_gufunc_signature unicode_alnum s with
  | OK [ins; outs] => @vectorize V unicode_alnum s = OK (wrapper ins outs)
  | OK _ => False
  | Raise e => @vectorize V unicode_alnum s = Raise e
  end.
Proof.
  unfold vectorize.
  destruct (_parse_gufunc_signature unicode_alnum s) as [r|e] eqn:E;
    [|reflexivity].
  apply parse_ok_inv in E. destruct E as (ins & outs & -> & _).
  reflexivity.
Qed.

End GrammarFacts.

(** ** The resolution of dimension sizes *)

Section ResolverFacts.

Context {V : Type}.

Lemma slice_from_neg {A} (k : nat) (l : list A) :
  0 < k -> slice_from (- Z.of_nat k) l = skipn (length l - k) l.
Proof.
  intros Hk. unfold slice_from.
  destruct (- Z.of_nat k <? 0)%Z eqn:E; [|apply Z.ltb_ge in E; lia].
  f_equal. lia.
Qed.

Lemma slice_to_diff {A} (k : nat) (l : list A) :
  k <= length l ->
  slice_to (Z.of_nat (length l) - Z.of_nat k) l = firstn (length l - k) l.
Proof.
  intros Hk. unfold slice_to.
  destruct (Z.of_nat (length l) - Z.of_nat k <? 0)%Z eqn:E;
    [apply Z.ltb_lt in E; lia|].
  f_equal. lia.
Qed.

Lemma prefix_core_shape (arg : ndarray V) core_dims :
  prefix_shape_of arg core_dims ++ core_shape_of arg core_dims = shape arg.
Proof. apply firstn_skipn. Qed.

Lemma length_core_shape (arg : ndarray V) core_dims :
  length core_dims <= ndim arg ->
  length (core_shape_of arg core_dims) = length core_dims.
Proof.
  intros H. unfold core_shape_of, ndim in *. rewrite length_skipn. lia.
Qed.

Lemma update_dim_sizes_ranked ds (arg : ndarray V) core_dims :
  length core_dims <= ndim arg ->
  _update_dim_sizes ds arg core_dims
  = update_loop ds (zip core_dims (core_shape_of arg core_dims)).
Proof.
  intros H. unfold _update_dim_sizes.
  destruct core_dims as [|d rest]; [reflexivity|].
  destruct (ndim arg <? length (d :: rest)) eqn:E;
    [apply Nat.ltb_lt in E; lia|].
  cbv zeta. rewrite slice_from_neg by (simpl; lia). reflexivity.
Qed.

Lemma update_dim_sizes_unranked ds (arg : ndarray V) core_dims :
  ndim arg < length core_dims ->
  _update_dim_sizes ds arg core_dims
  = Raise (InsufficientRank (ndim arg) core_dims).
Proof.
  intros H. unfold _update_dim_sizes.
  destruct core_dims as [|d rest]; [simpl in H; lia|].
  apply Nat.ltb_lt in H. rewrite H. reflexivity.
Qed.

Lemma update_loop_raise ds pairs e :
  update_loop ds pairs = Raise e ->
  exists d size old, e = InconsistentDimension d size old.
Proof.
  revert ds. induction pairs as [|[d size] rest IH]; intros ds H;
    simpl in H; [discriminate|].
  destruct (ds !! d) as [old|].
  - destruct (size =? old); eauto. inversion H; eauto.
  - eauto.
Qed.

Lemma update_loop_app ds l1 l2 :
  update_loop ds (l1 ++ l2)
  = (ds1 <- update_loop ds l1 ;; update_loop ds1 l2).
Proof.
  revert ds. induction l1 as [|[d size] l1 IH]; intros ds; simpl;
    [reflexivity|].
  destruct (ds !! d) as [old|]; [destruct (size =? old)|]; auto.
Qed.

(** What the walk leaves in the dictionary: what was there, and the size
    paired with every name met. *)
Lemma update_loop_ok ds pairs ds' :
  update_loop ds pairs = OK ds' ->
  (forall d v, ds !! d = Some v -> ds' !! d = Some v) /\
  (forall d size, In (d, size) pairs -> ds' !! d = Some size) /\
  (forall d v, ds' !! d = Some v -> ds !! d = Some v \/ In (d, v) pairs).
Proof.
  revert ds. induction pairs as [|[d size] rest IH]; intros ds H;
    simpl in H.
  - inversion H; subst. repeat split; auto. intros d size [].
  - destruct (ds !! d) as [old|] eqn:E.
    + destruct (size =? old) eqn:Es; [|discriminate].
      apply Nat.eqb_eq in Es; subst old.
      destruct (IH _ H) as (H1 & H2 & H3). repeat split; auto.
      * intros d' size' [Heq | Hin]; [inversion Heq; subst; auto | auto].
      * intros d' v Hv. destruct (H3 _ _ Hv); [auto | right; right; auto].
    + destruct (IH _ H) as (H1 & H2 & H3). repeat split.
      * intros d' v Hv. apply H1.
        rewrite lookup_insert_ne; [auto | congruence].
      * intros d' size' [Heq | Hin]; [|auto].
        inversion Heq; subst. apply H1. apply lookup_insert_eq.
      * intros d' v Hv. destruct (H3 _ _ Hv) as [Hi | Hi];
          [|right; right; auto].
        destruct (decide (d = d')) as [-> | Hne].
        -- rewrite lookup_insert_eq in Hi. inversion Hi; subst.
           right; left; reflexivity.
        -- rewrite lookup_insert_ne in Hi by auto. auto.
Qed.

(** A later occurrence with another size stops the walk. *)
Lemma update_loop_conflict ds l1 ds1 d size old l2 :
  update_loop ds l1 = OK ds1 -> ds1 !! d = Some old -> size <> old ->
  update_loop ds (l1 ++ (d, size) :: l2)
  = Raise (InconsistentDimension d size old).
Proof.
  intros H1 Hd Hne. rewrite update_loop_app, H1. simpl. rewrite Hd.
  destruct (size =? old) eqn:E; [apply Nat.eqb_eq in E; congruence|].
  reflexivity.
Qed.

(** Without conflicting sizes the walk goes through. *)
Lemma update_loop_consistent ds pairs :
  consistent pairs ->
  (forall d size v, In (d, size) pairs -> ds !! d = Some v -> v = size) ->
  exists ds', update_loop ds pairs = OK ds'.
Proof.
  revert ds. induction pairs as [|[d size] rest IH]; intros ds Hc Hds;
    simpl; [eauto|].
  assert (Hc' : consistent rest).
  { intros d' s1 s2 H1 H2. apply (Hc d'); right; auto. }
  destruct (ds !! d) as [old|] eqn:E.
  - rewrite (Hds d size old) by (simpl; auto). rewrite Nat.eqb_refl.
    apply IH; auto. intros d' size' v Hin. apply Hds. right; auto.
  - apply IH; auto. intros d' size' v Hin Hv.
    destruct (decide (d = d')) as [-> | Hne].
    + rewrite lookup_insert_eq in Hv. inversion Hv; subst.
      apply (Hc d'); [left; reflexivity | right; auto].
    + rewrite lookup_insert_ne in Hv by auto.
      eapply Hds; [right|]; eauto.
Qed.

Lemma update_loop_consistent_empty pairs :
  consistent pairs -> exists ds, update_loop ∅ pairs = OK ds.
Proof.
  intros Hc. apply update_loop_consistent; [exact Hc|].
  intros d size v _ Hv. rewrite lookup_empty in Hv. discriminate.
Qed.

(** With sufficient ranks the loop over the arguments is the walk over
    all pairs, and collects the prefix shapes. *)
Lemma parse_loop_ranked (l : list (ndarray V * list str)) :
  ranks_ok l -> forall bs ds,
    parse_loop bs ds l
    = (ds' <- update_loop ds (core_pairs l) ;;
       OK (bs ++ map (fun p => prefix_shape_of (fst p) (snd p)) l, ds')).
Proof.
  induction 1 as [|[arg cd] l Hr HF IH]; intros bs ds.
  - simpl. rewrite app_nil_r. reflexivity.
  - simpl in Hr. cbn [parse_loop core_pairs map concat fst snd].
    rewrite update_dim_sizes_ranked by auto.
    rewrite update_loop_app.
    destruct (update_loop ds (zip cd (core_shape_of arg cd))) as [ds1|e];
      [|reflexivity].
    cbn [bind]. rewrite IH. unfold ndim in *.
    rewrite slice_to_diff by auto.
    fold (core_pairs l).
    destruct (update_loop ds1 (core_pairs l)); [|reflexivity].
    cbn [bind]. rewrite <- app_assoc. reflexivity.
Qed.

Lemma parse_loop_app (l1 l2 : list (ndarray V * list str)) :
  forall bs ds,
    parse_loop bs ds (l1 ++ l2)
    = (r <- parse_loop bs ds l1 ;; parse_loop (fst r) (snd r) l2).
Proof.
  induction l1 as [|[arg cd] l1 IH]; intros bs ds; [reflexivity|].
  cbn [app parse_loop].
  destruct (_update_dim_sizes ds arg cd); [|reflexivity].
  cbn [bind]. apply IH.
Qed.

(** The first argument of insufficient rank, after arguments that raise
    nothing, stops the loop. *)
Lemma parse_loop_first_unranked (l1 l2 : list (ndarray V * list str))
    arg cd :
  ranks_ok l1 -> consistent (core_pairs l1) -> ndim arg < length cd ->
  forall bs,
    parse_loop bs ∅ (l1 ++ (arg, cd) :: l2)
    = Raise (InsufficientRank (ndim arg) cd).
Proof.
  intros Hr Hc Hlt bs. rewrite parse_loop_app, (parse_loop_ranked _ Hr).
  destruct (update_loop_consistent_empty _ Hc) as [ds Hds].
  rewrite Hds. cbn [bind fst snd parse_loop].
  rewrite update_dim_sizes_unranked by exact Hlt. reflexivity.
Qed.

Lemma parse_loop_ok_ranks (l : list (ndarray V * list str)) :
  forall bs ds r, parse_loop bs ds l = OK r -> ranks_ok l.
Proof.
  induction l as [|[arg cd] l IH]; intros bs ds r H; [constructor|].
  cbn [parse_loop] in H.
  destruct (Nat.le_gt_cases (length cd) (ndim arg)) as [Hle | Hgt].
  - constructor; [exact Hle|].
    destruct (_update_dim_sizes ds arg cd); [|discriminate].
    cbn [bind] in H. eapply IH; eauto.
  - rewrite update_dim_sizes_unranked in H by auto. discriminate.
Qed.

Lemma parse_loop_rank_error (l : list (ndarray V * list str)) :
  forall bs ds n cd,
    parse_loop bs ds l = Raise (InsufficientRank n cd) ->
    exists arg, In (arg, cd) l /\ ndim arg = n /\ n < length cd.
Proof.
  induction l as [|[arg cd'] l IH]; intros bs ds n cd H;
    cbn [parse_loop] in H; [discriminate|].
  destruct (Nat.le_gt_cases (length cd') (ndim arg)) as [Hle | Hgt].
  - rewrite update_dim_sizes_ranked in H by auto.
    destruct (update_loop ds _) as [ds1|e] eqn:E.
    + cbn [bind] in H. apply IH in H. destruct H as (a & Hin & Ha).
      exists a. split; [right; auto | auto].
    + apply update_loop_raise in E. destruct E as (d & sz & old & ->).
      discriminate.
  - rewrite update_dim_sizes_unranked in H by auto.
    inversion H; subst. exists arg. split; [left; reflexivity | auto].
Qed.

End ResolverFacts.

(** ** Broadcasting *)

Section BroadcastFacts.

Lemma broadcast_rev_length a b r :
  broadcast_rev a b = Some r -> length r = Nat.max (length a) (length b).
Proof.
  revert b r. induction a as [|x a IH]; intros [|y b] r H; simpl in H.
  - inversion H; reflexivity.
  - inversion H; reflexivity.
  - inversion H; simpl; lia.
  - destruct (broadcast_rev a b) as [r'|] eqn:E; [|discriminate].
    apply IH in E.
    destruct (x =? y); [|destruct (x =? 1); [|destruct (y =? 1)]];
      inversion H; subst; simpl; lia.
Qed.

Lemma broadcast_rev_nth a b r :
  broadcast_rev a b = Some r ->
  forall i,
    (nth i a 1 = nth i b 1 /\ nth i r 1 = nth i a 1) \/
    (nth i a 1 = 1 /\ nth i r 1 = nth i b 1) \/
    (nth i b 1 = 1 /\ nth i r 1 = nth i a 1).
Proof.
  revert b r. induction a as [|x a IH]; intros [|y b] r H i; simpl in H.
  - inversion H; subst. destruct i; simpl; auto.
  - inversion H; subst. right; left. destruct i; simpl; auto.
  - inversion H; subst. right; right. destruct i; simpl; auto.
  - destruct (broadcast_rev a b) as [r'|] eqn:E; [|discriminate].
    specialize (IH _ _ E).
    destruct (x =? y) eqn:E1;
      [|destruct (x =? 1) eqn:E2; [|destruct (y =? 1) eqn:E3]];
      inversion H; subst; clear H;
      (destruct i as [|i]; [simpl|apply IH]).
    + apply Nat.eqb_eq in E1. auto.
    + apply Nat.eqb_eq in E2. auto.
    + apply Nat.eqb_eq in E3. auto.
Qed.

Lemma broadcast_rev_some a b :
  (forall i, nth i a 1 = nth i b 1 \/ nth i a 1 = 1 \/ nth i b 1 = 1) ->
  exists r, broadcast_rev a b = Some r.
Proof.
  revert b. induction a as [|x a IH]; intros [|y b] H; simpl; eauto.
  destruct (IH b) as [r ->]; [intros i; apply (H (S i))|].
  specialize (H 0). simpl in H.
  destruct (x =? y) eqn:E1; [eauto|].
  destruct (x =? 1) eqn:E2; [eauto|].
  destruct (y =? 1) eqn:E3; [eauto|].
  apply Nat.eqb_neq in E1, E2, E3. lia.
Qed.

Lemma nth_ext_default (a b : list nat) :
  length a = length b -> (forall i, nth i a 1 = nth i b 1) -> a = b.
Proof.
  revert b. induction a as [|x a IH]; intros [|y b] Hl H; simpl in Hl;
    try discriminate; [reflexivity|].
  f_equal; [apply (H 0) | apply IH; [lia | intros i; apply (H (S i))]].
Qed.

Lemma broadcasts_rev_single r0 r : BroadcastsRev [r0] r <-> r = r0.
Proof.
  split.
  - intros [Hl H]. simpl in Hl. rewrite Nat.max_0_r in Hl.
    apply nth_ext_default; [assumption|]. intros i.
    destruct (H i) as [Ha Hb]. specialize (Ha r0 (or_introl eq_refl)).
    destruct Hb as [Hb | (s & [<- | []] & Hs)]; lia.
  - intros ->. split; [simpl; lia|]. intros i. split.
    + intros s [<- | []]. auto.
    + right. exists r0. simpl; auto.
Qed.

Lemma broadcasts_rev_step r0 s r1 L r :
  broadcast_rev r0 s = Some r1 ->
  BroadcastsRev (r1 :: L) r <-> BroadcastsRev (r0 :: s :: L) r.
Proof.
  intros Hb. assert (Hlen := broadcast_rev_length _ _ _ Hb).
  assert (Hn := broadcast_rev_nth _ _ _ Hb).
  unfold BroadcastsRev. cbn [map list_max fold_right].
  split; intros [Hl H]; (split; [cbn [list_max map fold_right] in *; lia|]);
    intros i; specialize (Hn i); destruct (H i) as [Ha Hx]; split.
  - intros t [<- | [<- | Hin]].
    + specialize (Ha r1 (or_introl eq_refl)). lia.
    + specialize (Ha r1 (or_introl eq_refl)). lia.
    + apply Ha. right; assumption.
  - destruct Hx as [Hx | (t & [<- | Hin] & Ht)]; [auto | |].
    + destruct (Nat.eq_dec (nth i r 1) 1) as [H1 | H1]; [auto|]. right.
      destruct Hn as [[? ?] | [[? ?] | [? ?]]];
        [exists r0 | exists s | exists r0]; simpl; split; auto; lia.
    + right. exists t. simpl; auto.
  - intros t [<- | Hin].
    + pose proof (Ha r0 (or_introl eq_refl)).
      pose proof (Ha s (or_intror (or_introl eq_refl))). lia.
    + apply Ha. right; right; assumption.
  - destruct Hx as [Hx | (t & [<- | [<- | Hin]] & Ht)]; [auto | | |].
    + pose proof (Ha s (or_intror (or_introl eq_refl))).
      destruct (Nat.eq_dec (nth i r 1) 1) as [H1 | H1]; [auto|]. right.
      exists r1. simpl; split; auto. lia.
    + pose proof (Ha r0 (or_introl eq_refl)).
      destruct (Nat.eq_dec (nth i r 1) 1) as [H1 | H1]; [auto|]. right.
      exists r1. simpl; split; auto. lia.
    + right. exists t. simpl; auto.
Qed.

Lemma broadcasts_rev_incompatible r0 s L r :
  broadcast_rev r0 s = None -> ~ BroadcastsRev (r0 :: s :: L) r.
Proof.
  intros Hb [_ H]. destruct (broadcast_rev_some r0 s) as [r' Hr'];
    [|congruence].
  intros i. destruct (H i) as [Ha _].
  pose proof (Ha r0 (or_introl eq_refl)).
  pose proof (Ha s (or_intror (or_introl eq_refl))). lia.
Qed.

Lemma foldl_step_rev_none L : foldl step_rev None L = None.
Proof. induction L; simpl; auto. Qed.

Lemma foldl_step_rev L :
  forall r0 r,
    foldl step_rev (Some r0) L = Some r <-> BroadcastsRev (r0 :: L) r.
Proof.
  induction L as [|s L IH]; intros r0 r.
  - simpl. rewrite broadcasts_rev_single. split; congruence.
  - cbn [foldl step_rev].
    destruct (broadcast_rev r0 s) as [r1|] eqn:E.
    + rewrite IH. apply broadcasts_rev_step; assumption.
    + rewrite foldl_step_rev_none. split; [discriminate|].
      intros H. exfalso. eapply broadcasts_rev_incompatible; eauto.
Qed.

Lemma broadcasts_rev_nil L r :
  BroadcastsRev ([] :: L) r <-> BroadcastsRev L r.
Proof.
  unfold BroadcastsRev. cbn [map list_max fold_right length].
  rewrite Nat.max_0_l.
  split; intros [Hl H]; (split; [exact Hl|]); intros i;
    destruct (H i) as [Ha Hx]; split.
  - intros t Hin. apply Ha. right; assumption.
  - destruct Hx as [Hx | (t & [<- | Hin] & Ht)];
      [auto | left; destruct i; simpl in Ht; auto | right; eauto].
  - intros t [<- | Hin]; [right; destruct i; reflexivity | auto].
  - destruct Hx as [Hx | (t & Hin & Ht)]; [auto|].
    right. exists t. simpl; auto.
Qed.

Lemma foldl_step_pair shapes :
  forall acc,
    option_map (@rev nat) (foldl step_pair acc shapes)
    = foldl step_rev (option_map (@rev nat) acc) (map (@rev nat) shapes).
Proof.
  induction shapes as [|s shapes IH]; intros acc; [reflexivity|].
  cbn [foldl map]. rewrite IH. f_equal.
  destruct acc as [r|]; [|reflexivity]. simpl. unfold broadcast_pair.
  destruct (broadcast_rev (rev r) (rev s)); simpl;
    [rewrite rev_involutive|]; reflexivity.
Qed.

Lemma broadcasts_rev_iff shapes R :
  BroadcastsRev (map (@rev nat) shapes) (rev R) <-> Broadcasts shapes R.
Proof.
  unfold BroadcastsRev, Broadcasts, rdim.
  rewrite length_rev, map_map.
  rewrite (map_ext (fun s => length (rev s)) (@length nat))
    by (intros; apply length_rev).
  split; intros [Hl H]; (split; [exact Hl|]); intros i;
    destruct (H i) as [Ha Hx]; split.
  - intros s Hin. apply Ha. apply in_map; assumption.
  - destruct Hx as [Hx | (t & Hin & Ht)]; [auto|].
    apply in_map_iff in Hin. destruct Hin as (s & <- & Hin). eauto.
  - intros t Hin. apply in_map_iff in Hin.
    destruct Hin as (s & <- & Hin). auto.
  - destruct Hx as [Hx | (s & Hin & Hs)]; [auto|].
    right. exists (rev s). split; [apply in_map; assumption | assumption].
Qed.

Lemma foldl_step_rev_compatible L :
  forall r0,
    (forall s, In s L ->
       forall i, nth i r0 1 = nth i s 1 \/ nth i r0 1 = 1 \/ nth i s 1 = 1) ->
    (forall s1 s2, In s1 L -> In s2 L ->
       forall i, nth i s1 1 = nth i s2 1 \/ nth i s1 1 = 1
                 \/ nth i s2 1 = 1) ->
    exists r, foldl step_rev (Some r0) L = Some r.
Proof.
  induction L as [|s L IH]; intros r0 H0 HL; [simpl; eauto|].
  cbn [foldl step_rev].
  destruct (broadcast_rev_some r0 s) as [r1 Hr1];
    [apply H0; left; reflexivity|].
  rewrite Hr1. apply IH.
  - intros t Ht i.
    pose proof (broadcast_rev_nth _ _ _ Hr1 i) as Hn.
    pose proof (H0 t (or_intror Ht) i) as Ha.
    pose proof (HL s t (or_introl eq_refl) (or_intror Ht) i) as Hb.
    lia.
  - intros s1 s2 H1 H2. apply HL; right; assumption.
Qed.

(** Some shape is the broadcast of the shapes exactly when they are
    compatible pair by pair. *)
Lemma broadcasts_exists shapes :
  (exists R, Broadcasts shapes R) <-> Compatible shapes.
Proof.
  split.
  - intros [R [_ H]] s1 s2 H1 H2 i. destruct (H i) as [Ha _].
    pose proof (Ha s1 H1). pose proof (Ha s2 H2). lia.
  - intros Hc.
    destruct (foldl_step_rev_compatible (map (@rev nat) shapes) [])
      as [r Hr].
    + intros s _ i. right; left. destruct i; reflexivity.
    + intros s1 s2 H1 H2 i. apply in_map_iff in H1, H2.
      destruct H1 as (t1 & <- & H1). destruct H2 as (t2 & <- & H2).
      apply (Hc t1 t2 H1 H2 i).
    + exists (rev r). apply broadcasts_rev_iff. rewrite rev_involutive.
      apply broadcasts_rev_nil. apply foldl_step_rev. exact Hr.
Qed.

(** The fold of the pairwise rule computes the broadcast of all the
    shapes, and fails exactly when there is none. *)
Lemma broadcast_shape_ok shapes R :
  _broadcast_shape shapes = OK R <-> Broadcasts shapes R.
Proof.
  rewrite <- broadcasts_rev_iff, <- broadcasts_rev_nil, <- foldl_step_rev.
  change (Some []) with (option_map (@rev nat) (Some [])).
  rewrite <- foldl_step_pair. unfold _broadcast_shape.
  fold step_pair.
  destruct (foldl step_pair (Some []) shapes) as [r|]; simpl.
  - split; intros H; inversion H; subst; [reflexivity|].
    f_equal. rewrite <- (rev_involutive r), <- (rev_involutive R).
    congruence.
  - split; discriminate.
Qed.

Lemma broadcast_shape_raise shapes e :
  _broadcast_shape shapes = Raise e <->
  e = BroadcastError shapes /\ ~ exists R, Broadcasts shapes R.
Proof.
  split.
  - intros H. split.
    + unfold _broadcast_shape in H.
      destruct (foldl _ _ _); [discriminate | congruence].
    + intros [R HR]. apply broadcast_shape_ok in HR. congruence.
  - intros [-> Hno]. destruct (_broadcast_shape shapes) as [R|e] eqn:E.
    + exfalso. apply Hno. exists R. apply broadcast_shape_ok; assumption.
    + unfold _broadcast_shape in E.
      destruct (foldl _ _ _); [discriminate | congruence].
Qed.

End BroadcastFacts.

(** ** The resolver as a whole *)

Section ResolverCalls.

Context {V : Type}.

Lemma parse_input_ranked (args : list (ndarray V)) icd :
  ranks_ok (zip args icd) ->
  _parse_input_dimensions args icd
  = (ds <- update_loop ∅ (core_pairs (zip args icd)) ;;
     R <- _broadcast_shape (prefixes (zip args icd)) ;;
     OK (R, ds)).
Proof.
  intros H. unfold _parse_input_dimensions.
  rewrite (parse_loop_ranked _ H).
  destruct (update_loop ∅ (core_pairs (zip args icd))); reflexivity.
Qed.

Lemma parse_input_ok_ranks (args : list (ndarray V)) icd r :
  _parse_input_dimensions args icd = OK r -> ranks_ok (zip args icd).
Proof.
  unfold _parse_input_dimensions. intros H.
  destruct (parse_loop [] ∅ (zip args icd)) as [r0|] eqn:E;
    [|discriminate].
  eapply parse_loop_ok_ranks; eauto.
Qed.

Lemma parse_input_rank_error (args : list (ndarray V)) icd n cd :
  _parse_input_dimensions args icd = Raise (InsufficientRank n cd) ->
  exists arg, In (arg, cd) (zip args icd) /\ ndim arg = n /\ n < length cd.
Proof.
  unfold _parse_input_dimensions. intros H.
  destruct (parse_loop [] ∅ (zip args icd)) as [r0|e] eqn:E.
  - cbn [bind] in H.
    destruct (_broadcast_shape (fst r0)) as [R|e] eqn:Eb; [discriminate|].
    apply broadcast_shape_raise in Eb. destruct Eb as [-> _].
    discriminate.
  - cbn [bind] in H. inversion H; subst.
    eapply parse_loop_rank_error; eauto.
Qed.

(** With sufficient ranks and consistent core dimensions the resolver
    returns the broadcast of the prefix shapes, when there is one. *)
Lemma parse_input_broadcasts (args : list (ndarray V)) icd P :
  ranks_ok (zip args icd) ->
  consistent (core_pairs (zip args icd)) ->
  Broadcasts (prefixes (zip args icd)) P ->
  exists ds, _parse_input_dimensions args icd = OK (P, ds).
Proof.
  intros Hr Hc Hb.
  destruct (update_loop_consistent_empty _ Hc) as [ds Hds].
  exists ds. rewrite (parse_input_ranked args icd Hr), Hds. cbn [bind].
  apply broadcast_shape_ok in Hb. rewrite Hb. reflexivity.
Qed.

(** An error of the walk over the first arguments is the error of the
    resolver. *)
Lemma parse_input_prefix_error (args : list (ndarray V)) icd La Lb e :
  zip args icd = La ++ Lb -> ranks_ok La ->
  update_loop ∅ (core_pairs La) = Raise e ->
  _parse_input_dimensions args icd = Raise e.
Proof.
  intros Hz Hr He. unfold _parse_input_dimensions.
  rewrite Hz, parse_loop_app, (parse_loop_ranked _ Hr), He. reflexivity.
Qed.

(** An error of the resolver is the error of the call. *)
Lemma wrapper_resolver_error icd ocd func (args : list (ndarray V)) e :
  length args = length icd ->
  _parse_input_dimensions args icd = Raise e ->
  wrapper icd ocd func args None = Raise e.
Proof.
  intros Hlen H. unfold wrapper, broadcast_with_core_dims. cbn [bind].
  rewrite Hlen, Nat.eqb_refl. cbn [negb]. rewrite H. reflexivity.
Qed.

Lemma core_shape_app (P C : list nat) g (cd : list str) :
  length C = length cd ->
  core_shape_of (V:=V) (mk_ndarray (P ++ C) g) cd = C.
Proof.
  intros H. unfold core_shape_of, ndim. cbn [shape].
  rewrite length_app, <- H.
  replace (length P + length C - length C) with (length P) by lia.
  rewrite skipn_app, skipn_all, Nat.sub_diag. reflexivity.
Qed.

Lemma prefix_shape_app (P C : list nat) g (cd : list str) :
  length C = length cd ->
  prefix_shape_of (V:=V) (mk_ndarray (P ++ C) g) cd = P.
Proof.
  intros H. unfold prefix_shape_of, ndim. cbn [shape].
  rewrite length_app, <- H.
  replace (length P + length C - length C) with (length P) by lia.
  rewrite firstn_app, firstn_all, Nat.sub_diag. apply app_nil_r.
Qed.

Lemma broadcasts_nil_neutral (l1 l2 : list (list nat)) R :
  Broadcasts (l1 ++ [] :: l2) R <-> Broadcasts (l1 ++ l2) R.
Proof.
  unfold Broadcasts. rewrite !map_app, !list_max_app. cbn [map length].
  cbn [list_max fold_right]. rewrite Nat.max_0_l.
  assert (Hin : forall s, In s (l1 ++ [] :: l2)
                          <-> s = [] \/ In s (l1 ++ l2)).
  { intros s. rewrite !in_app_iff. simpl. intuition auto. }
  split; intros [Hl H]; (split; [exact Hl|]); intros i;
    destruct (H i) as [Ha Hx]; split.
  - intros s Hs. apply Ha, Hin. auto.
  - destruct Hx as [Hx | (s & Hs & Hsi)]; [auto|].
    apply Hin in Hs. destruct Hs as [-> | Hs]; [|eauto].
    left. rewrite <- Hsi. unfold rdim. destruct i; reflexivity.
  - intros s Hs. apply Hin in Hs. destruct Hs as [-> | Hs]; [|auto].
    right. unfold rdim. destruct i; reflexivity.
  - destruct Hx as [Hx | (s & Hs & Hsi)]; [auto|].
    right. exists s. split; [apply Hin; auto | assumption].
Qed.

End ResolverCalls.

(** ** Batching *)

Section VmapFacts.

Context {V : Type}.

Lemma slice_at_nil (a : ndarray V) : slice_at [] a = a.
Proof. destruct a. reflexivity. Qed.

Lemma skipn_tail {A} (k : nat) (l : list A) : skipn k (tail l) = skipn (S k) l.
Proof. destruct l; simpl; [destruct k|]; reflexivity. Qed.

Lemma slice_at_unstack (i : nat) (p : list nat) (a : ndarray V) :
  slice_at p (unstack i a) = slice_at (i :: p) a.
Proof.
  unfold slice_at, unstack. cbn [shape item length].
  rewrite skipn_tail. reflexivity.
Qed.

Lemma outs_restack n (r0 : pyval V) at_i :
  outs (restack n r0 at_i)
  = imap (fun j a0 =>
            mk_ndarray (n :: shape a0)
              (fun idx => item (out_nth j a0 (at_i (hd 0 idx))) (tl idx)))
         (outs r0).
Proof. destruct r0; reflexivity. Qed.

Lemma is_tup_restack n (r0 : pyval V) at_i :
  is_tup (restack n r0 at_i) = is_tup r0.
Proof. destruct r0; reflexivity. Qed.

Lemma shapes_imap_stacked n (l : list (ndarray V)) at_i :
  forall k,
    map shape
      (imap (fun j a0 =>
               mk_ndarray (n :: shape a0)
                 (fun idx => item (out_nth (k + j) a0 (at_i (hd 0 idx)))
                                  (tl idx))) l)
    = map (cons n) (map shape l).
Proof.
  induction l as [|a l IH]; intros k; [reflexivity|].
  cbn [imap map shape]. f_equal.
  rewrite <- (IH (S k)). f_equal. apply imap_ext. intros j x _. simpl.
  replace (k + S j) with (S k + j) by lia. reflexivity.
Qed.

Lemma shapes_restack n (r0 : pyval V) at_i :
  map shape (outs (restack n r0 at_i)) = map (cons n) (map shape (outs r0)).
Proof. rewrite outs_restack. apply (shapes_imap_stacked n _ at_i 0). Qed.

Lemma same_form_true (r0 r : pyval V) :
  same_form r0 r = true <->
  is_tup r0 = is_tup r /\ map shape (outs r0) = map shape (outs r).
Proof.
  unfold same_form. rewrite andb_true_iff, eqb_true_iff,
    bool_decide_eq_true. reflexivity.
Qed.

Lemma check_slices_ok f (r0 : pyval V) args l :
  check_slices f r0 args l = OK tt <->
  forall i, In i l ->
    exists r, f (map (unstack i) args) = OK r /\ same_form r0 r = true.
Proof.
  induction l as [|i l IH]; simpl.
  - split; [intros _ i [] | reflexivity].
  - split.
    + intros H j [<- | Hj].
      * destruct (f (map (unstack i) args)) as [r|e]; [|discriminate].
        cbn [bind] in H. destruct (same_form r0 r) eqn:E; [eauto|].
        discriminate.
      * destruct (f (map (unstack i) args)) as [r|e]; [|discriminate].
        cbn [bind] in H. destruct (same_form r0 r); [|discriminate].
        apply IH; assumption.
    + intros H. destruct (H i (or_introl eq_refl)) as (r & Hr & Hs).
      rewrite Hr. cbn [bind]. rewrite Hs. apply IH. intros j Hj. apply H. right; assumption.
Qed.

(** What a successful call of [vmap f] consists of. *)
Lemma vmap_ok_inv f (args : list (ndarray V)) res :
  vmap f args = OK res ->
  exists n r0,
    args <> [] /\
    Forall (fun a => exists s, shape a = n :: s) args /\
    f (map (unstack 0) args) = OK r0 /\
    (forall i, i < n ->
       exists r, f (map (unstack i) args) = OK r /\ same_form r0 r = true) /\
    res = restack n r0 (fun i => f (map (unstack i) args)).
Proof.
  intros H. unfold vmap in H. destruct args as [|a args]; [discriminate|].
  remember (a :: args) as args' eqn:Hargs.
  destruct (shape a) as [|n s] eqn:Ea; [discriminate|].
  destruct (forallb (has_leading n) args') eqn:Ef; [|discriminate].
  destruct (f (map (unstack 0) args')) as [r0|e] eqn:E0; [|discriminate].
  cbn [bind] in H.
  destruct (check_slices f r0 args' (seq 0 n)) as [[]|e] eqn:Ec;
    [|discriminate].
  cbn [bind] in H. inversion H; subst res; clear H.
  exists n, r0.
  split; [subst args'; discriminate|].
  split; [|split; [reflexivity|split; [|reflexivity]]].
  - rewrite forallb_forall in Ef. apply List.Forall_forall. intros b Hb.
    specialize (Ef b Hb). unfold has_leading in Ef.
    destruct (shape b) as [|m s']; [discriminate|].
    apply Nat.eqb_eq in Ef. subst m. eauto.
  - intros i Hi. rewrite check_slices_ok in Ec. apply Ec.
    apply in_seq. lia.
Qed.

(** When a call of [vmap f] succeeds. *)
Lemma vmap_ok f (args : list (ndarray V)) n r0 :
  args <> [] ->
  Forall (fun a => exists s, shape a = n :: s) args ->
  f (map (unstack 0) args) = OK r0 ->
  (forall i, i < n ->
     exists r, f (map (unstack i) args) = OK r /\ same_form r0 r = true) ->
  vmap f args = OK (restack n r0 (fun i => f (map (unstack i) args))).
Proof.
  intros Hne HF H0 Hall. unfold vmap.
  destruct args as [|a args]; [congruence|].
  inversion HF as [|? ? [s Hs] HF']; subst. rewrite Hs.
  assert (Ef : forallb (has_leading n) (a :: args) = true).
  { apply forallb_forall. intros b Hb.
    rewrite List.Forall_forall in HF. destruct (HF b Hb) as [s' Hs'].
    unfold has_leading. rewrite Hs'. apply Nat.eqb_refl. }
  rewrite Ef, H0. cbn [bind].
  assert (Ec : check_slices f r0 (a :: args) (seq 0 n) = OK tt).
  { apply check_slices_ok. intros i Hi. apply in_seq in Hi.
    apply Hall. lia. }
  rewrite Ec. reflexivity.
Qed.

Lemma iter_succ {A} (n : nat) (g : A -> A) (x : A) :
  Nat.iter (S n) g x = g (Nat.iter n g x).
Proof. reflexivity. Qed.

Lemma unstack_prefix (i n : nat) (P : list nat) (args : list (ndarray V)) :
  Forall (fun a => exists C, shape a = (n :: P) ++ C) args ->
  Forall (fun a => exists C, shape a = P ++ C) (map (unstack i) args).
Proof.
  intros H. apply Forall_map. eapply Forall_impl; [exact H|].
  intros a [C Ha]. exists C. cbn [unstack shape]. rewrite Ha. reflexivity.
Qed.

(** The items of the stacked outputs under the index [i] of the new
    axis are the outputs of the call at [i]. *)
Lemma at_index_restack n P i p (r0 ri r : pyval V) at_i :
  at_i i = OK ri -> same_form r0 ri = true -> at_index P p ri r ->
  at_index (n :: P) (i :: p) (restack n r0 at_i) r.
Proof.
  intros Hi Hsame [Ht HF]. apply same_form_true in Hsame.
  destruct Hsame as [Ht0 Hs0]. split.
  - rewrite is_tup_restack. congruence.
  - rewrite outs_restack.
    assert (Hlen0 : length (outs r0) = length (outs ri)).
    { rewrite <- (length_map shape (outs r0)), Hs0. apply length_map. }
    apply Forall2_same_length_lookup_2.
    + rewrite length_imap, Hlen0. eapply Forall2_length; eauto.
    + intros j x y Hx Hy. rewrite list_lookup_imap in Hx.
      destruct (outs r0 !! j) as [a0|] eqn:Ej; [|discriminate].
      cbn in Hx. inversion Hx; subst x; clear Hx.
      destruct (lookup_lt_is_Some_2 (outs ri) j) as [b Hb].
      { rewrite <- Hlen0. eapply lookup_lt_Some; eauto. }
      destruct (Forall2_lookup_lr _ _ _ _ _ _ HF Hb Hy) as [Hsh Hit].
      assert (Hab : shape a0 = shape b).
      { change (map shape (outs r0)) with (shape <$> outs r0) in Hs0.
        change (map shape (outs ri)) with (shape <$> outs ri) in Hs0.
        apply (f_equal (fun l => l !! j)) in Hs0.
        rewrite !list_lookup_fmap, Ej, Hb in Hs0. cbn in Hs0.
        congruence. }
      cbn [shape item]. split.
      * rewrite Hab, Hsh. reflexivity.
      * intros idx. cbn [app hd tl]. rewrite Hi. cbn [out_nth].
        rewrite nth_lookup, Hb. cbn. apply Hit.
Qed.

(** The batched function, at every index of the batch axes, is the
    function on the slices at that index. *)
Lemma iter_vmap_at (f : list (ndarray V) -> result (pyval V)) :
  forall P args res,
    Forall (fun a => exists C, shape a = P ++ C) args ->
    Nat.iter (length P) vmap f args = OK res ->
    forall p, in_bounds p P ->
      exists r, f (map (slice_at p) args) = OK r /\ at_index P p res r.
Proof.
  induction P as [|n P IH]; intros args res HF H p Hp.
  - inversion Hp; subst. cbn in H.
    rewrite (map_ext _ id slice_at_nil), map_id.
    exists res. split; [exact H|]. split; [reflexivity|].
    induction (outs res); constructor; auto.
  - cbn [length] in H. rewrite iter_succ in H.
    apply vmap_ok_inv in H.
    destruct H as (n0 & r0 & Hne & HF0 & H0 & Hall & ->).
    assert (Hn : n0 = n).
    { destruct args as [|a args]; [congruence|].
      inversion HF as [|? ? [C HC] _]; subst.
      inversion HF0 as [|? ? [s Hs] _]; subst.
      rewrite HC in Hs. inversion Hs; reflexivity. }
    subst n0.
    inversion Hp as [|i n' p' P' Hi Hp']; subst.
    destruct (Hall i Hi) as (ri & Hri & Hsame).
    destruct (IH _ _ (unstack_prefix i n P args HF) Hri p' Hp')
      as (r & Hr & Hat).
    rewrite map_map in Hr.
    rewrite (map_ext _ _ (slice_at_unstack i p')) in Hr.
    exists r. split; [exact Hr|].
    eapply at_index_restack; eauto.
Qed.

(** A function that returns, on arguments of the core shapes [Cs],
    values of one form and of shapes [Os] can be batched over any
    prefix [P]. *)
Lemma iter_vmap_ok (f : list (ndarray V) -> result (pyval V))
    (form : bool) (Os : list (list nat)) :
  forall P args Cs,
    args <> [] ->
    Forall2 (fun a C => shape a = P ++ C) args Cs ->
    (forall xs, map shape xs = Cs ->
       exists v, f xs = OK v /\ is_tup v = form /\
                 map shape (outs v) = Os) ->
    exists res, Nat.iter (length P) vmap f args = OK res /\
                is_tup res = form /\
                map shape (outs res) = map (app P) Os.
Proof.
  induction P as [|n P IH]; intros args Cs Hne HF Hf.
  - cbn. destruct (Hf args) as (v & Hv & Ht & Hs).
    { clear -HF. induction HF; simpl in *; congruence. }
    exists v. split; [exact Hv|]. split; [exact Ht|].
    rewrite Hs. symmetry. apply map_id.
  - cbn [length]. rewrite iter_succ.
    assert (Hi : forall i,
               exists r, Nat.iter (length P) vmap f (map (unstack i) args)
                         = OK r /\ is_tup r = form /\
                         map shape (outs r) = map (app P) Os).
    { intros i. apply (IH _ Cs).
      - destruct args; [congruence | discriminate].
      - clear -HF. induction HF as [|a C args Cs Ha HF IH'];
          constructor; auto.
        cbn [unstack shape]. rewrite Ha. reflexivity.
      - exact Hf. }
    destruct (Hi 0) as (r0 & H0 & Ht0 & Hs0).
    exists (restack n r0
              (fun i => Nat.iter (length P) vmap f (map (unstack i) args))).
    split; [|split].
    + apply vmap_ok; auto.
      * clear -HF. induction HF as [|a C args Cs Ha HF IH'];
          constructor; auto. rewrite Ha. simpl. eauto.
      * intros i _. destruct (Hi i) as (r & Hr & Ht & Hs).
        exists r. split; [exact Hr|]. apply same_form_true.
        split; congruence.
    + rewrite is_tup_restack. exact Ht0.
    + rewrite shapes_restack, Hs0, map_map. reflexivity.
Qed.

End VmapFacts.

(** ** The broadcast of the arguments *)

Section WrapperFacts.

Context {V : Type}.

Lemma zip_cons {A B} (a : A) (b : B) (l : list A) (k : list B) :
  zip (a :: l) (b :: k) = (a, b) :: zip l k.
Proof. reflexivity. Qed.

Lemma broadcastable_rev_app (c a t : list nat) :
  broadcastable_rev (c ++ a) (c ++ t) = broadcastable_rev a t.
Proof.
  induction c as [|x c IH]; [reflexivity|].
  cbn [app broadcastable_rev]. rewrite Nat.eqb_refl, IH. reflexivity.
Qed.

Lemma broadcastable_rev_nth (a t : list nat) :
  length a <= length t ->
  (forall i, nth i a 1 = nth i t 1 \/ nth i a 1 = 1) ->
  broadcastable_rev a t = true.
Proof.
  revert t. induction a as [|x a IH]; intros [|y t] Hl H;
    [reflexivity | reflexivity | simpl in Hl; lia |].
  cbn [broadcastable_rev]. rewrite IH.
  - specialize (H 0). simpl in H.
    destruct H as [-> | ->]; rewrite ?Nat.eqb_refl, ?orb_true_r;
      reflexivity.
  - simpl in Hl; lia.
  - intros i. apply (H (S i)).
Qed.

Lemma list_max_In (l : list nat) n : In n l -> n <= list_max l.
Proof.
  intros H. pose proof (proj1 (list_max_le l (list_max l)) (le_n _)) as HF.
  rewrite List.Forall_forall in HF. auto.
Qed.

Lemma broadcastable_prefix (shapes : list (list nat)) (P s C : list nat) :
  Broadcasts shapes P -> In s shapes ->
  broadcastable_rev (rev (s ++ C)) (rev (P ++ C)) = true.
Proof.
  intros [Hl H] Hin. rewrite !rev_app_distr, broadcastable_rev_app.
  apply broadcastable_rev_nth.
  - rewrite !length_rev, Hl. apply list_max_In. apply in_map. exact Hin.
  - intros i. destruct (H i) as [Ha _]. apply Ha. exact Hin.
Qed.

Lemma lookup_sizes (ds : gmap (list N) nat) (cd : list str) (cs : list nat) :
  length cs = length cd ->
  (forall d size, In (d, size) (zip cd cs) -> ds !! d = Some size) ->
  mapM (fun dim => match ds !! dim with
                   | Some n => OK n
                   | None => Raise (KeyError dim)
                   end) cd = OK cs.
Proof.
  revert cs. induction cd as [|d cd IH]; intros [|c cs] Hl H;
    simpl in Hl; try discriminate; [reflexivity|].
  cbn [mapM]. rewrite (H d c) by (left; reflexivity). cbn [bind].
  rewrite (IH cs); [reflexivity | lia |].
  intros d' size Hin. apply H. right. exact Hin.
Qed.

Lemma calculate_shapes_ok (P : list nat) (ds : gmap (list N) nat) :
  forall (args : list (ndarray V)) icd,
    length args = length icd ->
    ranks_ok (zip args icd) ->
    (forall d size, In (d, size) (core_pairs (zip args icd)) ->
                    ds !! d = Some size) ->
    _calculate_shapes P ds icd = OK (map (target_shape P) (zip args icd)).
Proof.
  induction args as [|a args IH]; intros [|cd icd] Hl Hr Hds;
    simpl in Hl; try discriminate; [reflexivity|].
  rewrite zip_cons in *.
  inversion Hr as [|? ? Hra Hr']; subst. cbn [fst snd] in Hra.
  unfold _calculate_shapes in *. cbn [mapM map].
  rewrite (lookup_sizes ds cd (core_shape_of a cd)).
  - cbn [bind]. rewrite (IH icd); [reflexivity | lia | exact Hr' |].
    intros d size Hin. apply Hds. cbn [core_pairs map concat].
    apply in_or_app. right. exact Hin.
  - apply length_core_shape. exact Hra.
  - intros d size Hin. apply Hds. cbn [core_pairs map concat].
    apply in_or_app. left. exact Hin.
Qed.

Lemma broadcast_all_ok (P : list nat) :
  forall (args : list (ndarray V)) icd,
    length args = length icd ->
    Forall (fun p => broadcastable_rev (rev (shape (fst p)))
                                       (rev (target_shape P p)) = true)
           (zip args icd) ->
    exists bargs,
      mapM (fun q => broadcast_to (fst q) (snd q))
           (zip args (map (target_shape P) (zip args icd))) = OK bargs /\
      Forall2 (fun b p => shape b = target_shape P p) bargs (zip args icd).
Proof.
  induction args as [|a args IH]; intros [|cd icd] Hl HF;
    simpl in Hl; try discriminate.
  - exists []. split; [reflexivity | constructor].
  - rewrite zip_cons in *. cbn [map]. rewrite zip_cons.
    inversion HF as [|? ? Ha HF']; subst.
    cbn [fst snd] in Ha.
    destruct (IH icd) as (bargs & Hb & HF2); [lia | exact HF'|].
    cbn [mapM fst snd]. unfold broadcast_to at 1. rewrite Ha.
    cbn [bind]. rewrite Hb. cbn [bind].
    eexists. split; [reflexivity|]. constructor; [reflexivity | exact HF2].
Qed.

(** When the resolver returns, every argument is broadcast to the
    broadcast shape followed by its own core shape. *)
Lemma broadcast_with_core_dims_ok (args : list (ndarray V)) icd ocd P ds :
  length args = length icd ->
  _parse_input_dimensions args icd = OK (P, ds) ->
  exists bargs,
    broadcast_with_core_dims args icd ocd = OK bargs /\
    Forall2 (fun b p => shape b = target_shape P p) bargs (zip args icd).
Proof.
  intros Hl Hp. pose proof (parse_input_ok_ranks _ _ _ Hp) as Hr.
  rewrite (parse_input_ranked _ _ Hr) in Hp.
  destruct (update_loop ∅ (core_pairs (zip args icd))) as [ds'|] eqn:Eu;
    [|discriminate].
  cbn [bind] in Hp.
  destruct (_broadcast_shape (prefixes (zip args icd))) as [P'|] eqn:Eb;
    [|discriminate].
  cbn [bind] in Hp. inversion Hp; subst P' ds'; clear Hp.
  apply broadcast_shape_ok in Eb.
  destruct (update_loop_ok _ _ _ Eu) as (_ & Hds & _).
  destruct (broadcast_all_ok P args icd Hl) as (bargs & Hb & HF2).
  { apply List.Forall_forall. intros [a cd] Hin.
    cbn [fst snd]. unfold target_shape. cbn [fst snd].
    rewrite <- (prefix_core_shape a cd) at 1.
    eapply broadcastable_prefix; [exact Eb|].
    unfold prefixes. apply (in_map (fun p => prefix_shape_of (fst p) (snd p))
                              _ (a, cd)). exact Hin. }
  exists bargs. split; [|exact HF2].
  unfold broadcast_with_core_dims. rewrite Hl, Nat.eqb_refl. cbn [negb].
  rewrite (parse_input_ranked _ _ Hr), Eu. cbn [bind].
  apply broadcast_shape_ok in Eb. rewrite Eb. cbn [bind fst snd].
  rewrite (calculate_shapes_ok P ds args icd Hl Hr Hds). cbn [bind].
  exact Hb.
Qed.

Lemma calculate_shapes_inv (P : list nat) (ds : gmap (list N) nat) :
  forall icd shapes,
    _calculate_shapes P ds icd = OK shapes ->
    Forall2 (fun sh cd => exists C, sh = P ++ C /\ length C = length cd)
            shapes icd.
Proof.
  unfold _calculate_shapes.
  induction icd as [|cd icd IH]; intros shapes H; cbn [mapM] in H.
  - inversion H. constructor.
  - destruct (mapM _ cd) as [sizes|] eqn:Es; [|discriminate].
    cbn [bind] in H.
    destruct (mapM _ icd) as [rest|] eqn:Er; [|discriminate].
    cbn [bind] in H. inversion H; subst. constructor; [|apply IH; auto].
    exists sizes. split; [reflexivity|].
    clear -Es. revert sizes Es.
    induction cd as [|d cd IH']; intros sizes Es; cbn [mapM] in Es.
    + inversion Es. reflexivity.
    + destruct (ds !! d); [|discriminate]. cbn [bind] in Es.
      destruct (mapM _ cd) as [r|] eqn:E; [|discriminate].
      cbn [bind] in Es. inversion Es; subst. simpl. f_equal.
      apply IH'. reflexivity.
Qed.

Lemma broadcast_all_inv :
  forall (args : list (ndarray V)) shapes bargs,
    length args = length shapes ->
    mapM (fun q => broadcast_to (fst q) (snd q)) (zip args shapes)
    = OK bargs ->
    Forall2 (fun b sh => shape b = sh) bargs shapes.
Proof.
  induction args as [|a args IH]; intros [|sh shapes] bargs Hl H;
    simpl in Hl; try discriminate.
  - inversion H. constructor.
  - rewrite zip_cons in H. cbn [mapM fst snd] in H.
    destruct (broadcast_to a sh) as [b|] eqn:Eb; [|discriminate].
    cbn [bind fst snd] in H.
    destruct (mapM _ (zip args shapes)) as [bs|] eqn:Er;
      [|discriminate].
    cbn [bind] in H. inversion H; subst. constructor.
    + unfold broadcast_to in Eb.
      destruct (broadcastable_rev _ _); inversion Eb. reflexivity.
    + apply IH; [lia | exact Er].
Qed.

(** What a successful broadcast of the arguments consists of. *)
Lemma broadcast_with_core_dims_inv (args : list (ndarray V)) icd ocd bargs :
  broadcast_with_core_dims args icd ocd = OK bargs ->
  length args = length icd /\
  exists P ds,
    _parse_input_dimensions args icd = OK (P, ds) /\
    Forall2 (fun b cd => exists C, shape b = P ++ C /\ length C = length cd)
            bargs icd.
Proof.
  unfold broadcast_with_core_dims. intros H.
  destruct (length args =? length icd) eqn:El; [|discriminate].
  apply Nat.eqb_eq in El. cbn [negb] in H. split; [exact El|].
  destruct (_parse_input_dimensions args icd) as [[P ds]|] eqn:Ep;
    [|discriminate].
  cbn [bind fst snd] in H.
  destruct (_calculate_shapes P ds icd) as [shapes|] eqn:Ec;
    [|discriminate].
  cbn [bind] in H. exists P, ds. split; [reflexivity|].
  apply calculate_shapes_inv in Ec.
  apply broadcast_all_inv in H.
  2:{ rewrite El. symmetry. eapply Forall2_length; eauto. }
  clear -H Ec. revert icd Ec.
  induction H as [|b sh bargs shapes Hb HF IH]; intros icd Ec;
    inversion Ec as [|? cd ? icd' (C & HC & HlC) Ec']; subst;
    constructor; eauto.
Qed.

(** A call without [axis]: broadcast, then batch once per dimension of
    the broadcast shape. *)
Lemma wrapper_none icd ocd func (args bargs : list (ndarray V)) P :
  icd <> [] ->
  broadcast_with_core_dims args icd ocd = OK bargs ->
  Forall2 (fun b cd => exists C, shape b = P ++ C /\ length C = length cd)
          bargs icd ->
  wrapper icd ocd func args None = Nat.iter (length P) vmap func bargs.
Proof.
  intros Hne Hb HF. unfold wrapper. cbn [bind]. rewrite Hb. cbn [bind].
  destruct HF as [|b cd bargs icd (C & HC & HlC) HF]; [congruence|].
  cbn [bind]. rewrite HC, length_app, HlC.
  replace (Z.to_nat (Z.of_nat (length P + length cd)
                     - Z.of_nat (length cd))) with (length P) by lia.
  destruct (Nat.iter (length P) vmap func (b :: bargs)); reflexivity.
Qed.

End WrapperFacts.

(** ** The check of the [axis] argument *)

Lemma collect_last_group (icd ocd : list (list str)) (g : list str) :
  snd (collect_core_dims icd (ocd ++ [g])) = Some g.
Proof.
  unfold collect_core_dims. cbn [foldl]. rewrite foldl_app. reflexivity.
Qed.

(** * Part III: the claims *)

(** C1: what the code does. The check of the [axis] argument reads the
    number of names of the last output group only: the set of all names
    is collected and not looked at. So the signature [(n),(m)->(n)], with
    two distinct names, passes the check and the call with an axis goes
    through, while [(n)->(n,n)], with one distinct name, is rejected; a
    signature without any name passes as well. *)
Theorem C1_axis_check_reads_last_group :
  (forall icd ocd g,
      verify_axis_is_supported icd (ocd ++ [g])
      = if 1 <? length g then Raise AxisNotSupported else OK tt) /\
  (size (fst (collect_core_dims [[py "n"]; [py "m"]] [[py "n"]])) = 2 /\
   verify_axis_is_supported [[py "n"]; [py "m"]] [[py "n"]] = OK tt) /\
  (forall unicode_alnum,
      is_ok (vectorize_call unicode_alnum (py "(n),(m)->(n)") first_arg
               [arange_2_3; ones_4] (Some 0%Z)) = true) /\
  (size (fst (collect_core_dims [[py "n"]] [[py "n"; py "n"]])) = 1 /\
   verify_axis_is_supported [[py "n"]] [[py "n"; py "n"]]
   = Raise AxisNotSupported) /\
  (size (fst (collect_core_dims [[]] [[]])) = 0 /\
   verify_axis_is_supported [[]] [[]] = OK tt).
Proof.
  split; [|split; [|split; [|split]]].
  - intros icd ocd g. unfold verify_axis_is_supported.
    cbv zeta. rewrite collect_last_group. reflexivity.
  - split; vm_compute; reflexivity.
  - intros unicode_alnum. vm_compute. reflexivity.
  - split; vm_compute; reflexivity.
  - split; vm_compute; reflexivity.
Qed.

(** C2, as amended. Let the arguments be as many as the declared input
    groups, of sufficient rank, with consistent sizes of their core
    dimensions, and with prefix shapes whose broadcast is [P]; and let
    the core function return, on arguments of the core shapes, one array
    per declared output group, of the core shape of that group for sizes
    [env] of the output names (a bare array for one group, a tuple for
    several). Then the wrapped call without [axis] succeeds, and returns
    one array per declared output group, of shape [P] followed by the
    core shape of the group, bare for one group and in a tuple for
    several. *)
Theorem C2_rank_additivity (V : Type) (icd ocd : list (list str))
    (func : list (ndarray V) -> result (pyval V))
    (args : list (ndarray V)) (P : list nat) (env : list N -> nat) :
  icd <> [] ->
  length args = length icd ->
  ranks_ok (zip args icd) ->
  consistent (core_pairs (zip args icd)) ->
  Broadcasts (prefixes (zip args icd)) P ->
  (forall xs,
      map shape xs
      = map (fun p => core_shape_of (fst p) (snd p)) (zip args icd) ->
      exists v, func xs = OK v /\ returns_as ocd (map (map env) ocd) v) ->
  exists res,
    wrapper icd ocd func args None = OK res /\
    returns_as ocd (map (fun cd => P ++ map env cd) ocd) res.
Proof.
  intros Hne Hl Hr Hc HP Hf.
  destruct (parse_input_broadcasts args icd P Hr Hc HP) as [ds Hp].
  destruct (broadcast_with_core_dims_ok args icd ocd P ds Hl Hp)
    as (bargs & Hb & HF).
  destruct (broadcast_with_core_dims_inv _ _ _ _ Hb)
    as (_ & P' & ds' & Hp' & HF').
  rewrite Hp in Hp'. inversion Hp'; subst P' ds'; clear Hp'.
  rewrite (wrapper_none icd ocd func args bargs P Hne Hb HF').
  destruct (iter_vmap_ok func (negb (length ocd =? 1)) (map (map env) ocd)
              P bargs
              (map (fun p => core_shape_of (fst p) (snd p)) (zip args icd)))
    as (res & Hres & Ht & Hs).
  - destruct HF'; [congruence | discriminate].
  - clear -HF. induction HF; constructor; auto.
  - intros xs Hxs. destruct (Hf xs Hxs) as (v & Hv & Ht & _ & Hs). eauto.
  - exists res. split; [exact Hres|]. split; [exact Ht|].
    rewrite map_map in Hs. split; [|exact Hs].
    rewrite <- (length_map shape), Hs. apply length_map.
Qed.

Lemma C2_rank_additivity_witness :
  length [arange_2_3] = length [[py "n"]] /\
  ranks_ok (zip [arange_2_3] [[py "n"]]) /\
  consistent (core_pairs (zip [arange_2_3] [[py "n"]])) /\
  Broadcasts (prefixes (zip [arange_2_3] [[py "n"]])) [2] /\
  (forall xs,
      map shape xs = [[3]] ->
      exists v, sum3 xs = OK v /\ returns_as [[]] [[]] v) /\
  exists res,
    wrapper [[py "n"]] [[]] sum3 [arange_2_3] None = OK res /\
    returns_as [[]] [[2]] res.
Proof.
  assert (Hr : ranks_ok (zip [arange_2_3] [[py "n"]])).
  { repeat constructor; simpl; lia. }
  assert (Hc : consistent (core_pairs (zip [arange_2_3] [[py "n"]]))).
  { intros d s1 s2 [H1 | []] [H2 | []]. congruence. }
  assert (HP : Broadcasts (prefixes (zip [arange_2_3] [[py "n"]])) [2]).
  { apply broadcast_shape_ok. vm_compute. reflexivity. }
  assert (Hf : forall xs,
             map shape xs = [[3]] ->
             exists v, sum3 xs = OK v /\ returns_as [[]] [[]] v).
  { intros [|x [|y xs]] Hxs; try discriminate.
    eexists. split; [reflexivity|]. repeat split. }
  split; [reflexivity|]. split; [exact Hr|]. split; [exact Hc|].
  split; [exact HP|]. split; [exact Hf|].
  refine (C2_rank_additivity Z [[py "n"]] [[]] sum3 [arange_2_3] [2]
            (fun _ => 0) _ eq_refl Hr Hc HP Hf).
  discriminate.
Defined.

(** C2 as stated fails. For the signature [(n),(n)->()] and arguments of
    shapes [(3,)] and [(4,)], the prefix shapes are empty and broadcast to
    the empty shape, the core function returns a scalar as declared, and
    the call fails, on the sizes of [n]. And for [center] on the matrix of
    shape [(3, 4)], whose prefix shape is [(3,)], the call with [axis=0]
    returns outputs of shapes [(4,)] and [(3, 4)]. And for the signature
    [(n)->()], with one output group, and a core function that returns
    its scalar in a tuple of one, the call on a matrix of shape [(2, 3)]
    returns a tuple of one array, of shape [(2,)], not a bare array: the
    wrapper without [axis] returns the outputs in the form the core
    function gives them. *)
Lemma C2_broadcastable_prefixes_not_enough :
  (length [ones_3; ones_4] = length [[py "n"]; [py "n"]] /\
   ranks_ok (zip [ones_3; ones_4] [[py "n"]; [py "n"]]) /\
   Broadcasts (prefixes (zip [ones_3; ones_4] [[py "n"]; [py "n"]])) [] /\
   (forall xs, exists v,
       const_scalar xs = OK v /\ returns_as [[]] [[]] v) /\
   wrapper [[py "n"]; [py "n"]] [[]] const_scalar [ones_3; ones_4] None
   = Raise (InconsistentDimension (py "n") 4 3)) /\
  (Broadcasts (prefixes (zip [arange_3_4] [[py "n"]])) [3] /\
   (forall (x : ndarray Q) k,
       shape x = [k] ->
       exists v, center Qmean Qsub [x] = OK v /\
                 returns_as [[]; [py "n"]] [[]; [k]] v) /\
   shapes_of (wrapper [[py "n"]] [[]; [py "n"]] (center Qmean Qsub)
                [arange_3_4] (Some 0%Z))
   = OK [[4]; [3; 4]]) /\
  (Broadcasts (prefixes (zip [arange_2_3] [[py "n"]])) [2] /\
   (forall xs : list (ndarray Z), exists v,
       (fun _ => OK (Tup [scalar_0])) xs = OK v /\
       length (outs v) = length [[] : list str] /\
       map shape (outs v) = [[]]) /\
   exists a,
     wrapper [[py "n"]] [[]] (fun _ => OK (Tup [scalar_0])) [arange_2_3]
       None = OK (Tup [a]) /\
     shape a = [2]).
Proof.
  split; [|split].
  - split; [reflexivity|]. split; [repeat constructor; simpl; lia|].
    split; [apply broadcast_shape_ok; vm_compute; reflexivity|].
    split; [|vm_compute; reflexivity].
    intros xs. eexists. split; [reflexivity|]. repeat split.
  - split; [apply broadcast_shape_ok; vm_compute; reflexivity|].
    split; [|vm_compute; reflexivity].
    intros [sx gx] k Hx. cbn [shape] in Hx. subst sx.
    eexists. split; [vm_compute; reflexivity|]. repeat split.
  - split; [apply broadcast_shape_ok; vm_compute; reflexivity|].
    split.
    + intros xs. eexists. split; [reflexivity|]. split; reflexivity.
    + eexists. split; [vm_compute; reflexivity | reflexivity].
Qed.

(** C3. When a wrapped call without [axis] succeeds, its result is that
    of the explicit loop over the broadcast shape [P]: at every index
    tuple within [P], the core function returns on the slices of the
    broadcast arguments at that index, and each output holds, under that
    index, what the core function returned there. The result is the
    core function batched once per entry of [P]; for the empty [P] it is
    the core function itself on the broadcast arguments. *)
Theorem C3_batching_is_nested_loop (V : Type) (icd ocd : list (list str))
    (func : list (ndarray V) -> result (pyval V))
    (args : list (ndarray V)) (res : pyval V) :
  wrapper icd ocd func args None = OK res ->
  exists bargs P,
    broadcast_with_core_dims args icd ocd = OK bargs /\
    Forall2 (fun b cd => exists C, shape b = P ++ C /\ length C = length cd)
            bargs icd /\
    (forall p, in_bounds p P ->
       exists r, func (map (slice_at p) bargs) = OK r /\
                 at_index P p res r) /\
    Nat.iter (length P) vmap func bargs = OK res /\
    (P = [] -> func bargs = OK res).
Proof.
  intros H.
  destruct (broadcast_with_core_dims args icd ocd) as [bargs|e] eqn:Hb.
  2:{ unfold wrapper in H. cbn [bind] in H. rewrite Hb in H.
      discriminate. }
  destruct (broadcast_with_core_dims_inv _ _ _ _ Hb)
    as (Hl & P & ds & Hp & HF).
  assert (Hne : icd <> []).
  { intros ->. inversion HF; subst. unfold wrapper in H.
    cbn [bind] in H. rewrite Hb in H. discriminate. }
  rewrite (wrapper_none icd ocd func args bargs P Hne Hb HF) in H.
  exists bargs, P. split; [reflexivity|]. split; [exact HF|].
  split; [|split; [exact H|]].
  - apply iter_vmap_at; [|exact H].
    clear -HF. induction HF as [|b cd bargs icd (C & HC & _) HF IH];
      constructor; eauto.
  - intros ->. exact H.
Qed.

Lemma C3_batching_is_nested_loop_witness :
  exists res,
    wrapper [[py "n"]] [[]] sum3 [arange_2_3] None = OK res /\
    exists r, sum3 (map (slice_at [1]) [arange_2_3]) = OK r /\
              at_index [2] [1] res r.
Proof.
  destruct (wrapper [[py "n"]] [[]] sum3 [arange_2_3] None)
    as [res|e] eqn:E; [|vm_compute in E; discriminate].
  exists res. split; [reflexivity|].
  destruct (C3_batching_is_nested_loop Z _ _ _ _ _ E)
    as (bargs & P & Hb & HF & Hat & _).
  vm_compute in Hb. inversion Hb; subst bargs; clear Hb.
  inversion HF as [|? ? ? ? (C & HC & HlC) _]; subst.
  destruct C as [|c [|c' C]]; try discriminate.
  cbn [shape] in HC.
  assert (HP : P = [2]).
  { destruct P as [|p [|p' P]]; inversion HC; subst; try reflexivity.
    destruct P; discriminate. }
  subst P.
  destruct (Hat [1]) as (r & Hr & Hr'); [repeat constructor|].
  exists r. split; [|exact Hr'].
  rewrite <- Hr. reflexivity.
Defined.

(** C4, as amended. [vectorize(s)] raises the error of an invalid
    signature, when the decorator is made and before any wrapped function
    exists, if and only if [s] is not accepted by the pattern: a string
    of the grammar [groups "->" groups] whose names are one or more
    characters of the class [\w] (the characters [[A-Za-z0-9_]] and, outside
    ASCII, the alphanumeric code points), optionally followed by one
    newline. No other error is raised. On an accepted string the parser
    returns, for each side of the arrow, one tuple of names per group, in
    order, an empty group giving an empty tuple; and every string of the
    grammar of section 6 is accepted. *)
Theorem C4_signature_accepted_by_pattern
    (V : Type) (unicode_alnum : N -> bool) (s : str) :
  (@vectorize V unicode_alnum s = Raise (InvalidSignature s)
   <-> ~ exists ins outs, Accepted unicode_alnum s ins outs) /\
  (forall e, @vectorize V unicode_alnum s = Raise e ->
             e = InvalidSignature s) /\
  (forall ins outs,
      Accepted unicode_alnum s ins outs <->
      _parse_gufunc_signature unicode_alnum s = OK [ins; outs]) /\
  (forall ins outs,
      Accepted unicode_alnum s ins outs ->
      @vectorize V unicode_alnum s = OK (wrapper ins outs)) /\
  (SpecGrammar s -> exists ins outs, Accepted unicode_alnum s ins outs).
Proof.
  assert (Hv := vectorize_parse V unicode_alnum s).
  split; [split|split; [|split; [split|split]]].
  - intros H (ins & outs & Hacc).
    rewrite (parse_accepted _ _ _ _ Hacc) in Hv. congruence.
  - intros Hno.
    destruct (_parse_gufunc_signature unicode_alnum s) as [r|e] eqn:E.
    + apply parse_ok_inv in E. destruct E as (ins & outs & _ & Hacc).
      exfalso. eauto.
    + apply parse_raise_inv in E. destruct E as [-> _]. exact Hv.
  - intros e He.
    destruct (_parse_gufunc_signature unicode_alnum s) as [r|e'] eqn:E.
    + apply parse_ok_inv in E. destruct E as (ins & outs & -> & _).
      congruence.
    + apply parse_raise_inv in E. destruct E as [-> _]. congruence.
  - apply parse_accepted.
  - intros H. apply parse_ok_inv in H.
    destruct H as (ins' & outs' & Heq & Hacc). congruence.
  - intros ins outs Hacc.
    rewrite (parse_accepted _ _ _ _ Hacc) in Hv. exact Hv.
  - apply spec_grammar_accepted.
Qed.

Lemma C4_signature_accepted_by_pattern_witness :
  Accepted no_unicode (py "(m,n),(n,p)->(m,p)")
    [[py "m"; py "n"]; [py "n"; py "p"]] [[py "m"; py "p"]] /\
  _parse_gufunc_signature no_unicode (py "(m,n),(n,p)->(m,p)")
  = OK [[[py "m"; py "n"]; [py "n"; py "p"]]; [[py "m"; py "p"]]].
Proof.
  assert (Hacc : Accepted no_unicode (py "(m,n),(n,p)->(m,p)")
                   [[py "m"; py "n"]; [py "n"; py "p"]]
                   [[py "m"; py "p"]]).
  { split; [|split; [|left; reflexivity]];
      (split; [discriminate|]);
      repeat constructor; discriminate. }
  split; [exact Hacc|].
  apply (proj1 (proj2 (proj2 (C4_signature_accepted_by_pattern unit
                                no_unicode (py "(m,n),(n,p)->(m,p)"))))).
  exact Hacc.
Defined.

(** C4 as stated fails: the signature [()->()] followed by a newline is
    not a string of the grammar, and [vectorize] accepts it. So does it
    accept a name made of a word character outside ASCII, whenever the
    tables have one. *)
Lemma C4_accepted_outside_grammar :
  (~ SpecGrammar (py "()->()" ++ [10%N]) /\
   forall unicode_alnum,
     @vectorize unit unicode_alnum (py "()->()" ++ [10%N])
     = OK (wrapper [[]] [[]])) /\
  (forall unicode_alnum c,
      (128 <= c)%N -> unicode_alnum c = true ->
      ~ SpecGrammar (chr "(" :: c :: py ")->()") /\
      @vectorize unit unicode_alnum (chr "(" :: c :: py ")->()")
      = OK (wrapper [[[c]]] [[]])).
Proof.
  split; [split|].
  - intros H. apply spec_grammar_no_newline in H. apply H.
    apply in_or_app. right. left. reflexivity.
  - intros unicode_alnum.
    assert (Hacc : Accepted unicode_alnum (py "()->()" ++ [10%N])
                     [[]] [[]]).
    { split; [|split; [|right; reflexivity]];
        (split; [discriminate | repeat constructor]). }
    assert (Hv := vectorize_parse unit unicode_alnum (py "()->()" ++ [10%N])).
    rewrite (parse_accepted _ _ _ _ Hacc) in Hv. exact Hv.
  - intros unicode_alnum c Hc Hw. split.
    + intros H. apply (spec_grammar_ascii _ c) in H; [lia|].
      right. left. reflexivity.
    + assert (Hacc : Accepted unicode_alnum (chr "(" :: c :: py ")->()")
                       [[[c]]] [[]]).
      { split; [|split; [|left; reflexivity]].
        - split; [discriminate|]. repeat constructor; [discriminate|].
          unfold Re.is_word.
          destruct (c <? 128)%N eqn:E; [apply N.ltb_lt in E; lia|].
          exact Hw.
        - split; [discriminate | repeat constructor]. }
      assert (Hv := vectorize_parse unit unicode_alnum
                      (chr "(" :: c :: py ")->()")).
      rewrite (parse_accepted _ _ _ _ Hacc) in Hv. exact Hv.
Qed.

(** C5. When the ranks suffice and the core dimensions are consistent,
    the resolver returns as broadcast shape exactly the right-aligned
    broadcast of the prefix shapes of all arguments, and it fails, with
    the error that names the prefix shapes, exactly when they have no
    broadcast, which is when two of them are not compatible. An argument
    of rank [k] has the empty prefix, which has 1 at every position and
    changes no broadcast. *)
Theorem C5_broadcast_of_prefixes (V : Type) (args : list (ndarray V))
    (icd : list (list str)) :
  ranks_ok (zip args icd) ->
  consistent (core_pairs (zip args icd)) ->
  (forall R, (exists ds, _parse_input_dimensions args icd = OK (R, ds))
             <-> Broadcasts (prefixes (zip args icd)) R) /\
  (forall e, _parse_input_dimensions args icd = Raise e
             <-> e = BroadcastError (prefixes (zip args icd)) /\
                 ~ exists R, Broadcasts (prefixes (zip args icd)) R) /\
  ((exists R, Broadcasts (prefixes (zip args icd)) R)
   <-> Compatible (prefixes (zip args icd))) /\
  (forall arg cd, ndim arg = length cd ->
                  prefix_shape_of (V:=V) arg cd = []) /\
  (forall i, rdim [] i = 1) /\
  (forall l1 l2 R, Broadcasts (l1 ++ [] :: l2) R
                   <-> Broadcasts (l1 ++ l2) R).
Proof.
  intros Hr Hc.
  destruct (update_loop_consistent_empty _ Hc) as [ds Hds].
  pose proof (parse_input_ranked args icd Hr) as Hp.
  rewrite Hds in Hp. cbn [bind] in Hp.
  split; [|split; [|split; [|split; [|split]]]].
  - intros R. rewrite <- broadcast_shape_ok. rewrite Hp.
    destruct (_broadcast_shape (prefixes (zip args icd))) as [R'|e];
      cbn [bind]; split.
    + intros [ds' H]. congruence.
    + intros H. exists ds. congruence.
    + intros [ds' H]. discriminate.
    + discriminate.
  - intros e. rewrite <- broadcast_shape_raise. rewrite Hp.
    destruct (_broadcast_shape (prefixes (zip args icd))) as [R'|e'];
      cbn [bind]; split; congruence.
  - apply broadcasts_exists.
  - intros arg cd H. unfold prefix_shape_of. rewrite H, Nat.sub_diag.
    reflexivity.
  - intros i. unfold rdim. destruct i; reflexivity.
  - intros l1 l2 R. apply broadcasts_nil_neutral.
Qed.

Lemma C5_broadcast_of_prefixes_witness :
  ranks_ok (zip [arange_2_3; ones_1_3] [[py "n"]; [py "n"]]) /\
  consistent (core_pairs (zip [arange_2_3; ones_1_3]
                              [[py "n"]; [py "n"]])) /\
  Broadcasts [[2]; [1]] [2] /\
  ~ Broadcasts [[2]; [1]] [1].
Proof.
  assert (Hr : ranks_ok (zip [arange_2_3; ones_1_3] [[py "n"]; [py "n"]])).
  { repeat constructor; simpl; lia. }
  assert (Hc : consistent (core_pairs (zip [arange_2_3; ones_1_3]
                                           [[py "n"]; [py "n"]]))).
  { intros d s1 s2 [H1 | [H1 | []]] [H2 | [H2 | []]]; congruence. }
  split; [exact Hr|]. split; [exact Hc|].
  pose proof (proj1 (C5_broadcast_of_prefixes Z _ _ Hr Hc)) as H.
  split.
  - apply (H [2]). eexists. vm_compute. reflexivity.
  - intros Hb. apply (H [1]) in Hb. destruct Hb as [ds Hds].
    vm_compute in Hds. discriminate.
Defined.

(** C6. The resolution of dimension sizes walks the names of the core
    dimensions in argument order, each paired with its entry of the
    trailing shape. The first occurrence of a name fixes its size; a
    later occurrence paired with another size makes the call fail with
    the error of an inconsistent dimension, which reports the name, the
    size just met and the size fixed before, whatever the arguments
    after it are; when the resolver returns, the dictionary holds
    exactly the pairs of the walk. With the signature [(n),(n)->()] and
    core sizes 3 and 4 the call fails so. *)
Theorem C6_dimension_sizes :
  (forall (V : Type) (args : list (ndarray V)) (icd : list (list str))
          l1 d size l2,
      ranks_ok (zip args icd) ->
      core_pairs (zip args icd) = l1 ++ (d, size) :: l2 ->
      consistent l1 -> ~ In d (map fst l1) ->
      exists ds1, update_loop ∅ (l1 ++ [(d, size)]) = OK ds1 /\
                  ds1 !! d = Some size) /\
  (forall (V : Type) (args : list (ndarray V)) (icd : list (list str))
          La Lb l1 d size old l2,
      zip args icd = La ++ Lb -> ranks_ok La ->
      core_pairs La = l1 ++ (d, size) :: l2 ->
      consistent l1 -> In (d, old) l1 -> size <> old ->
      _parse_input_dimensions args icd
      = Raise (InconsistentDimension d size old) /\
      (length args = length icd ->
       forall ocd func,
         wrapper icd ocd func args None
         = Raise (InconsistentDimension d size old))) /\
  (forall (V : Type) (args : list (ndarray V)) (icd : list (list str))
          R ds,
      _parse_input_dimensions args icd = OK (R, ds) ->
      consistent (core_pairs (zip args icd)) /\
      forall d size, ds !! d = Some size
                     <-> In (d, size) (core_pairs (zip args icd))) /\
  (forall (V : Type) (unicode_alnum : N -> bool) func (a b : ndarray V)
          (Pa Pb : list nat),
      shape a = Pa ++ [3] -> shape b = Pb ++ [4] ->
      vectorize_call unicode_alnum (py "(n),(n)->()") func [a; b] None
      = Raise (InconsistentDimension (py "n") 4 3)).
Proof.
  split; [|split; [|split]].
  - intros V args icd l1 d size l2 _ _ Hc Hd.
    destruct (update_loop_consistent_empty l1 Hc) as [ds0 H0].
    destruct (update_loop_ok _ _ _ H0) as (_ & _ & H3).
    assert (Hnone : ds0 !! d = None).
    { destruct (ds0 !! d) as [v|] eqn:E; [|reflexivity].
      destruct (H3 _ _ E) as [Hv | Hin].
      - rewrite lookup_empty in Hv. discriminate.
      - exfalso. apply Hd. apply (in_map fst) in Hin. exact Hin. }
    exists (<[d := size]> ds0). split; [|apply lookup_insert_eq].
    rewrite update_loop_app, H0. simpl. rewrite Hnone. reflexivity.
  - intros V args icd La Lb l1 d size old l2 Hz Hr Hpairs Hc Hin Hne.
    destruct (update_loop_consistent_empty l1 Hc) as [ds1 H1].
    destruct (update_loop_ok _ _ _ H1) as (_ & H2 & _).
    assert (He : _parse_input_dimensions args icd
                 = Raise (InconsistentDimension d size old)).
    { apply (parse_input_prefix_error args icd La Lb _ Hz Hr).
      rewrite Hpairs.
      apply (update_loop_conflict _ _ _ _ _ _ l2 H1 (H2 _ _ Hin) Hne). }
    split; [exact He|]. intros Hlen ocd func.
    apply wrapper_resolver_error; assumption.
  - intros V args icd R ds H.
    pose proof (parse_input_ok_ranks _ _ _ H) as Hr.
    rewrite (parse_input_ranked args icd Hr) in H.
    destruct (update_loop ∅ (core_pairs (zip args icd))) as [ds'|e] eqn:E;
      [|discriminate].
    cbn [bind] in H.
    destruct (_broadcast_shape _); [|discriminate].
    cbn [bind] in H. inversion H; subst.
    destruct (update_loop_ok _ _ _ E) as (_ & H2 & H3).
    split.
    + intros d s1 s2 Hs1 Hs2. apply H2 in Hs1, Hs2. congruence.
    + intros d size. split; [|apply H2].
      intros Hd. destruct (H3 _ _ Hd) as [Hv | Hin]; [|exact Hin].
      rewrite lookup_empty in Hv. discriminate.
  - intros V unicode_alnum func [sa ga] [sb gb] Pa Pb Ha Hb.
    cbn [shape] in Ha, Hb. subst sa sb.
    unfold vectorize_call.
    pose proof (vectorize_parse V unicode_alnum (py "(n),(n)->()")) as Hv.
    assert (Hparse : _parse_gufunc_signature unicode_alnum
                       (py "(n),(n)->()")
                     = OK [[[py "n"]; [py "n"]]; [[]]])
      by (vm_compute; reflexivity).
    rewrite Hparse in Hv. rewrite Hv. cbn [bind].
    apply wrapper_resolver_error; [reflexivity|].
    rewrite parse_input_ranked.
    2:{ repeat constructor; cbn [fst snd ndim shape length];
          rewrite length_app; simpl; lia. }
    cbn [zip zip_with core_pairs map concat fst snd].
    rewrite !core_shape_app by reflexivity.
    vm_compute. reflexivity.
Qed.

Lemma C6_dimension_sizes_witness :
  ranks_ok (zip [arange_2_3; ones_4] [[py "n"]; [py "n"]]) /\
  consistent [(py "n", 3)] /\
  In (py "n", 3) [(py "n", 3)] /\
  4 <> 3 /\
  _parse_input_dimensions [arange_2_3; ones_4] [[py "n"]; [py "n"]]
  = Raise (InconsistentDimension (py "n") 4 3).
Proof.
  assert (Hr : ranks_ok (zip [arange_2_3; ones_4] [[py "n"]; [py "n"]])).
  { repeat constructor; simpl; lia. }
  assert (Hc : consistent [(py "n", 3)]).
  { intros d s1 s2 [H1 | []] [H2 | []]. congruence. }
  assert (Hin : In (py "n", 3) [(py "n", 3)]) by (left; reflexivity).
  assert (Hne : 4 <> 3) by discriminate.
  split; [exact Hr|]. split; [exact Hc|]. split; [exact Hin|].
  split; [exact Hne|].
  refine (proj1 (proj1 (proj2 C6_dimension_sizes) Z
                   [arange_2_3; ones_4] [[py "n"]; [py "n"]]
                   _ [] [(py "n", 3)] (py "n") 4 3 []
                   _ Hr eq_refl Hc Hin Hne)).
  symmetry. apply app_nil_r.
Defined.

(** C7. For an argument with [k] declared core dimensions, the check of
    its dimensions raises the error of an insufficient rank exactly when
    its rank is less than [k], and never when [k] is 0. The resolver
    raises that error only for such an argument, returns only when no
    argument is such, and raises it for the first such argument when the
    arguments before it are consistent. *)
Theorem C7_insufficient_rank (V : Type) (dim_sizes : gmap (list N) nat)
    (arg : ndarray V) (core_dims : list str) :
  ((exists n cd, _update_dim_sizes dim_sizes arg core_dims
                 = Raise (InsufficientRank n cd))
   <-> ndim arg < length core_dims) /\
  (ndim arg < length core_dims ->
   _update_dim_sizes dim_sizes arg core_dims
   = Raise (InsufficientRank (ndim arg) core_dims)) /\
  (core_dims = [] -> _update_dim_sizes dim_sizes arg core_dims
                     = OK dim_sizes) /\
  (forall (args : list (ndarray V)) icd n cd,
      _parse_input_dimensions args icd = Raise (InsufficientRank n cd) ->
      exists a, In (a, cd) (zip args icd) /\ ndim a = n /\ n < length cd) /\
  (forall (args : list (ndarray V)) icd r,
      _parse_input_dimensions args icd = OK r ->
      Forall (fun p => length (snd p) <= ndim (fst p)) (zip args icd)) /\
  (forall (args : list (ndarray V)) icd l1 a cd l2,
      zip args icd = l1 ++ (a, cd) :: l2 ->
      ranks_ok l1 -> consistent (core_pairs l1) ->
      ndim a < length cd ->
      _parse_input_dimensions args icd
      = Raise (InsufficientRank (ndim a) cd)).
Proof.
  split; [split|split; [|split; [|split; [|split]]]].
  - intros (n & cd & H).
    destruct (Nat.le_gt_cases (length core_dims) (ndim arg)) as [Hle|Hgt];
      [|exact Hgt].
    rewrite update_dim_sizes_ranked in H by auto.
    apply update_loop_raise in H. destruct H as (d & sz & old & H).
    discriminate.
  - intros H. rewrite update_dim_sizes_unranked by auto. eauto.
  - apply update_dim_sizes_unranked.
  - intros ->. reflexivity.
  - intros args icd n cd. apply parse_input_rank_error.
  - intros args icd r. apply parse_input_ok_ranks.
  - intros args icd l1 a cd l2 Hz Hr Hc Hlt.
    unfold _parse_input_dimensions. rewrite Hz.
    rewrite (parse_loop_first_unranked l1 l2 a cd Hr Hc Hlt).
    reflexivity.
Qed.

Lemma C7_insufficient_rank_witness :
  ndim scalar_0 < length [py "n"] /\
  _update_dim_sizes ∅ scalar_0 [py "n"]
  = Raise (InsufficientRank 0 [py "n"]).
Proof.
  assert (H : ndim scalar_0 < length [py "n"]) by (vm_compute; lia).
  split; [exact H|].
  apply (proj1 (proj2 (C7_insufficient_rank Z ∅ scalar_0 [py "n"]))).
  exact H.
Defined.

(** C8. For [center] under the signature [(n)->(),(n)] and a matrix [X]
    of shape [(3, 4)]: with [axis=1] the call returns the means of the
    rows, of shape [(3,)], and [X] with each row minus its mean, of shape
    [(3, 4)]; with [axis=0] it returns the means of the columns, of shape
    [(4,)], and [X] with each column minus its mean, of shape [(3, 4)].
    The inputs are reordered by moving the axis to the last position, and
    of the outputs only the one that declares a core dimension is moved
    back. *)
Theorem C8_center_axis (V : Type) (mean : list V -> V) (sub : V -> V -> V)
    (unicode_alnum : N -> bool) (X : ndarray V) :
  shape X = [3; 4] ->
  (exists b a,
      vectorize_call unicode_alnum (py "(n)->(),(n)") (center mean sub)
        [X] (Some 1%Z) = OK (Tup [b; a]) /\
      shape b = [3] /\ shape a = [3; 4] /\
      (forall i, i < 3 ->
         item b [i] = mean (map (fun j => item X [i; j]) [0; 1; 2; 3])) /\
      (forall i j, i < 3 -> j < 4 ->
         item a [i; j]
         = sub (item X [i; j])
               (mean (map (fun j => item X [i; j]) [0; 1; 2; 3])))) /\
  (exists b a,
      vectorize_call unicode_alnum (py "(n)->(),(n)") (center mean sub)
        [X] (Some 0%Z) = OK (Tup [b; a]) /\
      shape b = [4] /\ shape a = [3; 4] /\
      (forall j, j < 4 ->
         item b [j] = mean (map (fun i => item X [i; j]) [0; 1; 2])) /\
      (forall i j, i < 3 -> j < 4 ->
         item a [i; j]
         = sub (item X [i; j])
               (mean (map (fun i => item X [i; j]) [0; 1; 2])))) /\
  (exists Xt,
      reorder_inputs [X] 0 [[py "n"]] = OK [Xt] /\
      shape Xt = [4; 3] /\
      forall i j, item Xt [j; i] = item X [i; j]) /\
  (forall b a : ndarray V,
      shape a = [4; 3] ->
      exists a',
        reorder_outputs (Tup [b; a]) 0 [[]; [py "n"]] = OK (Tup [b; a']) /\
        shape a' = [3; 4] /\
        forall i j, item a' [i; j] = item a [j; i]).
Proof.
  destruct X as [sX g]. cbn [shape item]. intros ->.
  split; [|split; [|split]].
  - eexists. eexists. split; [vm_compute; reflexivity|].
    split; [reflexivity|]. split; [reflexivity|]. split.
    + intros i Hi.
      destruct i as [|[|[|i]]]; [reflexivity | reflexivity | reflexivity|].
      lia.
    + intros i j Hi Hj.
      destruct i as [|[|[|i]]]; [| | |lia];
        (destruct j as [|[|[|[|j]]]]; [| | | |lia]); reflexivity.
  - eexists. eexists. split; [vm_compute; reflexivity|].
    split; [reflexivity|]. split; [reflexivity|]. split.
    + intros j Hj.
      destruct j as [|[|[|[|j]]]]; [| | | |lia]; reflexivity.
    + intros i j Hi Hj.
      destruct i as [|[|[|i]]]; [| | |lia];
        (destruct j as [|[|[|[|j]]]]; [| | | |lia]); reflexivity.
  - eexists. split; [vm_compute; reflexivity|]. split; [reflexivity|].
    intros i j. reflexivity.
  - intros b [sa ga]. cbn [shape]. intros ->.
    eexists. split; [vm_compute; reflexivity|]. split; [reflexivity|].
    intros i j. reflexivity.
Qed.

Lemma C8_center_axis_witness :
  shape arange_3_4 = [3; 4] /\
  (exists b a,
      vectorize_call no_unicode (py "(n)->(),(n)") (center Qmean Qsub)
        [arange_3_4] (Some 1%Z) = OK (Tup [b; a]) /\
      map (item b) [[0]; [1]; [2]] = [3 # 2; 11 # 2; 19 # 2]%Q /\
      map (item a) [[0; 0]; [1; 1]; [2; 3]] = [-3 # 2; -1 # 2; 3 # 2]%Q) /\
  (exists b a,
      vectorize_call no_unicode (py "(n)->(),(n)") (center Qmean Qsub)
        [arange_3_4] (Some 0%Z) = OK (Tup [b; a]) /\
      map (item b) [[0]; [1]; [2]; [3]] = [4; 5; 6; 7]%Q /\
      map (item a) [[0; 0]; [1; 1]; [2; 3]] = [-4; 0; 4]%Q).
Proof.
  split; [reflexivity|].
  destruct (C8_center_axis Q Qmean Qsub no_unicode arange_3_4 eq_refl)
    as ((b1 & a1 & H1 & _ & _ & Hb1 & Ha1)
        & (b0 & a0 & H0 & _ & _ & Hb0 & Ha0) & _).
  split.
  - exists b1, a1. split; [exact H1|]. cbn [map].
    rewrite !Hb1, !Ha1 by lia. split; vm_compute; reflexivity.
  - exists b0, a0. split; [exact H0|]. cbn [map].
    rewrite !Hb0, !Ha0 by lia. split; vm_compute; reflexivity.
Defined.

(** C9, as amended. In a call without [axis] the declared output groups
    play no part: the broadcast of the arguments and the result of the
    call are the same whatever the output groups are, so that no error
    comes from the output names or from the shapes the core function
    returns. The signature [()->(n)] is valid, and the size of [n] in the
    result is the one the core function gives. *)
Theorem C9_outputs_unchecked_without_axis :
  (forall (V : Type) (args : list (ndarray V)) icd ocd ocd',
      broadcast_with_core_dims args icd ocd
      = broadcast_with_core_dims args icd ocd') /\
  (forall (V : Type) icd ocd ocd' func (args : list (ndarray V)),
      wrapper icd ocd func args None = wrapper icd ocd' func args None) /\
  (forall unicode_alnum,
      _parse_gufunc_signature unicode_alnum (py "()->(n)")
      = OK [[[]]; [[py "n"]]]) /\
  (forall (V : Type) unicode_alnum (k : nat) (x y : ndarray V),
      shape x = [] ->
      exists a,
        vectorize_call unicode_alnum (py "()->(n)")
          (fun _ => OK (Arr (mk_ndarray [k] (item y)))) [x] None
        = OK (Arr a) /\ shape a = [k]).
Proof.
  split; [|split; [|split]].
  - reflexivity.
  - reflexivity.
  - intros unicode_alnum. vm_compute. reflexivity.
  - intros V unicode_alnum k [sx gx] y Hx. cbn [shape] in Hx. subst sx.
    eexists. split; [vm_compute; reflexivity | reflexivity].
Qed.

Lemma C9_outputs_unchecked_without_axis_witness :
  shape scalar_0 = [] /\
  exists a,
    vectorize_call no_unicode (py "()->(n)")
      (fun _ => OK (Arr (mk_ndarray [2] (item arange_2_3)))) [scalar_0] None
    = OK (Arr a) /\ shape a = [2].
Proof.
  split; [reflexivity|].
  apply (proj2 (proj2 (proj2 C9_outputs_unchecked_without_axis))
           Z no_unicode 2 scalar_0 arange_2_3).
  reflexivity.
Defined.

(** C9 as stated fails: with an explicit [axis], the call for the
    signature [()->(n,m)] is refused on account of the names of its
    output group, names that occur in no input; the same call without
    [axis], and the same call with the output group [(n)], go through.
    And for [()->(n)] a call with [axis=2] fails on account of the shape
    of the output, which has no such axis. *)
Lemma C9_output_names_refused_with_axis :
  (forall unicode_alnum,
      vectorize_call unicode_alnum (py "()->(n,m)") const_2_3 [scalar_0]
        (Some 0%Z) = Raise AxisNotSupported) /\
  (forall unicode_alnum,
      is_ok (vectorize_call unicode_alnum (py "()->(n,m)") const_2_3
               [scalar_0] None) = true) /\
  (forall unicode_alnum,
      is_ok (vectorize_call unicode_alnum (py "()->(n)") const_2_3
               [scalar_0] (Some 0%Z)) = true) /\
  (forall unicode_alnum,
      vectorize_call unicode_alnum (py "()->(n)") const_2_3 [scalar_0]
        (Some 2%Z) = Raise (AxisError 2 2)).
Proof.
  split; [|split; [|split]]; intros unicode_alnum; vm_compute; reflexivity.
Qed.

(** C10. A string with two or more occurrences of [->] is rejected by
    the parser; the characters [-] and [>] are not in the class [\w]; and
    whenever parsing succeeds the string holds exactly one [->], its split
    on the arrow has exactly two pieces, and the result has exactly one
    input side and one output side. *)
Theorem C10_single_arrow (unicode_alnum : N -> bool) (s : str) :
  (2 <= occurrences (py "->") s ->
   _parse_gufunc_signature unicode_alnum s = Raise (InvalidSignature s)) /\
  (forall r, _parse_gufunc_signature unicode_alnum s = OK r ->
     occurrences (py "->") s = 1 /\
     exists a b ins outs, split (py "->") s = [a; b] /\ r = [ins; outs]) /\
  Re.is_word unicode_alnum (chr "-") = false /\
  Re.is_word unicode_alnum (chr ">") = false.
Proof.
  assert (Hok : forall r,
             _parse_gufunc_signature unicode_alnum s = OK r ->
             occurrences (py "->") s = 1 /\
             exists a b ins outs,
               split (py "->") s = [a; b] /\ r = [ins; outs]).
  { intros r H. apply parse_ok_inv in H.
    destruct H as (ins & outs & -> & Hacc). split.
    - eapply accepted_one_arrow; eauto.
    - destruct (accepted_split _ _ _ _ Hacc) as (t & _ & Hsplit). eauto 6. }
  split; [|split; [exact Hok | split; reflexivity]].
  intros H2.
  destruct (_parse_gufunc_signature unicode_alnum s) as [r|e] eqn:E.
  - destruct (Hok r eq_refl) as [H1 _]. lia.
  - apply parse_raise_inv in E. destruct E as [-> _]. reflexivity.
Qed.

Lemma C10_single_arrow_witness :
  2 <= occurrences (py "->") (py "()->()->()") /\
  _parse_gufunc_signature no_unicode (py "()->()->()")
  = Raise (InvalidSignature (py "()->()->()")).
Proof.
  split.
  - vm_compute. lia.
  - apply (C10_single_arrow no_unicode (py "()->()->()")).
    vm_compute. lia.
Defined.

(** * Part IV: further properties *)

(** ** The dictionary of sizes *)

Section SizesFacts.

Context {V : Type}.

(** A walk over pairs that the dictionary already holds changes
    nothing. *)
Lemma update_loop_bound (ds : gmap (list N) nat) pairs :
  (forall d size, In (d, size) pairs -> ds !! d = Some size) ->
  update_loop ds pairs = OK ds.
Proof.
  induction pairs as [|[d size] rest IH]; intros H; [reflexivity|].
  simpl. rewrite (H d size) by (left; reflexivity).
  rewrite Nat.eqb_refl. apply IH. intros d' size' Hin. apply H.
  right; exact Hin.
Qed.

(** The pairs of one argument, by position. *)
Lemma in_core_zip (arg : ndarray V) (cd : list str) d size :
  length cd <= ndim arg ->
  In (d, size) (zip cd (core_shape_of arg cd)) <->
  exists i, cd !! i = Some d /\
            shape arg !! (ndim arg - length cd + i) = Some size.
Proof.
  intros Hr. rewrite <- list_elem_of_In. unfold core_shape_of.
  rewrite elem_of_lookup_zip_with. split.
  - intros (i & x & y & Heq & Hx & Hy). inversion Heq; subst.
    rewrite lookup_drop in Hy. eauto.
  - intros (i & Hx & Hy). exists i, d, size.
    rewrite lookup_drop. auto.
Qed.

(** What a successful check of one argument leaves in the dictionary. *)
Lemma update_dim_sizes_ok (ds : gmap (list N) nat) (arg : ndarray V)
    (cd : list str) ds' :
  _update_dim_sizes ds arg cd = OK ds' ->
  length cd <= ndim arg /\
  update_loop ds (zip cd (core_shape_of arg cd)) = OK ds'.
Proof.
  intros H.
  destruct (Nat.le_gt_cases (length cd) (ndim arg)) as [Hle | Hgt].
  - split; [exact Hle|]. rewrite <- update_dim_sizes_ranked; auto.
  - rewrite update_dim_sizes_unranked in H by exact Hgt. discriminate.
Qed.

End SizesFacts.

(** X1. When the check of one argument returns, the dictionary it leaves
    extends the one it was given: no size that was there is changed or
    removed, its names are those that were there and the names declared
    for the argument, and the name at position [i] of the declaration is
    bound to the entry at position [ndim - k + i] of the shape. *)
Theorem X1_update_dim_sizes_extends (V : Type) (ds : gmap (list N) nat)
    (arg : ndarray V) (cd : list str) (ds' : gmap (list N) nat) :
  _update_dim_sizes ds arg cd = OK ds' ->
  ds ⊆ ds' /\
  dom ds' = dom ds ∪ list_to_set cd /\
  (forall i d, cd !! i = Some d ->
     ds' !! d = shape arg !! (ndim arg - length cd + i)).
Proof.
  intros H. apply update_dim_sizes_ok in H. destruct H as [Hr H].
  destruct (update_loop_ok _ _ _ H) as (H1 & H2 & H3).
  split; [|split].
  - apply map_subseteq_spec. exact H1.
  - apply set_eq. intros d.
    rewrite elem_of_union, !elem_of_dom, elem_of_list_to_set. split.
    + intros [v Hv]. destruct (H3 _ _ Hv) as [Hd | Hin]; [left; eauto|].
      right. apply in_core_zip in Hin; [|exact Hr].
      destruct Hin as (i & Hi & _). eapply list_elem_of_lookup_2; eauto.
    + intros [[v Hv] | Hd]; [eauto|].
      apply list_elem_of_lookup in Hd. destruct Hd as [i Hi].
      assert (Hlt : i < length cd) by (eapply lookup_lt_Some; eauto).
      destruct (lookup_lt_is_Some_2 (shape arg)
                  (ndim arg - length cd + i)) as [size Hs].
      { unfold ndim in *. lia. }
      exists size. apply H2. apply in_core_zip; eauto.
  - intros i d Hi.
    assert (Hlt : i < length cd) by (eapply lookup_lt_Some; eauto).
    destruct (lookup_lt_is_Some_2 (shape arg)
                (ndim arg - length cd + i)) as [size Hs].
    { unfold ndim in *. lia. }
    rewrite Hs. apply H2. apply in_core_zip; eauto.
Qed.

Lemma X1_update_dim_sizes_extends_witness :
  _update_dim_sizes {[py "m" := 5]} arange_2_3 [py "n"]
  = OK (<[py "n" := 3]> {[py "m" := 5]}) /\
  ({[py "m" := 5]} : gmap (list N) nat) ⊆ <[py "n" := 3]> {[py "m" := 5]}.
Proof.
  assert (H : _update_dim_sizes {[py "m" := 5]} arange_2_3 [py "n"]
              = OK (<[py "n" := 3]> {[py "m" := 5]}))
    by (vm_compute; reflexivity).
  split; [exact H|].
  exact (proj1 (X1_update_dim_sizes_extends Z _ _ _ _ H)).
Defined.

(** X2. The check of one argument is idempotent: once it has returned,
    the same check on the dictionary it left returns that dictionary
    unchanged. *)
Theorem X2_update_dim_sizes_idempotent (V : Type)
    (ds : gmap (list N) nat) (arg : ndarray V) (cd : list str)
    (ds' : gmap (list N) nat) :
  _update_dim_sizes ds arg cd = OK ds' ->
  _update_dim_sizes ds' arg cd = OK ds'.
Proof.
  intros H. apply update_dim_sizes_ok in H. destruct H as [Hr H].
  rewrite update_dim_sizes_ranked by exact Hr.
  apply update_loop_bound. apply (update_loop_ok _ _ _ H).
Qed.

Lemma X2_update_dim_sizes_idempotent_witness :
  _update_dim_sizes ∅ arange_2_3 [py "n"] = OK {[py "n" := 3]} /\
  _update_dim_sizes {[py "n" := 3]} arange_2_3 [py "n"]
  = OK {[py "n" := 3]}.
Proof.
  assert (H : _update_dim_sizes ∅ arange_2_3 [py "n"] = OK {[py "n" := 3]})
    by (vm_compute; reflexivity).
  split; [exact H|].
  exact (X2_update_dim_sizes_idempotent Z _ _ _ _ H).
Defined.

(** ** The order of the arguments *)

Section OrderFacts.

Context {V : Type}.

Lemma list_max_perm (l l' : list nat) :
  Permutation l l' -> list_max l = list_max l'.
Proof.
  induction 1 as [|x l l' _ IH|x y l|l l' l'' _ IH1 _ IH2]; simpl;
    [reflexivity | rewrite IH; reflexivity | lia | congruence].
Qed.

Lemma broadcasts_perm (shapes shapes' : list (list nat)) R :
  Permutation shapes shapes' -> Broadcasts shapes R -> Broadcasts shapes' R.
Proof.
  intros Hp [Hl H]. split.
  - rewrite Hl. apply list_max_perm. apply Permutation_map. exact Hp.
  - intros i. destruct (H i) as [Ha Hb]. split.
    + intros s Hs. apply Ha.
      apply (Permutation_in _ (Permutation_sym Hp)). exact Hs.
    + destruct Hb as [Hb | (s & Hs & Hb)]; [left; exact Hb|].
      right. exists s. split; [|exact Hb].
      apply (Permutation_in _ Hp). exact Hs.
Qed.

Lemma in_core_pairs (l : list (ndarray V * list str)) x :
  In x (core_pairs l) <->
  exists p, In p l /\ In x (zip (snd p) (core_shape_of (fst p) (snd p))).
Proof.
  unfold core_pairs. rewrite in_concat. split.
  - intros (q & Hq & Hx). apply in_map_iff in Hq.
    destruct Hq as (p & <- & Hp). eauto.
  - intros (p & Hp & Hx). eexists. split; [|exact Hx].
    apply in_map_iff. eauto.
Qed.

Lemma in_core_pairs_perm (l l' : list (ndarray V * list str)) x :
  Permutation l l' -> In x (core_pairs l) -> In x (core_pairs l').
Proof.
  intros Hp. rewrite !in_core_pairs. intros (p & Hin & Hx).
  exists p. split; [|exact Hx]. apply (Permutation_in _ Hp). exact Hin.
Qed.

(** What the resolver has established when it returns. *)
Lemma parse_input_ok_inv (args : list (ndarray V)) icd P ds :
  _parse_input_dimensions args icd = OK (P, ds) ->
  ranks_ok (zip args icd) /\
  update_loop ∅ (core_pairs (zip args icd)) = OK ds /\
  consistent (core_pairs (zip args icd)) /\
  (forall d size, ds !! d = Some size
                  <-> In (d, size) (core_pairs (zip args icd))) /\
  Broadcasts (prefixes (zip args icd)) P.
Proof.
  intros H. pose proof (parse_input_ok_ranks _ _ _ H) as Hr.
  rewrite (parse_input_ranked args icd Hr) in H.
  destruct (update_loop ∅ (core_pairs (zip args icd))) as [ds'|e] eqn:E;
    [|discriminate].
  cbn [bind] in H.
  destruct (_broadcast_shape (prefixes (zip args icd))) as [R|e] eqn:Eb;
    [|discriminate].
  cbn [bind] in H. inversion H; subst R ds'; clear H.
  destruct (update_loop_ok _ _ _ E) as (_ & H2 & H3).
  split; [exact Hr|]. split; [reflexivity|]. split; [|split].
  - intros d s1 s2 Hs1 Hs2. apply H2 in Hs1, Hs2. congruence.
  - intros d size. split; [|apply H2].
    intros Hd. destruct (H3 _ _ Hd) as [Hv | Hin]; [|exact Hin].
    rewrite lookup_empty in Hv. discriminate.
  - apply broadcast_shape_ok. exact Eb.
Qed.

End OrderFacts.

(** X3. What the resolver returns does not depend on the order of the
    arguments: when it returns a broadcast shape and a dictionary for
    some arguments with their declared core dimensions, it returns the
    same broadcast shape and the same dictionary for these arguments,
    each with its declaration, in any other order. *)
Theorem X3_resolver_order_independent (V : Type)
    (args args' : list (ndarray V)) (icd icd' : list (list str))
    (P : list nat) (ds : gmap (list N) nat) :
  Permutation (zip args icd) (zip args' icd') ->
  _parse_input_dimensions args icd = OK (P, ds) ->
  _parse_input_dimensions args' icd' = OK (P, ds).
Proof.
  intros Hp H.
  destruct (parse_input_ok_inv _ _ _ _ H) as (Hr & _ & Hc & Hds & HB).
  assert (Hr' : ranks_ok (zip args' icd')).
  { unfold ranks_ok in *. rewrite List.Forall_forall in *. intros p Hin.
    apply Hr. apply (Permutation_in _ (Permutation_sym Hp)). exact Hin. }
  assert (Hin : forall x, In x (core_pairs (zip args' icd'))
                          <-> In x (core_pairs (zip args icd))).
  { intros x. split; apply in_core_pairs_perm;
      [apply Permutation_sym|]; exact Hp. }
  assert (Hc' : consistent (core_pairs (zip args' icd'))).
  { intros d s1 s2 H1 H2. apply Hin in H1, H2. eapply Hc; eauto. }
  assert (HB' : Broadcasts (prefixes (zip args' icd')) P).
  { apply (broadcasts_perm (prefixes (zip args icd))); [|exact HB].
    apply Permutation_map. exact Hp. }
  destruct (parse_input_broadcasts args' icd' P Hr' Hc' HB') as [ds' H'].
  rewrite H'. do 2 f_equal.
  destruct (parse_input_ok_inv _ _ _ _ H') as (_ & _ & _ & Hds' & _).
  apply map_eq. intros d. apply option_eq. intros size.
  rewrite Hds', Hds. apply Hin.
Qed.

Lemma X3_resolver_order_independent_witness :
  _parse_input_dimensions [arange_2_3; ones_1_3] [[py "n"]; [py "n"]]
  = OK ([2], {[py "n" := 3]}) /\
  _parse_input_dimensions [ones_1_3; arange_2_3] [[py "n"]; [py "n"]]
  = OK ([2], {[py "n" := 3]}).
Proof.
  assert (H : _parse_input_dimensions [arange_2_3; ones_1_3]
                [[py "n"]; [py "n"]]
              = OK ([2], {[py "n" := 3]}))
    by (vm_compute; reflexivity).
  split; [exact H|].
  refine (X3_resolver_order_independent Z _ [ones_1_3; arange_2_3]
            _ [[py "n"]; [py "n"]] _ _ _ H).
  apply perm_swap.
Defined.

(** ** What the resolver reads *)

Section ReadFacts.

Context {V W : Type}.

Lemma update_dim_sizes_shape (a : ndarray V) (a' : ndarray W) ds cd :
  shape a = shape a' ->
  _update_dim_sizes ds a cd = _update_dim_sizes ds a' cd.
Proof.
  intros H. unfold _update_dim_sizes, ndim. rewrite H. reflexivity.
Qed.

Lemma parse_loop_shapes (args : list (ndarray V))
    (args' : list (ndarray W)) :
  Forall2 (fun a a' => shape a = shape a') args args' ->
  forall icd bs ds,
    parse_loop bs ds (zip args icd) = parse_loop bs ds (zip args' icd).
Proof.
  induction 1 as [|a a' args args' Ha HF IH]; intros [|cd icd] bs ds;
    try reflexivity.
  rewrite !zip_cons. cbn [parse_loop].
  rewrite (update_dim_sizes_shape a a' ds cd Ha).
  destruct (_update_dim_sizes ds a' cd); [|reflexivity].
  cbn [bind]. unfold ndim. rewrite Ha. apply IH.
Qed.

End ReadFacts.

(** X4. The resolver reads the shapes of the arguments and nothing
    else: for two lists of arguments with the same shapes, whatever
    their items and the type of their items, it returns the same
    broadcast shape and the same dictionary, or raises the same
    error. *)
Theorem X4_resolver_reads_shapes_only (V W : Type)
    (args : list (ndarray V)) (args' : list (ndarray W))
    (icd : list (list str)) :
  map shape args = map shape args' ->
  _parse_input_dimensions args icd = _parse_input_dimensions args' icd.
Proof.
  intros H. unfold _parse_input_dimensions.
  rewrite (parse_loop_shapes args args'); [reflexivity|].
  clear icd. revert args' H.
  induction args as [|a args IH]; intros [|a' args'] H;
    try discriminate; [constructor|].
  inversion H. constructor; auto.
Qed.

Lemma X4_resolver_reads_shapes_only_witness :
  _parse_input_dimensions [arange_3_4] [[py "n"]]
  = _parse_input_dimensions [zeros [3; 4]] [[py "n"]].
Proof.
  exact (X4_resolver_reads_shapes_only Q unit [arange_3_4]
           [zeros [3; 4]] [[py "n"]] eq_refl).
Defined.

(** ** The shapes the arguments are broadcast to *)

Section ShapesFacts.

Context {V : Type}.

(** The first element on which the body of a comprehension raises
    decides the comprehension. *)
Lemma mapM_first_raise {A B} (f : A -> result B) l1 x l2 e :
  (forall y, In y l1 -> exists b, f y = OK b) -> f x = Raise e ->
  mapM f (l1 ++ x :: l2) = Raise e.
Proof.
  induction l1 as [|y l1 IH]; intros H1 Hx; simpl.
  - rewrite Hx. reflexivity.
  - destruct (H1 y) as [b Hb]; [left; reflexivity|]. rewrite Hb.
    cbn [bind]. rewrite IH; [reflexivity| |exact Hx].
    intros z Hz. apply H1. right; exact Hz.
Qed.

Lemma mapM_all_ok {A B} (f : A -> result B) (g : A -> B) l :
  (forall y, In y l -> f y = OK (g y)) -> mapM f l = OK (map g l).
Proof.
  induction l as [|y l IH]; intros H; simpl; [reflexivity|].
  rewrite (H y) by (left; reflexivity). cbn [bind].
  rewrite IH; [reflexivity|]. intros z Hz. apply H. right; exact Hz.
Qed.

Lemma mapM_ok_Forall2 {A B} (f : A -> result B) l r :
  mapM f l = OK r -> Forall2 (fun x y => f x = OK y) l r.
Proof.
  revert r. induction l as [|x l IH]; intros r H; simpl in H.
  - inversion H. constructor.
  - destruct (f x) as [b|e] eqn:E; [|discriminate]. cbn [bind] in H.
    destruct (mapM f l) as [bs|e]; [|discriminate]. cbn [bind] in H.
    inversion H; subst. constructor; auto.
Qed.

Lemma mapM_raise_inv {A B} (f : A -> result B) l e :
  mapM f l = Raise e -> exists x, In x l /\ f x = Raise e.
Proof.
  induction l as [|x l IH]; intros H; simpl in H; [discriminate|].
  destruct (f x) as [b|e'] eqn:E.
  - cbn [bind] in H. destruct (mapM f l) as [bs|e'']; [discriminate|].
    cbn [bind] in H. inversion H; subst.
    destruct IH as (y & Hy & Hf); [reflexivity|]. exists y.
    split; [right; exact Hy | exact Hf].
  - cbn [bind] in H. inversion H; subst. exists x.
    split; [left; reflexivity | exact E].
Qed.

(** The position of an element of a concatenation. *)
Lemma concat_split {A} (l : list (list A)) :
  forall k1 d k2, concat l = k1 ++ d :: k2 ->
    exists l1 c1 c2 l2,
      l = l1 ++ (c1 ++ d :: c2) :: l2 /\ k1 = concat l1 ++ c1.
Proof.
  induction l as [|cd l IH]; intros k1 d k2 H; simpl in H.
  - destruct k1; discriminate.
  - apply app_eq_app in H. destruct H as [m [[H1 H2] | [H1 H2]]].
    + destruct m as [|x m].
      * simpl in H2. rewrite app_nil_r in H1. subst cd.
        destruct (IH [] d k2) as (l1 & c1 & c2 & l2 & Hl & Hk);
          [symmetry; exact H2|].
        exists (k1 :: l1), c1, c2, l2. split; [rewrite Hl; reflexivity|].
        simpl. rewrite <- app_assoc, <- Hk, app_nil_r. reflexivity.
      * inversion H2; subst. exists [], k1, m, l. split; reflexivity.
    + destruct (IH m d k2 H2) as (l1 & c1 & c2 & l2 & Hl & Hk).
      exists (cd :: l1), c1, c2, l2. split; [rewrite Hl; reflexivity|].
      simpl. rewrite <- app_assoc, <- Hk. exact H1.
Qed.

(** The lookup of one name, as the comprehension of [_calculate_shapes]
    does it. *)
Lemma sizes_ok (ds : gmap (list N) nat) (cd : list str) :
  (forall d, In d cd -> is_Some (ds !! d)) ->
  mapM (fun dim => match ds !! dim with
                   | Some n => OK n
                   | None => Raise (KeyError dim)
                   end) cd
  = OK (map (fun d => default 0 (ds !! d)) cd).
Proof.
  intros H. apply mapM_all_ok. intros d Hd.
  destruct (H d Hd) as [n Hn]. rewrite Hn. reflexivity.
Qed.

Lemma calculate_shapes_bound (P : list nat) (ds : gmap (list N) nat)
    (l : list (list str)) :
  (forall d, In d (concat l) -> is_Some (ds !! d)) ->
  _calculate_shapes P ds l
  = OK (map (fun cd => P ++ map (fun d => default 0 (ds !! d)) cd) l).
Proof.
  intros H. unfold _calculate_shapes. apply mapM_all_ok. intros cd Hcd.
  rewrite sizes_ok; [reflexivity|]. intros d Hd. apply H.
  apply in_concat. eauto.
Qed.

Lemma calculate_shapes_unbound (P : list nat) (ds : gmap (list N) nat)
    (l : list (list str)) k1 d k2 :
  concat l = k1 ++ d :: k2 ->
  (forall d', In d' k1 -> is_Some (ds !! d')) -> ds !! d = None ->
  _calculate_shapes P ds l = Raise (KeyError d).
Proof.
  intros Hl Hk Hd.
  destruct (concat_split l k1 d k2 Hl) as (l1 & c1 & c2 & l2 & -> & ->).
  unfold _calculate_shapes. apply mapM_first_raise.
  - intros cd Hcd. rewrite sizes_ok; [cbn [bind]; eauto|].
    intros d' Hd'. apply Hk. apply in_or_app. left.
    apply in_concat. eauto.
  - rewrite (mapM_first_raise _ c1 d c2 (KeyError d)); [reflexivity| |].
    + intros d' Hd'. destruct (Hk d') as [n Hn].
      { apply in_or_app. right; exact Hd'. }
      rewrite Hn. eauto.
    + rewrite Hd. reflexivity.
Qed.

Lemma calculate_shapes_raise (P : list nat) (ds : gmap (list N) nat)
    (l : list (list str)) e :
  _calculate_shapes P ds l = Raise e ->
  exists d, e = KeyError d /\ In d (concat l) /\ ds !! d = None.
Proof.
  intros H. apply mapM_raise_inv in H. destruct H as (cd & Hcd & H).
  destruct (mapM _ cd) as [sizes|e'] eqn:E; [discriminate|].
  cbn [bind] in H. inversion H; subst e'; clear H.
  apply mapM_raise_inv in E. destruct E as (d & Hd & E).
  destruct (ds !! d) eqn:El; [discriminate|]. inversion E; subst.
  exists d. split; [reflexivity|]. split; [|exact El].
  apply in_concat. eauto.
Qed.

(** The errors of the loop over the arguments. *)
Lemma parse_loop_raise (l : list (ndarray V * list str)) :
  forall bs ds e,
    parse_loop bs ds l = Raise e ->
    (exists n cd, e = InsufficientRank n cd) \/
    (exists d size old, e = InconsistentDimension d size old).
Proof.
  induction l as [|[arg cd] l IH]; intros bs ds e H;
    cbn [parse_loop] in H; [discriminate|].
  destruct (Nat.le_gt_cases (length cd) (ndim arg)) as [Hle | Hgt].
  - rewrite update_dim_sizes_ranked in H by exact Hle.
    destruct (update_loop ds _) as [ds1|e'] eqn:E.
    + cbn [bind] in H. eapply IH; eauto.
    + cbn [bind] in H. inversion H; subst. right.
      eapply update_loop_raise; eauto.
  - rewrite update_dim_sizes_unranked in H by exact Hgt.
    inversion H; subst. left; eauto.
Qed.

Lemma parse_input_raise (args : list (ndarray V)) icd e :
  _parse_input_dimensions args icd = Raise e ->
  (exists n cd, e = InsufficientRank n cd) \/
  (exists d size old, e = InconsistentDimension d size old) \/
  (exists shapes, e = BroadcastError shapes).
Proof.
  unfold _parse_input_dimensions. intros H.
  destruct (parse_loop [] ∅ (zip args icd)) as [r|e'] eqn:E.
  - cbn [bind] in H.
    destruct (_broadcast_shape (fst r)) as [R|e''] eqn:Eb;
      [discriminate|].
    cbn [bind] in H. inversion H; subst.
    apply broadcast_shape_raise in Eb. destruct Eb as [-> _]. eauto.
  - cbn [bind] in H. inversion H; subst.
    destruct (parse_loop_raise _ _ _ _ E) as [He | He]; auto.
Qed.

End ShapesFacts.

(** X5. The shapes computed by [_calculate_shapes]: when every name of
    the given lists is in the dictionary, the result has one shape per
    list, the broadcast shape followed by the sizes of the names of the
    list, in order; and when some name is missing, the lookup of the
    first missing one, in reading order, raises [KeyError] for that name.
    No other error is raised. *)
Theorem X5_calculate_shapes (P : list nat) (ds : gmap (list N) nat)
    (l : list (list str)) :
  ((forall d, In d (concat l) -> is_Some (ds !! d)) ->
   _calculate_shapes P ds l
   = OK (map (fun cd => P ++ map (fun d => default 0 (ds !! d)) cd) l)) /\
  (forall k1 d k2,
      concat l = k1 ++ d :: k2 ->
      (forall d', In d' k1 -> is_Some (ds !! d')) -> ds !! d = None ->
      _calculate_shapes P ds l = Raise (KeyError d)) /\
  (forall e, _calculate_shapes P ds l = Raise e ->
             exists d, e = KeyError d /\ In d (concat l) /\
                       ds !! d = None).
Proof.
  split; [|split].
  - apply calculate_shapes_bound.
  - apply calculate_shapes_unbound.
  - apply calculate_shapes_raise.
Qed.

Lemma X5_calculate_shapes_witness :
  _calculate_shapes [7] {[py "n" := 3]} [[py "n"; py "n"]; []]
  = OK [[7; 3; 3]; [7]] /\
  _calculate_shapes [7] {[py "n" := 3]} [[py "n"]; [py "m"; py "k"]]
  = Raise (KeyError (py "m")).
Proof.
  split.
  - refine (proj1 (X5_calculate_shapes [7] {[py "n" := 3]}
                     [[py "n"; py "n"]; []]) _).
    intros d [<- | [<- | []]]; vm_compute; eauto.
  - refine (proj1 (proj2 (X5_calculate_shapes [7] {[py "n" := 3]}
                            [[py "n"]; [py "m"; py "k"]]))
              [py "n"] (py "m") [py "k"] eq_refl _ eq_refl).
    intros d [<- | []]. vm_compute. eauto.
Defined.

(** X6. After the resolver has returned for as many arguments as there
    are declared inputs, [_calculate_shapes] on its result and on the
    declared inputs raises nothing, and the shape it gives for each
    argument is the broadcast shape followed by the trailing entries of
    the argument's own shape. *)
Theorem X6_input_shapes (V : Type) (args : list (ndarray V))
    (icd : list (list str)) (P : list nat) (ds : gmap (list N) nat) :
  length args = length icd ->
  _parse_input_dimensions args icd = OK (P, ds) ->
  _calculate_shapes P ds icd
  = OK (map (fun p => P ++ skipn (ndim (fst p) - length (snd p))
                                 (shape (fst p)))
            (zip args icd)).
Proof.
  intros Hl H.
  destruct (parse_input_ok_inv _ _ _ _ H) as (Hr & _ & _ & Hds & _).
  apply (calculate_shapes_ok P ds args icd Hl Hr).
  intros d size Hin. apply Hds. exact Hin.
Qed.

Lemma X6_input_shapes_witness :
  _parse_input_dimensions [ones_1_3; ones_4] [[py "n"]; []]
  = OK ([4], {[py "n" := 3]}) /\
  _calculate_shapes [4] {[py "n" := 3]} [[py "n"]; []]
  = OK [[4; 3]; [4]].
Proof.
  assert (H : _parse_input_dimensions [ones_1_3; ones_4] [[py "n"]; []]
              = OK ([4], {[py "n" := 3]}))
    by (vm_compute; reflexivity).
  split; [exact H|].
  exact (X6_input_shapes Z [ones_1_3; ones_4] [[py "n"]; []] _ _
           eq_refl H).
Defined.

(** X7. The errors of [broadcast_with_core_dims]. With a wrong number of
    arguments it raises the error of the arity, before any shape is
    looked at. With the right number it raises exactly when the resolver
    raises, and the same error, which is the error of an insufficient
    rank, of an inconsistent dimension, or of prefix shapes that do not
    broadcast: the computation of the shapes and the broadcast of the
    arguments to them never fail. *)
Theorem X7_broadcast_with_core_dims_errors (V : Type)
    (args : list (ndarray V)) (icd ocd : list (list str)) :
  (length args <> length icd ->
   broadcast_with_core_dims args icd ocd
   = Raise (ArityMismatch (length icd) (length args))) /\
  (length args = length icd ->
   (forall e, broadcast_with_core_dims args icd ocd = Raise e
              <-> _parse_input_dimensions args icd = Raise e) /\
   (forall e, broadcast_with_core_dims args icd ocd = Raise e ->
      (exists n cd, e = InsufficientRank n cd) \/
      (exists d size old, e = InconsistentDimension d size old) \/
      (exists shapes, e = BroadcastError shapes))).
Proof.
  split.
  - intros Hne. unfold broadcast_with_core_dims.
    destruct (length args =? length icd) eqn:E;
      [apply Nat.eqb_eq in E; contradiction | reflexivity].
  - intros Hl.
    assert (Hiff : forall e,
               broadcast_with_core_dims args icd ocd = Raise e
               <-> _parse_input_dimensions args icd = Raise e).
    { intros e.
      destruct (_parse_input_dimensions args icd) as [[P ds]|e'] eqn:E.
      - destruct (broadcast_with_core_dims_ok args icd ocd P ds Hl E)
          as (bargs & Hb & _).
        rewrite Hb. split; discriminate.
      - unfold broadcast_with_core_dims. rewrite E, Hl, Nat.eqb_refl.
        cbn [negb bind]. split; intros H; inversion H; reflexivity. }
    split; [exact Hiff|].
    intros e He. apply Hiff in He. eapply parse_input_raise; eauto.
Qed.

Lemma X7_broadcast_with_core_dims_errors_witness :
  length [arange_2_3] <> length [[py "n"]; [py "n"]] /\
  broadcast_with_core_dims [arange_2_3] [[py "n"]; [py "n"]] [[]]
  = Raise (ArityMismatch 2 1).
Proof.
  assert (H : length [arange_2_3] <> length [[py "n"]; [py "n"]])
    by discriminate.
  split; [exact H|].
  exact (proj1 (X7_broadcast_with_core_dims_errors Z [arange_2_3]
                  [[py "n"]; [py "n"]] [[]]) H).
Defined.

(** ** The [axis] argument and the number of arguments *)

Section AxisFacts.

Context {V : Type}.

Lemma zip_surplus {A B} (l l' : list A) (k : list B) :
  length l = length k -> zip (l ++ l') k = zip l k.
Proof.
  revert k. induction l as [|a l IH]; intros [|b k] H;
    try discriminate; simpl.
  - destruct l'; reflexivity.
  - f_equal. apply IH. simpl in H. lia.
Qed.

(** Arguments whose declared groups are all empty are not moved. *)
Lemma reorder_inputs_scalars (args : list (ndarray V)) ax icd :
  Forall (fun g => g = []) icd -> length args = length icd ->
  reorder_inputs args ax icd = OK args.
Proof.
  intros HF. revert args.
  induction HF as [|g icd -> HF IH]; intros [|a args] Hl;
    try discriminate; [reflexivity|].
  unfold reorder_inputs in *. rewrite zip_cons. cbn [mapM fst snd bind].
  rewrite IH by (simpl in Hl; lia). reflexivity.
Qed.

Lemma reorder_outputs_list (l : list (ndarray V)) ax ocd :
  Forall (fun g => g = []) ocd -> length l <= length ocd ->
  mapM (fun p : ndarray V * list str =>
          match snd p with
          | _ :: _ => moveaxis (fst p) (-1) ax
          | [] => OK (fst p)
          end) (zip l ocd) = OK l.
Proof.
  intros HF. revert l.
  induction HF as [|g ocd -> HF IH]; intros [|a l] Hl; try reflexivity.
  - simpl in Hl. lia.
  - rewrite zip_cons. cbn [mapM fst snd bind].
    rewrite IH by (simpl in Hl; lia). reflexivity.
Qed.

(** Outputs whose declared groups are all empty, returned in the form
    that the number of arrays dictates, come back as they are. *)
Lemma reorder_outputs_scalars (v : pyval V) ax ocd :
  Forall (fun g => g = []) ocd ->
  length (outs v) <= length ocd ->
  is_tup v = negb (length (outs v) =? 1) ->
  reorder_outputs v ax ocd = OK v.
Proof.
  intros HF Hl Ht. unfold reorder_outputs.
  destruct v as [a | l]; cbn [outs is_tup] in *.
  - rewrite (reorder_outputs_list [a] ax ocd HF Hl). reflexivity.
  - rewrite (reorder_outputs_list l ax ocd HF Hl). cbn [bind].
    destruct l as [|a [|b l]]; [reflexivity | discriminate | reflexivity].
Qed.

Lemma verify_last_group (icd ocd : list (list str)) :
  ocd <> [] ->
  verify_axis_is_supported icd ocd
  = if 1 <? length (List.last ocd [])
    then Raise AxisNotSupported else OK tt.
Proof.
  intros Hne. destruct (exists_last Hne) as (ocd' & g & ->).
  unfold verify_axis_is_supported. cbv zeta.
  rewrite collect_last_group, last_last. reflexivity.
Qed.

End AxisFacts.

(** X8. For the input and output groups of a signature that the parser
    accepts, neither side is empty. So the check of the [axis] argument
    always finds its loop variable bound, to the last output group, and
    raises nothing but its own error; and when the broadcast of the
    arguments returns there is a first array and a first declared input
    for the wrapper to read the number of batch dimensions from. Called
    with no group at all, the check of the axis fails on its unbound
    variable. *)
Theorem X8_parsed_groups_not_empty :
  (forall (unicode_alnum : N -> bool) (s : str) icd ocd,
      _parse_gufunc_signature unicode_alnum s = OK [icd; ocd] ->
      icd <> [] /\ ocd <> [] /\
      verify_axis_is_supported icd ocd
      = (if 1 <? length (List.last ocd [])
         then Raise AxisNotSupported else OK tt) /\
      forall (V : Type) (args bargs : list (ndarray V)),
        broadcast_with_core_dims args icd ocd = OK bargs ->
        exists a rest c crest, bargs = a :: rest /\ icd = c :: crest) /\
  verify_axis_is_supported [] [] = Raise UnboundLocalError.
Proof.
  split; [|reflexivity].
  intros unicode_alnum s icd ocd H. apply parse_ok_inv in H.
  destruct H as (ins & outs & Heq & (Hi & _) & (Ho & _) & _).
  inversion Heq; subst ins outs; clear Heq.
  split; [exact Hi|]. split; [exact Ho|].
  split; [apply verify_last_group; exact Ho|].
  intros V args bargs Hb.
  destruct (broadcast_with_core_dims_inv _ _ _ _ Hb)
    as (_ & P & ds & _ & HF).
  destruct HF as [|a c rest crest _ _]; [congruence|].
  exists a, rest, c, crest. split; reflexivity.
Qed.

Lemma X8_parsed_groups_not_empty_witness :
  _parse_gufunc_signature no_unicode (py "(n)->(),(n)")
  = OK [[[py "n"]]; [[]; [py "n"]]] /\
  verify_axis_is_supported [[py "n"]] [[]; [py "n"]] = OK tt.
Proof.
  assert (H : _parse_gufunc_signature no_unicode (py "(n)->(),(n)")
              = OK [[[py "n"]]; [[]; [py "n"]]])
    by (vm_compute; reflexivity).
  split; [exact H|].
  exact (proj1 (proj2 (proj2 (proj1 X8_parsed_groups_not_empty
                                no_unicode _ _ _ H)))).
Defined.

(** X9. Surplus positional arguments. In a call without [axis] they
    are refused with the error of the arity. In a call with [axis] they
    are dropped without notice: the reordering of the inputs pairs the
    arguments with the declared inputs and keeps the pairs only, so the
    call behaves as the call without the surplus arguments. *)
Theorem X9_surplus_arguments (V : Type) (icd ocd : list (list str))
    (func : list (ndarray V) -> result (pyval V))
    (args extra : list (ndarray V)) :
  length args = length icd ->
  (forall ax, wrapper icd ocd func (args ++ extra) (Some ax)
              = wrapper icd ocd func args (Some ax)) /\
  (extra <> [] ->
   wrapper icd ocd func (args ++ extra) None
   = Raise (ArityMismatch (length icd) (length args + length extra))).
Proof.
  intros Hl. split.
  - intros ax. unfold wrapper, reorder_inputs.
    rewrite zip_surplus by exact Hl. reflexivity.
  - intros Hne. unfold wrapper. cbn [bind].
    unfold broadcast_with_core_dims. rewrite length_app.
    destruct (length args + length extra =? length icd) eqn:E.
    + apply Nat.eqb_eq in E. destruct extra; [contradiction|].
      simpl in E. lia.
    + reflexivity.
Qed.

Lemma X9_surplus_arguments_witness :
  wrapper [[py "n"]] [[]] sum3 ([arange_2_3] ++ [ones_4]) (Some 1%Z)
  = wrapper [[py "n"]] [[]] sum3 [arange_2_3] (Some 1%Z) /\
  wrapper [[py "n"]] [[]] sum3 ([arange_2_3] ++ [ones_4]) None
  = Raise (ArityMismatch 1 2).
Proof.
  split.
  - exact (proj1 (X9_surplus_arguments Z [[py "n"]] [[]] sum3
                    [arange_2_3] [ones_4] eq_refl) 1%Z).
  - refine (proj2 (X9_surplus_arguments Z [[py "n"]] [[]] sum3
                     [arange_2_3] [ones_4] eq_refl) _).
    discriminate.
Defined.

(** X10. For a signature without any core dimension, such as
    [(),()->()], the [axis] argument is accepted and ignored, whatever
    its value: when the call without [axis] returns its outputs in the
    form that their number dictates (a bare array for one, a tuple
    otherwise, and no more arrays than declared outputs), the call with
    any [axis], in range or not, returns the same. *)
Theorem X10_axis_ignored_without_core_dims (V : Type)
    (icd ocd : list (list str))
    (func : list (ndarray V) -> result (pyval V))
    (args : list (ndarray V)) (v : pyval V) (ax : Z) :
  Forall (fun g => g = []) icd -> Forall (fun g => g = []) ocd ->
  ocd <> [] -> length args = length icd ->
  wrapper icd ocd func args None = OK v ->
  length (outs v) <= length ocd ->
  is_tup v = negb (length (outs v) =? 1) ->
  wrapper icd ocd func args (Some ax) = OK v.
Proof.
  intros Hi Ho Hne Hl H Hlen Ht. unfold wrapper in *.
  rewrite verify_last_group by exact Hne.
  assert (Hlast : List.last ocd [] = []).
  { destruct (exists_last Hne) as (ocd' & g & ->). rewrite last_last.
    apply Forall_app in Ho. destruct Ho as [_ Hg].
    inversion Hg; subst; reflexivity. }
  rewrite Hlast. cbn [length Nat.ltb Nat.leb bind].
  rewrite (reorder_inputs_scalars args ax icd Hi Hl).
  cbn [bind] in *.
  destruct (broadcast_with_core_dims args icd ocd) as [bargs|e];
    [|discriminate].
  cbn [bind] in *.
  destruct (match bargs with
            | [] => Raise IndexError
            | a :: _ =>
                match icd with
                | [] => Raise IndexError
                | c :: _ =>
                    OK (Z.of_nat (length (shape a))
                        - Z.of_nat (length c))%Z
                end
            end) as [n|e]; [|discriminate].
  cbn [bind] in *.
  destruct (Nat.iter (Z.to_nat n) vmap func bargs) as [r|e];
    [|discriminate].
  cbn [bind] in *. inversion H; subst r.
  apply reorder_outputs_scalars; assumption.
Qed.

Lemma X10_axis_ignored_without_core_dims_witness :
  wrapper [[]] [[]] const_scalar [scalar_0] (Some 7%Z)
  = OK (Arr scalar_0).
Proof.
  refine (X10_axis_ignored_without_core_dims Z [[]] [[]] const_scalar
            [scalar_0] (Arr scalar_0) 7 _ _ _ eq_refl eq_refl _ eq_refl).
  - repeat constructor.
  - repeat constructor.
  - discriminate.
  - simpl. lia.
Defined.

(** X11. The form of what [reorder_outputs] returns. The outputs are
    paired with the declared output groups and only the pairs are kept,
    so outputs beyond the declared groups are dropped; the result is a
    bare array when exactly one array is left, also when the core
    function returned a tuple of one, and a tuple otherwise; and an
    output whose declared group is empty is returned as it is. *)
Theorem X11_reorder_outputs_form (V : Type) (res v : pyval V) (ax : Z)
    (ocd : list (list str)) :
  reorder_outputs res ax ocd = OK v ->
  length (outs v) = Nat.min (length (outs res)) (length ocd) /\
  is_tup v = negb (length (outs v) =? 1) /\
  (forall i a, ocd !! i = Some [] -> outs res !! i = Some a ->
               outs v !! i = Some a).
Proof.
  unfold reorder_outputs. intros H.
  assert (Ho : outs res = match res with Tup l => l | Arr a => [a] end)
    by (destruct res; reflexivity).
  rewrite <- Ho in H.
  destruct (mapM _ (zip (outs res) ocd)) as [r|e] eqn:E; [|discriminate].
  cbn [bind] in H. apply mapM_ok_Forall2 in E.
  assert (Hv : outs v = r).
  { destruct r as [|a [|b r]]; inversion H; reflexivity. }
  split; [|split].
  - rewrite Hv, <- (Forall2_length _ _ _ E), length_zip_with.
    reflexivity.
  - destruct r as [|a [|b r]]; inversion H; reflexivity.
  - intros i a Hg Ha. rewrite Hv.
    assert (Hz : zip (outs res) ocd !! i = Some (a, [])).
    { apply lookup_zip_with_Some. eauto. }
    destruct (Forall2_lookup_l _ _ _ _ _ E Hz) as (y & Hy & Hf).
    cbn [fst snd] in Hf. inversion Hf; subst. exact Hy.
Qed.

Lemma X11_reorder_outputs_form_witness :
  reorder_outputs (Tup [scalar_0; ones_4]) 0 [[]] = OK (Arr scalar_0) /\
  is_tup (Arr scalar_0) = negb (length (outs (Arr scalar_0)) =? 1).
Proof.
  assert (H : reorder_outputs (Tup [scalar_0; ones_4]) 0 [[]]
              = OK (Arr scalar_0)) by reflexivity.
  split; [exact H|].
  exact (proj1 (proj2 (X11_reorder_outputs_form Z _ _ _ _ H))).
Defined.

(** ** Moving an axis to the end and back *)

Section MoveFacts.

Context {V : Type}.

Lemma normalize_axis_lt (axis : Z) (n s : nat) :
  normalize_axis axis n = OK s -> s < n.
Proof.
  unfold normalize_axis.
  destruct ((- Z.of_nat n <=? axis) && (axis <? Z.of_nat n))%Z eqn:E;
    [|discriminate].
  intros H. inversion H; subst; clear H.
  apply andb_true_iff in E. destruct E as [E1 E2].
  apply Z.leb_le in E1. apply Z.ltb_lt in E2.
  assert (Hn : (0 < Z.of_nat n)%Z) by lia.
  pose proof (Z.mod_pos_bound axis (Z.of_nat n) Hn). lia.
Qed.

Lemma normalize_axis_last (n : nat) :
  0 < n -> normalize_axis (-1) n = OK (n - 1).
Proof.
  intros Hn. unfold normalize_axis.
  destruct ((- Z.of_nat n <=? -1) && (-1 <? Z.of_nat n))%Z eqn:E.
  - f_equal.
    assert (Hm : ((-1) mod Z.of_nat n = Z.of_nat n - 1)%Z).
    { symmetry. apply (Z.mod_unique_pos _ _ (-1)); lia. }
    rewrite Hm. lia.
  - apply andb_false_iff in E. destruct E as [E | E].
    + apply Z.leb_gt in E. lia.
    + apply Z.ltb_ge in E. lia.
Qed.

Lemma length_remove_at {A} (s : nat) (l : list A) :
  s < length l -> length (remove_at s l) = length l - 1.
Proof.
  intros H. unfold remove_at.
  rewrite length_app, length_firstn, length_skipn. lia.
Qed.

Lemma length_insert_at {A} (s : nat) (x : A) (l : list A) :
  length (insert_at s x l) = S (length l).
Proof.
  unfold insert_at. rewrite length_app. cbn [length].
  rewrite length_firstn, length_skipn. lia.
Qed.

Lemma insert_at_end {A} (x : A) (l : list A) :
  insert_at (length l) x l = l ++ [x].
Proof.
  unfold insert_at. rewrite firstn_all, skipn_all. reflexivity.
Qed.

Lemma remove_at_end {A} (x : A) (l : list A) :
  remove_at (length l) (l ++ [x]) = l.
Proof.
  unfold remove_at.
  rewrite firstn_app, Nat.sub_diag, firstn_all, firstn_O, app_nil_r.
  rewrite skipn_all2; [apply app_nil_r|].
  rewrite length_app. simpl. lia.
Qed.

Lemma insert_remove_at {A} (s : nat) (d : A) (l : list A) :
  s < length l -> insert_at s (nth s l d) (remove_at s l) = l.
Proof.
  intros H. unfold insert_at, remove_at.
  rewrite firstn_app, length_firstn.
  replace (s - Nat.min s (length l)) with 0 by lia.
  rewrite firstn_O, app_nil_r, firstn_firstn.
  replace (Nat.min s s) with s by lia.
  rewrite skipn_app, length_firstn.
  replace (s - Nat.min s (length l)) with 0 by lia.
  rewrite skipn_O, skipn_firstn_comm, Nat.sub_diag, firstn_O.
  cbn [app].
  rewrite <- (firstn_skipn s l) at 4. f_equal.
  clear -H. revert l H. induction s as [|s IH]; intros [|a l] H;
    simpl in H; try lia; [reflexivity|].
  cbn [nth skipn]. apply IH. lia.
Qed.

(** To the last position and back. *)
Lemma move_back {A} (s : nat) (d : A) (l : list A) :
  s < length l ->
  let j := insert_at (length l - 1) (nth s l d) (remove_at s l) in
  insert_at s (nth (length l - 1) j d) (remove_at (length l - 1) j) = l.
Proof.
  intros H j.
  assert (Hr : length (remove_at s l) = length l - 1)
    by (apply length_remove_at; exact H).
  assert (Hj : j = remove_at s l ++ [nth s l d]).
  { unfold j. rewrite <- Hr. apply insert_at_end. }
  rewrite Hj. rewrite <- Hr at 1 2.
  rewrite remove_at_end, app_nth2, Nat.sub_diag by lia.
  cbn [nth]. apply insert_remove_at. exact H.
Qed.

Lemma moveaxis_back (a a' : ndarray V) (axis : Z) :
  moveaxis a axis (-1) = OK a' ->
  exists a'',
    moveaxis a' (-1) axis = OK a'' /\
    shape a'' = shape a /\
    forall idx, length idx = ndim a -> item a'' idx = item a idx.
Proof.
  unfold moveaxis. intros H.
  destruct (normalize_axis axis (ndim a)) as [s|e] eqn:Es; [|discriminate].
  cbn [bind] in H. pose proof (normalize_axis_lt _ _ _ Es) as Hs.
  rewrite normalize_axis_last in H by lia. cbn [bind] in H.
  inversion H; subst a'; clear H.
  assert (Hn : ndim (mk_ndarray
                       (insert_at (ndim a - 1) (nth s (shape a) 0)
                          (remove_at s (shape a)))
                       (fun idx => item a
                          (insert_at s (nth (ndim a - 1) idx 0)
                             (remove_at (ndim a - 1) idx))))
               = ndim a).
  { unfold ndim in *. cbn [shape].
    rewrite length_insert_at, length_remove_at by exact Hs. lia. }
  rewrite Hn, normalize_axis_last, Es by lia. cbn [bind shape item].
  eexists. split; [reflexivity|]. cbn [shape item]. split.
  - apply (move_back s 0 (shape a)). exact Hs.
  - intros idx Hidx. f_equal. unfold ndim in *. rewrite <- Hidx.
    apply (move_back s 0 idx). lia.
Qed.

Lemma reorder_back (args args' : list (ndarray V)) (axis : Z)
    (icd : list (list str)) :
  length args = length icd ->
  reorder_inputs args axis icd = OK args' ->
  exists l,
    mapM (fun p : ndarray V * list str =>
            match snd p with
            | _ :: _ => moveaxis (fst p) (-1) axis
            | [] => OK (fst p)
            end) (zip args' icd) = OK l /\
    Forall2 (fun a b => shape b = shape a /\
                        forall idx, length idx = ndim a ->
                                    item b idx = item a idx) args l.
Proof.
  unfold reorder_inputs. revert args' icd.
  induction args as [|a args IH]; intros args' [|cd icd] Hl H;
    try discriminate.
  - inversion H; subst. exists []. split; [reflexivity | constructor].
  - rewrite zip_cons in H. cbn [mapM fst snd] in H.
    destruct (match cd with
              | [] => OK a
              | _ :: _ => moveaxis a axis (-1)
              end) as [a'|e] eqn:Ea; [|discriminate].
    cbn [bind] in H.
    destruct (mapM _ (zip args icd)) as [rest|e] eqn:Er; [|discriminate].
    cbn [bind] in H. inversion H; subst args'; clear H.
    destruct (IH rest icd) as (l & Hm & HF);
      [simpl in Hl; lia | exact Er |].
    rewrite zip_cons. cbn [mapM fst snd]. rewrite Hm.
    destruct cd as [|d cd].
    + inversion Ea; subst a'. cbn [bind]. eexists.
      split; [reflexivity|]. constructor; [|exact HF]. split; reflexivity.
    + destruct (moveaxis_back a a' axis Ea) as (a'' & Hb & Hsh & Hit).
      rewrite Hb. cbn [bind]. eexists. split; [reflexivity|].
      constructor; [|exact HF]. split; assumption.
Qed.

End MoveFacts.

(** X12. The two reorderings undo each other. When the reordering of
    the inputs for an axis returns, the reordering of outputs applied,
    for the same axis and the same groups, to the arrays it returned
    gives arrays of the shapes of the original arguments, with the same
    item at every index: an axis moved to the last position is moved
    back to where it was, and an array whose group is empty is not moved
    either way. *)
Theorem X12_reorder_round_trip (V : Type) (args args' : list (ndarray V))
    (axis : Z) (icd : list (list str)) :
  length args = length icd ->
  reorder_inputs args axis icd = OK args' ->
  exists back,
    reorder_outputs (Tup args') axis icd = OK back /\
    Forall2 (fun a b => shape b = shape a /\
                        forall idx, length idx = ndim a ->
                                    item b idx = item a idx)
            args (outs back).
Proof.
  intros Hl H.
  destruct (reorder_back args args' axis icd Hl H) as (l & Hm & HF).
  unfold reorder_outputs. rewrite Hm. cbn [bind].
  eexists. split; [reflexivity|].
  destruct l as [|a [|b l]]; exact HF.
Qed.

Lemma X12_reorder_round_trip_witness :
  exists args' back,
    reorder_inputs [arange_2_3; scalar_0] 0 [[py "n"]; []] = OK args' /\
    reorder_outputs (Tup args') 0 [[py "n"]; []] = OK back /\
    map shape (outs back) = [[2; 3]; []].
Proof.
  destruct (reorder_inputs [arange_2_3; scalar_0] 0 [[py "n"]; []])
    as [args'|e] eqn:E; [|vm_compute in E; discriminate].
  destruct (X12_reorder_round_trip Z [arange_2_3; scalar_0] args' 0
              [[py "n"]; []] eq_refl E) as (back & Hb & HF).
  exists args', back. split; [reflexivity|]. split; [exact Hb|].
  remember (outs back) as l eqn:El. clear El.
  inversion HF as [|a1 b1 l1 k1 [H1 _] HF1]; subst.
  inversion HF1 as [|a2 b2 l2 k2 [H2 _] HF2]; subst.
  inversion HF2; subst. simpl. rewrite H1, H2. reflexivity.
Defined.

(** ** The characters of a signature *)

Section AlphabetFacts.

Variable unicode_alnum : N -> bool.


End AlphabetFacts.



(** ** A reduction along an axis *)

Section ReductionFacts.

Context {V : Type}.

Lemma normalize_axis_ok (axis : Z) (n : nat) :
  (- Z.of_nat n <= axis < Z.of_nat n)%Z ->
  normalize_axis axis n = OK (Z.to_nat (axis mod Z.of_nat n)).
Proof.
  intros [H1 H2]. unfold normalize_axis.
  apply Z.leb_le in H1. apply Z.ltb_lt in H2. rewrite H1, H2. reflexivity.
Qed.

(** The call with an axis is the call without, between the two
    reorderings. *)
Lemma wrapper_axis icd ocd (func : list (ndarray V) -> result (pyval V))
    args ax :
  wrapper icd ocd func args (Some ax)
  = (_ <- verify_axis_is_supported icd ocd ;;
     args' <- reorder_inputs args ax icd ;;
     r <- wrapper icd ocd func args' None ;;
     reorder_outputs r ax ocd).
Proof.
  unfold wrapper.
  destruct (verify_axis_is_supported icd ocd); [|reflexivity].
  cbn [bind].
  destruct (reorder_inputs args ax icd) as [args'|e]; [|reflexivity].
  cbn [bind].
  destruct (broadcast_with_core_dims args' icd ocd) as [bargs|e];
    [|reflexivity].
  cbn [bind].
  destruct (match bargs with
            | [] => Raise IndexError
            | a :: _ =>
                match icd with
                | [] => Raise IndexError
                | c :: _ =>
                    OK (Z.of_nat (length (shape a))
                        - Z.of_nat (length c))%Z
                end
            end) as [n|e]; [|reflexivity].
  cbn [bind].
  destruct (Nat.iter (Z.to_nat n) vmap func bargs); reflexivity.
Qed.

(** The array with the axis [a] moved to the last position. *)
Lemma moveaxis_last (X : ndarray V) (ax : Z) (a : nat) :
  normalize_axis ax (ndim X) = OK a ->
  moveaxis X ax (-1)
  = OK (mk_ndarray
          (remove_at a (shape X) ++ [nth a (shape X) 0])
          (fun idx => item X (insert_at a (nth (ndim X - 1) idx 0)
                                (remove_at (ndim X - 1) idx)))).
Proof.
  intros Ha. pose proof (normalize_axis_lt _ _ _ Ha) as Hlt.
  unfold moveaxis. rewrite Ha, normalize_axis_last by lia.
  cbn [bind]. do 2 f_equal.
  rewrite <- insert_at_end. f_equal.
  unfold ndim in *. rewrite length_remove_at by exact Hlt. reflexivity.
Qed.

(** The items of the broadcast arguments are those of the arguments. *)
Lemma broadcast_with_core_dims_items (args bargs : list (ndarray V))
    icd ocd :
  broadcast_with_core_dims args icd ocd = OK bargs ->
  Forall2 (fun b a => forall idx,
             item b idx = item a (source_index (shape a) idx))
          bargs args.
Proof.
  unfold broadcast_with_core_dims.
  destruct (length args =? length icd) eqn:El; [|discriminate].
  apply Nat.eqb_eq in El. cbn [negb].
  destruct (_parse_input_dimensions args icd) as [r|e]; [|discriminate].
  cbn [bind].
  destruct (_calculate_shapes (fst r) (snd r) icd) as [shapes|e] eqn:Ec;
    [|discriminate].
  cbn [bind]. apply calculate_shapes_inv in Ec.
  apply Forall2_length in Ec. rewrite <- Ec in El. clear -El.
  revert bargs shapes El.
  induction args as [|a args IH]; intros bargs [|sh shapes] El H;
    try discriminate.
  - inversion H. constructor.
  - rewrite zip_cons in H. cbn [mapM fst snd] in H.
    unfold broadcast_to at 1 in H.
    destruct (broadcastable_rev (rev (shape a)) (rev sh));
      [|discriminate].
    cbn [bind] in H.
    destruct (mapM _ (zip args shapes)) as [rest|e] eqn:E;
      [|discriminate].
    cbn [bind] in H. inversion H; subst. constructor.
    + intros idx. reflexivity.
    + eapply IH; [|exact E]. simpl in El. lia.
Qed.

Lemma broadcasts_single (P : list nat) : Broadcasts [P] P.
Proof.
  apply broadcast_shape_ok. unfold _broadcast_shape. cbn [foldl].
  unfold broadcast_pair. cbn [rev broadcast_rev].
  rewrite rev_involutive. reflexivity.
Qed.

Lemma source_index_same (s idx : list nat) :
  Forall2 lt idx s -> source_index s idx = idx.
Proof.
  intros H. unfold source_index.
  rewrite (Forall2_length _ _ _ H), Nat.sub_diag, skipn_O.
  induction H as [|i d idx s Hlt H IH]; [reflexivity|].
  cbn [zip_with]. rewrite IH. f_equal.
  destruct (d =? 1) eqn:E; [|reflexivity].
  apply Nat.eqb_eq in E. lia.
Qed.

End ReductionFacts.

Section LaneFacts.

Context {V : Type}.

(** A call without [axis] on one argument with one core dimension, the
    last: the core function is applied to every lane along the last
    axis. *)
Lemma core_shape_eq (X : ndarray V) (P C : list nat) (cd : list str) :
  shape X = P ++ C -> length C = length cd ->
  core_shape_of X cd = C /\ prefix_shape_of X cd = P.
Proof.
  destruct X as [sX gX]. cbn [shape]. intros -> H.
  split; [apply core_shape_app | apply prefix_shape_app]; exact H.
Qed.

Lemma lanes_call (d : str) (ocd : list (list str))
    (func : list (ndarray V) -> result (pyval V)) (X : ndarray V)
    (P : list nat) (n : nat) (C : list nat) :
  shape X = P ++ [n] ->
  (forall xs, map shape xs = [[n]] ->
              exists y, func xs = OK (Arr y) /\ shape y = C) ->
  exists r,
    wrapper [[d]] ocd func [X] None = OK (Arr r) /\
    shape r = P ++ C /\
    forall p, in_bounds p P ->
      exists lane y,
        func [lane] = OK (Arr y) /\
        shape lane = [n] /\
        (forall j, j < n -> item lane [j] = item X (p ++ [j])) /\
        (forall idx, item r (p ++ idx) = item y idx).
Proof.
  intros HX Hf.
  destruct (core_shape_eq X P [n] [d] HX eq_refl) as [Hcore Hpre].
  assert (Hr : ranks_ok (zip [X] [[d]])).
  { repeat constructor. cbn [fst snd]. unfold ndim. rewrite HX.
    rewrite length_app. simpl. lia. }
  assert (Hc : consistent (core_pairs (zip [X] [[d]]))).
  { unfold core_pairs. cbn [zip zip_with map concat fst snd].
    rewrite Hcore. intros d' s1 s2 [H1 | []] [H2 | []]. congruence. }
  assert (HB : Broadcasts (prefixes (zip [X] [[d]])) P).
  { unfold prefixes. cbn [zip zip_with map fst snd]. rewrite Hpre.
    apply broadcasts_single. }
  destruct (parse_input_broadcasts [X] [[d]] P Hr Hc HB) as [ds Hp].
  destruct (broadcast_with_core_dims_ok [X] [[d]] ocd P ds eq_refl Hp)
    as (bargs & Hb & HF).
  pose proof (broadcast_with_core_dims_items _ _ _ _ Hb) as Hit.
  pose proof (Forall2_length _ _ _ HF) as Hlen.
  destruct bargs as [|b [|b' bs]]; try discriminate Hlen.
  apply Forall2_cons_1 in HF. destruct HF as [Hsb _].
  apply Forall2_cons_1 in Hit. destruct Hit as [Hib _].
  unfold target_shape in Hsb. cbn [fst snd] in Hsb. rewrite Hcore in Hsb.
  assert (HF' : Forall2 (fun b cd => exists C, shape b = P ++ C
                                               /\ length C = length cd)
                        [b] [[d]]).
  { repeat constructor. exists [n]. split; [exact Hsb | reflexivity]. }
  assert (Hw : wrapper [[d]] ocd func [X] None
               = Nat.iter (length P) vmap func [b]).
  { apply (wrapper_none [[d]] ocd func [X] [b] P);
      [discriminate | exact Hb | exact HF']. }
  destruct (iter_vmap_ok func false [C] P [b] [[n]])
    as (res & Hres & Ht & Hs).
  { discriminate. }
  { repeat constructor. exact Hsb. }
  { intros xs Hxs. destruct (Hf xs Hxs) as (y & Hy & Hsy).
    exists (Arr y). split; [exact Hy|]. split; [reflexivity|].
    simpl. rewrite Hsy. reflexivity. }
  destruct res as [r|l]; [|discriminate]. cbn [outs map] in Hs.
  assert (Hsr : shape r = P ++ C) by congruence.
  exists r. split; [rewrite Hw; exact Hres|]. split; [exact Hsr|].
  intros p Hp'.
  destruct (iter_vmap_at func P [b] (Arr r)) with (p := p)
    as (v & Hv & Hat); [| exact Hres | exact Hp' |].
  { repeat constructor. eauto. }
  cbn [map] in Hv.
  assert (Hlp : length p = length P) by (eapply Forall2_length; eauto).
  assert (Hsl : shape (slice_at p b) = [n]).
  { unfold slice_at. cbn [shape]. rewrite Hsb, Hlp, skipn_app.
    rewrite Nat.sub_diag, skipn_all. reflexivity. }
  destruct (Hf [slice_at p b]) as (y & Hy & Hsy).
  { cbn [map]. rewrite Hsl. reflexivity. }
  rewrite Hy in Hv. injection Hv as <-.
  exists (slice_at p b), y. split; [exact Hy|]. split; [exact Hsl|].
  split.
  - intros j Hj. unfold slice_at. cbn [item]. rewrite Hib, HX.
    rewrite source_index_same; [reflexivity|].
    apply Forall2_app; [exact Hp' | repeat constructor; exact Hj].
  - destruct Hat as [_ Hat]. cbn [outs] in Hat.
    apply Forall2_cons_1 in Hat. destruct Hat as [[_ Hi] _]. exact Hi.
Qed.

Lemma nth_insert_at {A} (a : nat) (x d : A) (l : list A) :
  a <= length l -> nth a (insert_at a x l) d = x.
Proof.
  intros H. unfold insert_at.
  rewrite app_nth2; rewrite length_firstn;
    replace (Nat.min a (length l)) with a by lia; [|lia].
  rewrite Nat.sub_diag. reflexivity.
Qed.

Lemma remove_insert_at {A} (a : nat) (x : A) (l : list A) :
  a <= length l -> remove_at a (insert_at a x l) = l.
Proof.
  intros H. unfold remove_at, insert_at.
  rewrite firstn_app, length_firstn.
  replace (a - Nat.min a (length l)) with 0 by lia.
  rewrite firstn_O, app_nil_r, firstn_firstn.
  replace (Nat.min a a) with a by lia.
  rewrite skipn_app, length_firstn.
  replace (S a - Nat.min a (length l)) with 1 by lia.
  rewrite (skipn_all2 (n := S a)) by (rewrite length_firstn; lia).
  cbn [skipn app]. rewrite skipn_O. apply firstn_skipn.
Qed.

End LaneFacts.

(** X14. A reduction along an axis. For a signature with one input of
    one core dimension and one output without any, such as [(n)->()], a
    core function that returns a scalar for every vector, an array [X]
    and an axis number in range, which names the axis [a]: the call with
    that axis returns a bare array whose shape is the shape of [X]
    without its entry [a], and whose item at an index [p] is what the
    core function returns on the lane of [X] along the axis [a] at [p],
    the vector that holds the items of [X] at [p] with [j] put at
    position [a]. *)
Theorem X14_reduction_along_axis (V : Type) (d : str)
    (func : list (ndarray V) -> result (pyval V)) (X : ndarray V)
    (ax : Z) :
  (- Z.of_nat (ndim X) <= ax < Z.of_nat (ndim X))%Z ->
  let a := Z.to_nat (ax mod Z.of_nat (ndim X)) in
  let n := nth a (shape X) 0 in
  (forall xs, map shape xs = [[n]] ->
              exists y, func xs = OK (Arr y) /\ shape y = []) ->
  exists r,
    wrapper [[d]] [[]] func [X] (Some ax) = OK (Arr r) /\
    shape r = remove_at a (shape X) /\
    forall p, in_bounds p (remove_at a (shape X)) ->
      exists lane y,
        func [lane] = OK (Arr y) /\
        shape lane = [n] /\
        (forall j, j < n -> item lane [j] = item X (insert_at a j p)) /\
        item r p = item y [].
Proof.
  intros Hax a n Hf.
  pose proof (normalize_axis_ok ax (ndim X) Hax) as Ha. fold a in Ha.
  pose proof (normalize_axis_lt _ _ _ Ha) as Hlt.
  set (P := remove_at a (shape X)).
  assert (HlP : length P = ndim X - 1).
  { unfold P, ndim in *. apply length_remove_at. exact Hlt. }
  set (X' := mk_ndarray (P ++ [n])
               (fun idx => item X (insert_at a (nth (ndim X - 1) idx 0)
                                     (remove_at (ndim X - 1) idx)))).
  assert (Hre : reorder_inputs [X] ax [[d]] = OK [X']).
  { unfold reorder_inputs. cbn [zip zip_with mapM fst snd].
    rewrite (moveaxis_last X ax a Ha). reflexivity. }
  destruct (lanes_call d [[]] func X' P n [] eq_refl Hf)
    as (r & Hw & Hsr & Hlanes).
  rewrite app_nil_r in Hsr.
  exists r. split; [|split; [exact Hsr|]].
  - rewrite wrapper_axis.
    change (verify_axis_is_supported [[d]] [[]]) with (@OK unit tt).
    cbn [bind]. rewrite Hre. cbn [bind]. rewrite Hw. reflexivity.
  - intros p Hp. destruct (Hlanes p Hp) as (lane & y & Hy & Hsl & Hl & Hi).
    assert (Hlp : length p = length P) by (eapply Forall2_length; eauto).
    exists lane, y. split; [exact Hy|]. split; [exact Hsl|]. split.
    + intros j Hj. rewrite (Hl j Hj). cbn [item X'].
      rewrite <- HlP, <- Hlp.
      rewrite app_nth2, Nat.sub_diag, remove_at_end by lia. reflexivity.
    + rewrite <- (Hi []), app_nil_r. reflexivity.
Qed.

Lemma X14_reduction_along_axis_witness :
  exists r,
    wrapper [[py "n"]] [[]] (mean_core Qmean) [arange_3_4] (Some 0%Z)
    = OK (Arr r) /\
    shape r = [4].
Proof.
  destruct (X14_reduction_along_axis Q (py "n") (mean_core Qmean)
              arange_3_4 0) as (r & Hr & Hs & _).
  - unfold ndim. simpl. lia.
  - intros [|x [|x' xs]] Hxs; try discriminate.
    eexists. split; reflexivity.
  - exists r. split; [exact Hr | exact Hs].
Defined.

(** X15. A map along an axis. For a signature with one input and one
    output of one core dimension each, such as [(n)->(n)], a core
    function that returns a vector of [c] items for every vector, an
    array [X] and an axis number in range, which names the axis [a]: the
    call with that axis returns a bare array whose shape is the shape of
    [X] with [c] in place of its entry [a]; and the lane of the result
    along the axis [a] at an index [p] is what the core function returns
    on the lane of [X] along that axis at [p]. *)
Theorem X15_map_along_axis (V : Type) (d d' : str)
    (func : list (ndarray V) -> result (pyval V)) (X : ndarray V)
    (ax : Z) (c : nat) :
  (- Z.of_nat (ndim X) <= ax < Z.of_nat (ndim X))%Z ->
  let a := Z.to_nat (ax mod Z.of_nat (ndim X)) in
  let n := nth a (shape X) 0 in
  (forall xs, map shape xs = [[n]] ->
              exists y, func xs = OK (Arr y) /\ shape y = [c]) ->
  exists r,
    wrapper [[d]] [[d']] func [X] (Some ax) = OK (Arr r) /\
    shape r = insert_at a c (remove_at a (shape X)) /\
    forall p, in_bounds p (remove_at a (shape X)) ->
      exists lane y,
        func [lane] = OK (Arr y) /\
        shape lane = [n] /\
        (forall j, j < n -> item lane [j] = item X (insert_at a j p)) /\
        (forall j, item r (insert_at a j p) = item y [j]).
Proof.
  intros Hax a n Hf.
  pose proof (normalize_axis_ok ax (ndim X) Hax) as Ha. fold a in Ha.
  pose proof (normalize_axis_lt _ _ _ Ha) as Hlt.
  set (P := remove_at a (shape X)).
  assert (HlP : length P = ndim X - 1).
  { unfold P, ndim in *. apply length_remove_at. exact Hlt. }
  set (X' := mk_ndarray (P ++ [n])
               (fun idx => item X (insert_at a (nth (ndim X - 1) idx 0)
                                     (remove_at (ndim X - 1) idx)))).
  assert (Hre : reorder_inputs [X] ax [[d]] = OK [X']).
  { unfold reorder_inputs. cbn [zip zip_with mapM fst snd].
    rewrite (moveaxis_last X ax a Ha). reflexivity. }
  destruct (lanes_call d [[d']] func X' P n [c] eq_refl Hf)
    as (r0 & Hw & Hsr & Hlanes).
  assert (Hn0 : ndim r0 = ndim X).
  { unfold ndim in *. rewrite Hsr, length_app. simpl. lia. }
  set (r := mk_ndarray
              (insert_at a (nth (ndim X - 1) (shape r0) 0)
                 (remove_at (ndim X - 1) (shape r0)))
              (fun idx => item r0 (insert_at (ndim X - 1) (nth a idx 0)
                                     (remove_at a idx)))).
  assert (Hback : reorder_outputs (Arr r0) ax [[d']] = OK (Arr r)).
  { unfold reorder_outputs. cbn [zip zip_with mapM fst snd].
    unfold moveaxis. rewrite Hn0, normalize_axis_last, Ha by lia.
    reflexivity. }
  exists r. split; [|split].
  - rewrite wrapper_axis.
    change (verify_axis_is_supported [[d]] [[d']]) with (@OK unit tt).
    cbn [bind]. rewrite Hre. cbn [bind]. rewrite Hw. cbn [bind].
    exact Hback.
  - unfold r. cbn [shape]. rewrite Hsr, <- HlP.
    rewrite app_nth2, Nat.sub_diag, remove_at_end by lia. reflexivity.
  - intros p Hp. destruct (Hlanes p Hp) as (lane & y & Hy & Hsl & Hl & Hi).
    assert (Hlp : length p = length P) by (eapply Forall2_length; eauto).
    exists lane, y. split; [exact Hy|]. split; [exact Hsl|]. split.
    + intros j Hj. rewrite (Hl j Hj). cbn [item X'].
      rewrite <- HlP, <- Hlp.
      rewrite app_nth2, Nat.sub_diag, remove_at_end by lia. reflexivity.
    + intros j. unfold r. cbn [item].
      rewrite nth_insert_at, remove_insert_at by lia.
      rewrite <- HlP, <- Hlp, insert_at_end. apply Hi.
Qed.

Lemma X15_map_along_axis_witness :
  exists r,
    wrapper [[py "n"]] [[py "n"]] first_arg [arange_3_4] (Some 0%Z)
    = OK (Arr r) /\
    shape r = [3; 4].
Proof.
  destruct (X15_map_along_axis Q (py "n") (py "n") first_arg
              arange_3_4 0 3) as (r & Hr & Hs & _).
  - unfold ndim. simpl. lia.
  - intros [|x [|x' xs]] Hxs; try discriminate.
    exists x. split; [reflexivity|]. injection Hxs as Hx. exact Hx.
  - exists r. split; [exact Hr | exact Hs].
Defined.

(** ** The products of the notebook *)

Section ProductFacts.

Context {V : Type}.

(** Shapes of the outputs of a call without [axis]: the broadcast shape
    followed by what the core function returns on the core shapes. *)
Lemma wrapper_shapes (icd ocd : list (list str))
    (func : list (ndarray V) -> result (pyval V))
    (args : list (ndarray V)) (P : list nat) (Os : list (list nat)) :
  icd <> [] -> length args = length icd ->
  ranks_ok (zip args icd) ->
  consistent (core_pairs (zip args icd)) ->
  Broadcasts (prefixes (zip args icd)) P ->
  (forall xs,
      map shape xs
      = map (fun p => core_shape_of (fst p) (snd p)) (zip args icd) ->
      exists v, func xs = OK v /\ is_tup v = false /\
                map shape (outs v) = Os) ->
  shapes_of (wrapper icd ocd func args None) = OK (map (app P) Os).
Proof.
  intros Hne Hl Hr Hc HP Hf.
  destruct (parse_input_broadcasts args icd P Hr Hc HP) as [ds Hp].
  destruct (broadcast_with_core_dims_ok args icd ocd P ds Hl Hp)
    as (bargs & Hb & HF).
  destruct (broadcast_with_core_dims_inv _ _ _ _ Hb)
    as (_ & P' & ds' & Hp' & HF').
  rewrite Hp in Hp'. inversion Hp'; subst P' ds'; clear Hp'.
  rewrite (wrapper_none icd ocd func args bargs P Hne Hb HF').
  destruct (iter_vmap_ok func false Os P bargs
              (map (fun p => core_shape_of (fst p) (snd p)) (zip args icd)))
    as (res & Hres & _ & Hs).
  - destruct HF'; [congruence | discriminate].
  - clear -HF. induction HF; constructor; auto.
  - exact Hf.
  - rewrite Hres. unfold shapes_of. cbn [bind]. rewrite Hs. reflexivity.
Qed.

End ProductFacts.

(** The steps common to the four products: the signature is parsed, the
    core and prefix shapes are read off the shapes of the two arguments,
    the names are paired with consistent sizes, and the core function
    gives the core shape of the product. *)
Ltac product_case V unicode_alnum sig icd ocd P sx sy c HP Hdot :=
  unfold vectorize_call;
  let Hv := fresh "Hv" in
  pose proof (vectorize_parse V unicode_alnum sig) as Hv;
  let Hparse := fresh "Hparse" in
  assert (Hparse : _parse_gufunc_signature unicode_alnum sig
                   = OK [icd; ocd]) by (vm_compute; reflexivity);
  rewrite Hparse in Hv; rewrite Hv; cbn [bind]; clear Hv Hparse;
  apply (wrapper_shapes icd ocd _ _ P [sx ++ sy]);
  [ discriminate
  | reflexivity
  | repeat constructor; cbn [fst snd ndim shape length];
    rewrite length_app; simpl; lia
  | unfold core_pairs; cbn [zip zip_with map concat fst snd];
    rewrite !core_shape_app by reflexivity;
    let d := fresh "d" in
    let H1 := fresh "H" in
    let H2 := fresh "H" in
    intros d ? ? H1 H2; vm_compute in H1, H2; intuition congruence
  | unfold prefixes; cbn [zip zip_with map fst snd];
    rewrite !prefix_shape_app by reflexivity; exact HP
  | cbn [zip zip_with map fst snd];
    rewrite !core_shape_app by reflexivity;
    let Hxs := fresh "Hxs" in
    let Hx := fresh "Hx" in
    let Hy := fresh "Hy" in
    let x := fresh "x" in
    let y := fresh "y" in
    let v := fresh "v" in
    let Hv := fresh "Hv" in
    let Hsv := fresh "Hsv" in
    intros [|x [|y [|? ?]]] Hxs; try discriminate;
    injection Hxs as Hx Hy;
    destruct (Hdot x y sx sy c Hx Hy) as (v & Hv & Hsv);
    [simpl; lia | simpl; lia |];
    exists (Arr v); split; [exact Hv|];
    split; [reflexivity|]; cbn [outs map]; rewrite Hsv; reflexivity ].

(** X16. The four products of the notebook: a core function with the
    shapes of [jnp.dot] on vectors and matrices, under the signatures of
    the matrix-matrix, matrix-vector, vector-matrix and vector-vector
    product, applied to arguments of any rank. When the prefix shapes of
    the two arguments broadcast to [P], the result has the shape [P]
    followed by the core shape of the product. The assertions of the
    notebook on these shapes are instances. *)
Theorem X16_product_shapes (V : Type) (unicode_alnum : N -> bool)
    (dot : list (ndarray V) -> result (pyval V))
    (A B : ndarray V) (Pa Pb P : list nat) (n m k : nat) :
  (forall (x y : ndarray V) sx sy c,
      shape x = sx ++ [c] -> shape y = c :: sy ->
      length sx <= 1 -> length sy <= 1 ->
      exists v, dot [x; y] = OK (Arr v) /\ shape v = sx ++ sy) ->
  Broadcasts [Pa; Pb] P ->
  (shape A = Pa ++ [n; m] -> shape B = Pb ++ [m; k] ->
   shapes_of (vectorize_call unicode_alnum (py "(n,m),(m,k)->(n,k)")
                dot [A; B] None) = OK [P ++ [n; k]]) /\
  (shape A = Pa ++ [n; m] -> shape B = Pb ++ [m] ->
   shapes_of (vectorize_call unicode_alnum (py "(n,m),(m)->(n)")
                dot [A; B] None) = OK [P ++ [n]]) /\
  (shape A = Pa ++ [m] -> shape B = Pb ++ [m; k] ->
   shapes_of (vectorize_call unicode_alnum (py "(m),(m,k)->(k)")
                dot [A; B] None) = OK [P ++ [k]]) /\
  (shape A = Pa ++ [m] -> shape B = Pb ++ [m] ->
   shapes_of (vectorize_call unicode_alnum (py "(m),(m)->()")
                dot [A; B] None) = OK [P]).
Proof.
  intros Hdot HP. destruct A as [sA gA], B as [sB gB]. cbn [shape].
  split; [|split; [|split]]; intros -> ->.
  - product_case V unicode_alnum (py "(n,m),(m,k)->(n,k)")
      [[py "n"; py "m"]; [py "m"; py "k"]] [[py "n"; py "k"]]
      P [n] [k] m HP Hdot.
  - rewrite <- (app_nil_r [n]).
    product_case V unicode_alnum (py "(n,m),(m)->(n)")
      [[py "n"; py "m"]; [py "m"]] [[py "n"]]
      P [n] ([] : list nat) m HP Hdot.
  - product_case V unicode_alnum (py "(m),(m,k)->(k)")
      [[py "m"]; [py "m"; py "k"]] [[py "k"]]
      P ([] : list nat) [k] m HP Hdot.
  - rewrite <- (app_nil_r P).
    product_case V unicode_alnum (py "(m),(m)->()")
      [[py "m"]; [py "m"]] [[] : list str]
      P ([] : list nat) ([] : list nat) m HP Hdot.
Qed.

Lemma X16_product_shapes_witness :
  Broadcasts [[5]; [1]] [5] /\
  shapes_of (vectorize_call no_unicode (py "(n,m),(m,k)->(n,k)")
               dot_shape [zeros [5; 2; 3]; zeros [1; 3; 4]] None)
  = OK [[5; 2; 4]].
Proof.
  assert (Hdot : forall (x y : ndarray unit) sx sy c,
             shape x = sx ++ [c] -> shape y = c :: sy ->
             length sx <= 1 -> length sy <= 1 ->
             exists v, dot_shape [x; y] = OK (Arr v)
                       /\ shape v = sx ++ sy).
  { intros x y sx sy c Hx Hy _ _. eexists. split; [reflexivity|].
    cbn [shape]. rewrite Hx, Hy, removelast_last. reflexivity. }
  assert (H : Broadcasts [[5]; [1]] [5]).
  { apply broadcast_shape_ok. vm_compute. reflexivity. }
  split; [exact H|].
  exact (proj1 (X16_product_shapes unit no_unicode dot_shape
                  (zeros [5; 2; 3]) (zeros [1; 3; 4]) [5] [1] [5] 2 3 4
                  Hdot H)
           eq_refl eq_refl).
Defined.
